(** * Caching and search-acceleration core of the Obsidian vault server

    A shallow embedding of the TypeScript services (search scorer, search
    result cache, content cache, file list cache, inverted index, file
    watcher, path trie) together with the properties established on them.

    Conventions of the embedding:
    - a JavaScript string is a Rocq [string]; its characters are read as
      code units below 256, so [toLowerCase], the [\s] and [\w] classes are
      the restrictions of the JavaScript ones to that range;
    - a JavaScript number holding a count, a line or a time stamp is a [nat]
      or a [Z]; the scores, which the source computes in double precision,
      are idealised as real numbers;
    - an insertion-ordered [Map] whose order the code relies on (the LRU
      caches, the pending changes of the watcher) is an association list in
      insertion order; a [Map] or [Set] used as a plain dictionary or set is
      a [gmap] or a [gset];
    - a loop that may spin is run on fuel, or by recursion on the data it
      consumes, and returns [None] where the source would not return. *)

From Stdlib Require Import String Ascii List ZArith Reals Lia Lra Bool.
From Stdlib Require Import QArith Sorted.
From stdpp Require Import gmap strings list.

Set Warnings "-clear-no-such-hyp,-register-all".

Local Open Scope string_scope.

(* ================================================================== *)
(** * Part I: the embedding *)
(* ================================================================== *)

(** ** JavaScript string primitives used by the services *)

Module Js.

Definition code (c : ascii) : N := N_of_ascii c.

(** [\s] on code units below 256: TAB, LF, VT, FF, CR, SPACE, NBSP. *)
Definition isWhiteSpace (c : ascii) : bool :=
  let n := code c in
  (((9 <=? n) && (n <=? 13)) || (n =? 32) || (n =? 160))%N.

(** [\w]: ASCII letters, digits and the underscore. *)
Definition isWordChar (c : ascii) : bool :=
  let n := code c in
  (((48 <=? n) && (n <=? 57)) || ((65 <=? n) && (n <=? 90))
   || ((97 <=? n) && (n <=? 122)) || (n =? 95))%N.

(** [String.prototype.toLowerCase] on one code unit below 256: A-Z and
    the accented capitals 0xC0-0xDE (without the multiplication sign
    0xD7) move up by 32. *)
Definition lowerChar (c : ascii) : ascii :=
  let n := code c in
  if (((65 <=? n) && (n <=? 90))
      || ((192 <=? n) && (n <=? 222) && negb (n =? 215)))%N
  then ascii_of_N (n + 32) else c.

Fixpoint toLowerCase (s : string) : string :=
  match s with
  | EmptyString => EmptyString
  | String c t => String (lowerChar c) (toLowerCase t)
  end.

(** A string is falsy exactly when it is empty. *)
Definition isEmpty (s : string) : bool :=
  match s with EmptyString => true | _ => false end.

(** [s.split(d)] for a one-character separator [d]: every occurrence
    splits, empty pieces are kept. *)
Fixpoint splitChar (d : ascii) (s : string) : list string :=
  match s with
  | EmptyString => [EmptyString]
  | String c t =>
      if Ascii.eqb c d then EmptyString :: splitChar d t
      else match splitChar d t with
           | piece :: rest => String c piece :: rest
           | [] => [String c EmptyString]
           end
  end.

(** [s.split(/[class]+/)]: the string is cut at every maximal run of
    separator characters; a leading or trailing run leaves an empty
    piece.  [cur] is the piece being read, [inRun] tells that the
    previous character was a separator. *)
Fixpoint splitRuns (sep : ascii -> bool) (inRun : bool) (cur : string)
         (s : string) : list string :=
  match s with
  | EmptyString => [cur]
  | String c t =>
      if sep c then
        if inRun then splitRuns sep true cur t
        else cur :: splitRuns sep true EmptyString t
      else splitRuns sep false (cur ++ String c EmptyString) t
  end.

Definition splitRe (sep : ascii -> bool) (s : string) : list string :=
  splitRuns sep false EmptyString s.

Fixpoint drop (n : nat) (s : string) : string :=
  match n, s with
  | O, _ => s
  | S k, EmptyString => EmptyString
  | S k, String _ t => drop k t
  end.

(** First index at or after [i] (the offset of [text] in the whole
    string) where [term] starts. *)
Fixpoint indexOfAux (term text : string) (i : nat) : option nat :=
  if String.prefix term text then Some i
  else match text with
       | EmptyString => None
       | String _ t => indexOfAux term t (S i)
       end.

(** [text.indexOf(term, position)], [None] standing for -1. *)
Definition indexOf (text term : string) (position : nat) : option nat :=
  let p := Nat.min position (String.length text) in
  indexOfAux term (drop p text) p.

Definition startsWith (s p : string) : bool := String.prefix p s.

Fixpoint endsWith (s p : string) : bool :=
  if String.eqb s p then true
  else match s with
       | EmptyString => false
       | String _ t => endsWith t p
       end.

(** [s.replace(/\\/g, '/')]. *)
Fixpoint backslashToSlash (s : string) : string :=
  match s with
  | EmptyString => EmptyString
  | String c t =>
      String (if Ascii.eqb c "\"%char then "/"%char else c)
             (backslashToSlash t)
  end.

(** [parts.join(sep)]. *)
Fixpoint join (sep : string) (parts : list string) : string :=
  match parts with
  | [] => EmptyString
  | [p] => p
  | p :: rest => p ++ sep ++ join sep rest
  end.

End Js.

(** ** SearchScorer *)

Module SearchScorer.

(** A match; the scorer reads its line number only. *)
Record Match := mkMatch { line : Z }.

Record ScoringWeights := mkWeights {
  termFrequency : R;
  position : R;
  density : R
}.

Definition DEFAULT_WEIGHTS : ScoringWeights :=
  {| termFrequency := 4 / 10; position := 3 / 10; density := 3 / 10 |}%R.

(** The [while] loop of [countOccurrences]; [None] when the fuel is
    used up before [indexOf] answers -1. *)
Fixpoint countLoop (fuel : nat) (text searchTerm : string)
         (count position : nat) : option nat :=
  match fuel with
  | O => None
  | S fuel' =>
      match Js.indexOf text searchTerm position with
      | None => Some count
      | Some p =>
          countLoop fuel' text searchTerm (S count)
                    (p + String.length searchTerm)
      end
  end.

Definition countOccurrences (text searchTerm : string) : option nat :=
  if Js.isEmpty text || Js.isEmpty searchTerm then Some O
  else countLoop (S (String.length text)) text searchTerm 0 0.

Definition countWords (text : string) : nat :=
  if Js.isEmpty text then O
  else length (List.filter (fun w => negb (Js.isEmpty w))
                      (Js.splitRe Js.isWhiteSpace text)).

(** [Math.log1p]. *)
Definition log1p (x : R) : R := ln (1 + x).

Definition calculateTermFrequency (content query : string) : option R :=
  if Js.isEmpty content || Js.isEmpty query then Some 0%R
  else
    let contentLower := Js.toLowerCase content in
    let queryLower := Js.toLowerCase query in
    match countOccurrences contentLower queryLower with
    | None => None
    | Some termCount =>
        let totalWords := countWords content in
        if Nat.eqb totalWords 0 then Some 0%R
        else
          let rawTf := (INR termCount / INR totalWords)%R in
          Some (Rmin 1 (log1p (rawTf * 100) / log1p 100))%R
    end.

(** [Math.min(...matches.map(m => m.line))] on a non-empty list. *)
Definition firstMatchLine (matches : list Match) : Z :=
  match matches with
  | [] => 0%Z
  | m :: rest => fold_left (fun acc m' => Z.min acc (line m')) rest (line m)
  end.

Definition calculatePositionBonus (matches : list Match)
           (totalLines : nat) : R :=
  if Nat.eqb (length matches) 0 || Nat.eqb totalLines 0 then 0%R
  else
    let positionRatio :=
      (IZR (firstMatchLine matches - 1) / INR totalLines)%R in
    exp (- positionRatio * 3).

Definition calculateDensityBonus (matches : list Match)
           (totalLines : nat) : R :=
  if Nat.eqb (length matches) 0 || Nat.eqb totalLines 0 then 0%R
  else
    let density := (INR (length matches) / INR totalLines * 100)%R in
    Rmin 1 (log1p density / log1p 50).

Definition calculateScore (weights : ScoringWeights)
           (matches : list Match) (content query : string) : option R :=
  if Nat.eqb (length matches) 0 || Js.isEmpty content || Js.isEmpty query
  then Some 0%R
  else
    let totalLines := length (Js.splitChar "010"%char content) in
    match calculateTermFrequency content query with
    | None => None
    | Some tfScore =>
        let positionScore := calculatePositionBonus matches totalLines in
        let densityScore := calculateDensityBonus matches totalLines in
        let combinedScore :=
          (tfScore * termFrequency weights
           + positionScore * position weights
           + densityScore * density weights)%R in
        Some (Rmin 1 (Rmax 0 combinedScore))
    end.

(** *** The scoring formula as the specification words it *)

(** Occurrences of [term] found by a left-to-right scan that, after a
    hit, resumes right behind it; [skip] counts the characters of the
    last hit still to be passed. *)
Fixpoint scan (term text : string) (skip : nat) : nat :=
  match text with
  | EmptyString => O
  | String _ t =>
      match skip with
      | S k => scan term t k
      | O =>
          if String.prefix term text
          then S (scan term t (String.length term - 1))
          else scan term t 0
      end
  end.

Definition occurrences (query content : string) : nat :=
  scan (Js.toLowerCase query) (Js.toLowerCase content) 0.

(** Number of maximal runs of non-blank characters. *)
Fixpoint wordRuns (inWord : bool) (s : string) : nat :=
  match s with
  | EmptyString => O
  | String c t =>
      if Js.isWhiteSpace c then wordRuns false t
      else if inWord then wordRuns true t else S (wordRuns true t)
  end.

Definition totalWords (content : string) : nat := wordRuns false content.

Fixpoint newlines (s : string) : nat :=
  match s with
  | EmptyString => O
  | String c t => (if Ascii.eqb c "010"%char then 1 else 0) + newlines t
  end.

Definition totalLinesOf (content : string) : nat := S (newlines content).

Definition TF (rawTf : R) : R := Rmin 1 (ln (1 + 100 * rawTf) / ln 101).

Definition Position (first : Z) (totalLines : nat) : R :=
  exp (- 3 * (IZR first - 1) / INR totalLines).

Definition Density (matchCount totalLines : nat) : R :=
  Rmin 1 (ln (1 + 100 * INR matchCount / INR totalLines) / ln 51).

Definition clamp01 (x : R) : R := Rmin 1 (Rmax 0 x).

Definition scoreFormula (rawTf : R) (matches : list Match)
           (content : string) : R :=
  clamp01 (4 / 10 * TF rawTf
           + 3 / 10 * Position (firstMatchLine matches) (totalLinesOf content)
           + 3 / 10 * Density (length matches) (totalLinesOf content)).

(** The score the specification promises: the formula at a raw term
    frequency that is the quotient of the occurrence count by the word
    count. *)
Definition claimedScore (matches : list Match) (content query : string)
           (v : R) : Prop :=
  exists rawTf : R,
    (rawTf * INR (totalWords content) = INR (occurrences query content))%R
    /\ v = scoreFormula rawTf matches content.

End SearchScorer.

(** ** The insertion-ordered [Map] of JavaScript, keyed by strings *)

Module JsMap.

Definition t (V : Type) : Type := list (string * V).

Definition get {V} (m : t V) (k : string) : option V :=
  match List.find (fun kv => String.eqb (fst kv) k) m with
  | Some kv => Some (snd kv)
  | None => None
  end.

Definition has {V} (m : t V) (k : string) : bool :=
  match get m k with Some _ => true | None => false end.

Definition delete {V} (m : t V) (k : string) : t V :=
  List.filter (fun kv => negb (String.eqb (fst kv) k)) m.

Fixpoint replace {V} (m : t V) (k : string) (v : V) : t V :=
  match m with
  | [] => []
  | (k', v') :: rest =>
      if String.eqb k' k then (k', v) :: rest
      else (k', v') :: replace rest k v
  end.

(** [m.set(k, v)]: an existing key keeps its place, a new one goes last. *)
Definition set {V} (m : t V) (k : string) (v : V) : t V :=
  if has m k then replace m k v else (m ++ [(k, v)])%list.

Definition keys {V} (m : t V) : list string := List.map fst m.

Definition values {V} (m : t V) : list V := List.map snd m.

Definition size {V} (m : t V) : nat := length m.

(** The eviction loop that both LRU caches run in [setInMemory]:
    [while (cache.size >= maxSize)] the oldest key, when there is one,
    is deleted.  On an empty map that is still at capacity the loop
    spins; the fuel then runs out and the answer is [None]. *)
Fixpoint evictOldest {V} (maxSize : Z) (fuel : nat) (m : t V)
  : option (t V) :=
  if (Z.of_nat (size m) >=? maxSize)%Z then
    match fuel with
    | O => None
    | S fuel' =>
        match keys m with
        | oldestKey :: _ => evictOldest maxSize fuel' (delete m oldestKey)
        | [] => evictOldest maxSize fuel' m
        end
    end
  else Some m.

End JsMap.

(** ** PersistentCache: one named partition of the embedded store *)

Module PersistentCache.

Record PersistentCacheEntry (T : Type) := mkEntry {
  data : T;
  timestamp : Z;
  mtime : option Z
}.
Arguments mkEntry {T}.
Arguments data {T}.
Arguments timestamp {T}.
Arguments mtime {T}.

(** [db] is [None] when the database could not be opened; the rows of
    an open database are a finite map.  The [try]/[catch] around every
    access is not modelled: an open database answers. *)
Definition t (T : Type) : Type := option (gmap string (PersistentCacheEntry T)).

Definition get {T} (db : t T) (key : string) : option T :=
  match db with
  | None => None
  | Some rows => data <$> rows !! key
  end.

Definition getWithTtl {T} (now : Z) (db : t T) (key : string) (ttl : Z)
  : t T * option T :=
  match db with
  | None => (db, None)
  | Some rows =>
      match rows !! key with
      | None => (db, None)
      | Some entry =>
          if (now - timestamp entry >? ttl)%Z
          then (Some (base.delete key rows), None)
          else (db, Some (data entry))
      end
  end.

Definition mtimeDiffers (stored : option Z) (current : Z) : bool :=
  match stored with
  | Some m => negb (Z.eqb m current)
  | None => true
  end.

Definition getWithMtime {T} (db : t T) (key : string) (currentMtime : Z)
  : t T * option T :=
  match db with
  | None => (db, None)
  | Some rows =>
      match rows !! key with
      | None => (db, None)
      | Some entry =>
          if mtimeDiffers (mtime entry) currentMtime
          then (Some (base.delete key rows), None)
          else (db, Some (data entry))
      end
  end.

Definition set {T} (now : Z) (db : t T) (key : string) (d : T)
           (m : option Z) : t T :=
  match db with
  | None => None
  | Some rows => Some (<[key := mkEntry d now m]> rows)
  end.

Definition delete {T} (db : t T) (key : string) : t T :=
  match db with
  | None => None
  | Some rows => Some (base.delete key rows)
  end.

Definition clear {T} (db : t T) : t T :=
  match db with
  | None => None
  | Some _ => Some ∅
  end.

Definition has {T} (db : t T) (key : string) : bool :=
  match db with
  | None => false
  | Some rows => bool_decide (is_Some (rows !! key))
  end.

End PersistentCache.

(** ** SearchResultCache *)

Module SearchResultCache.

(** What [zlib.inflateSync] followed by [JSON.parse] makes of a blob:
    an exception, or a value that is a list of results or is not. *)
Inductive JsResults (SearchResult : Type) :=
| ResultList (l : list SearchResult)
| NotAList.
Arguments ResultList {SearchResult}.
Arguments NotAList {SearchResult}.

Inductive Decoded (SearchResult : Type) :=
| Threw
| Parsed (v : JsResults SearchResult).
Arguments Threw {SearchResult}.
Arguments Parsed {SearchResult}.

(** What [get] hands to its caller: [null], a list of results, or the
    [TypeError] of calling [map] on something that is not a list. *)
Inductive GetResult (SearchResult : Type) :=
| Null
| Results (l : list SearchResult)
| TypeError.
Arguments Null {SearchResult}.
Arguments Results {SearchResult}.
Arguments TypeError {SearchResult}.

Inductive Stored (SearchResult : Type) :=
| Raw (l : list SearchResult)
| Blob (b : string).
Arguments Raw {SearchResult}.
Arguments Blob {SearchResult}.

Record SearchCacheEntry (SearchResult : Type) := mkSearchEntry {
  results : Stored SearchResult;
  timestamp : Z;
  isCompressed : bool;
  originalSize : option Z
}.
Arguments mkSearchEntry {SearchResult}.
Arguments results {SearchResult}.
Arguments timestamp {SearchResult}.
Arguments isCompressed {SearchResult}.
Arguments originalSize {SearchResult}.

Record SearchResultCacheOptions := mkCacheOptions {
  maxSize : Z;
  ttl : Z;
  enableCompression : bool;
  compressionThreshold : Z
}.

Section WithBuiltins.

(** The numbers of JavaScript with their rendering in a template
    literal, the front-matter filter with [JSON.stringify], the
    search results with the size of their JSON text, [deflateSync]
    and [inflateSync]+[JSON.parse] are taken from the platform. *)
Variable number : Type.
Variable numberToString : number -> string.
Variable Frontmatter : Type.
Variable jsonStringify : Frontmatter -> string.
Variable SearchResult : Type.
Variable jsonByteLength : list SearchResult -> Z.
Variable deflateBase64 : list SearchResult -> option string.
Variable inflateParse : string -> Decoded SearchResult.

Record SearchOptions := mkOptions {
  query : option string;
  glob : option string;
  regex : option string;
  limit : option number;
  offset : option number;
  minScore : option number;
  tags : option (list string);
  frontmatter : option Frontmatter
}.

(** [if (v) parts.push(tag + v)] for a string property: undefined and
    the empty string are falsy. *)
Definition pushString (tag : string) (v : option string) : list string :=
  match v with
  | Some x => if Js.isEmpty x then [] else [tag ++ x]
  | None => []
  end.

(** [if (v !== undefined) parts.push(tag + v)] for a number. *)
Definition pushNumber (tag : string) (v : option number) : list string :=
  match v with
  | Some n => [tag ++ numberToString n]
  | None => []
  end.

Definition generateKey (options : SearchOptions) : string :=
  let parts :=
    (pushString "q:" (query options)
     ++ pushString "g:" (glob options)
     ++ pushString "r:" (regex options)
     ++ pushNumber "l:" (limit options)
     ++ pushNumber "o:" (offset options)
     ++ pushNumber "s:" (minScore options)
     ++ match tags options with
        | Some t => [("t:" ++ Js.join "," t)%string]
        | None => []
        end
     ++ match frontmatter options with
        | Some f => [("f:" ++ jsonStringify f)%string]
        | None => []
        end)%list in
  Js.join "|" parts.

(** The options object as the caller builds it: its own properties in
    creation order, each name at most once. *)
Inductive Property :=
| PQuery (v : string)
| PGlob (v : string)
| PRegex (v : string)
| PLimit (v : number)
| POffset (v : number)
| PMinScore (v : number)
| PTags (v : list string)
| PFrontmatter (v : Frontmatter).

Definition propertyName (p : Property) : string :=
  match p with
  | PQuery _ => "query"
  | PGlob _ => "glob"
  | PRegex _ => "regex"
  | PLimit _ => "limit"
  | POffset _ => "offset"
  | PMinScore _ => "minScore"
  | PTags _ => "tags"
  | PFrontmatter _ => "frontmatter"
  end.

Definition firstOf {A} (sel : Property -> option A)
           (props : list Property) : option A :=
  List.fold_right (fun p acc => match sel p with
                                | Some v => Some v
                                | None => acc
                                end) None props.

(** Reading the eight properties by name. *)
Definition readOptions (props : list Property) : SearchOptions :=
  {| query := firstOf (fun p => match p with PQuery v => Some v | _ => None end) props;
     glob := firstOf (fun p => match p with PGlob v => Some v | _ => None end) props;
     regex := firstOf (fun p => match p with PRegex v => Some v | _ => None end) props;
     limit := firstOf (fun p => match p with PLimit v => Some v | _ => None end) props;
     offset := firstOf (fun p => match p with POffset v => Some v | _ => None end) props;
     minScore := firstOf (fun p => match p with PMinScore v => Some v | _ => None end) props;
     tags := firstOf (fun p => match p with PTags v => Some v | _ => None end) props;
     frontmatter := firstOf (fun p => match p with PFrontmatter v => Some v | _ => None end) props |}.

(** The cache: the in-memory [Map], and the persistent partition when
    one was given to the constructor.  The compression counters, read
    by [getStats] only, are left out. *)
Record State := mkState {
  cache : JsMap.t (SearchCacheEntry SearchResult);
  persistentCache :
    option (PersistentCache.t (SearchCacheEntry SearchResult))
}.

Variable options : SearchResultCacheOptions.

Definition maybeCompress (rs : list SearchResult)
  : Stored SearchResult * bool * Z :=
  let originalSize := jsonByteLength rs in
  if negb (enableCompression options)
     || (originalSize <? compressionThreshold options)%Z
  then (Raw rs, false, originalSize)
  else
    match deflateBase64 rs with
    | Some compressed =>
        if (Z.of_nat (String.length compressed) <? originalSize)%Z
        then (Blob compressed, true, originalSize)
        else (Raw rs, false, originalSize)
    | None => (Raw rs, false, originalSize)
    end.

Definition maybeDecompress (entry : SearchCacheEntry SearchResult)
  : JsResults SearchResult :=
  match results entry with
  | Raw l => ResultList l
  | Blob b =>
      if negb (isCompressed entry) then NotAList
      else match inflateParse b with
           | Parsed v => v
           | Threw => ResultList []
           end
  end.

(** [results.map(...)]: a copy of a list, a [TypeError] otherwise. *)
Definition deepCopyResults (v : JsResults SearchResult)
  : GetResult SearchResult :=
  match v with
  | ResultList l => Results l
  | NotAList => TypeError
  end.

Definition setInMemory (m : JsMap.t (SearchCacheEntry SearchResult))
           (key : string) (entry : SearchCacheEntry SearchResult)
  : option (JsMap.t (SearchCacheEntry SearchResult)) :=
  let m1 := if JsMap.has m key then JsMap.delete m key else m in
  match JsMap.evictOldest (maxSize options) (S (JsMap.size m1)) m1 with
  | Some m2 => Some (JsMap.set m2 key entry)
  | None => None
  end.

(** [get] at time [now]; [None] when the call does not return. *)
Definition get (now : Z) (st : State) (opts : SearchOptions)
  : option (State * GetResult SearchResult) :=
  let key := generateKey opts in
  match JsMap.get (cache st) key with
  | Some memoryEntry =>
      if (now - timestamp memoryEntry >? ttl options)%Z then
        Some ({| cache := JsMap.delete (cache st) key;
                 persistentCache :=
                   (fun db => PersistentCache.delete db key)
                     <$> persistentCache st |},
              Null)
      else
        Some ({| cache := JsMap.set (JsMap.delete (cache st) key)
                                    key memoryEntry;
                 persistentCache := persistentCache st |},
              deepCopyResults (maybeDecompress memoryEntry))
  | None =>
      match persistentCache st with
      | Some db =>
          let '(db', found) :=
            PersistentCache.getWithTtl now db key (ttl options) in
          match found with
          | Some persistedEntry =>
              match setInMemory (cache st) key persistedEntry with
              | Some m =>
                  Some ({| cache := m; persistentCache := Some db' |},
                        deepCopyResults (maybeDecompress persistedEntry))
              | None => None
              end
          | None =>
              Some ({| cache := cache st;
                       persistentCache := Some db' |}, Null)
          end
      | None => Some (st, Null)
      end
  end.

Definition set (now : Z) (st : State) (opts : SearchOptions)
           (rs : list SearchResult) : option State :=
  let key := generateKey opts in
  let '(data, compressed, size) := maybeCompress rs in
  let entry := {| results := data; timestamp := now;
                  isCompressed := compressed;
                  originalSize := Some size |} in
  match setInMemory (cache st) key entry with
  | Some m =>
      Some {| cache := m;
              persistentCache :=
                (fun db => PersistentCache.set now db key entry None)
                  <$> persistentCache st |}
  | None => None
  end.

Definition invalidate (st : State) : State :=
  {| cache := [];
     persistentCache := PersistentCache.clear <$> persistentCache st |}.

(** A new cache instance opened on the partition an earlier one left. *)
Definition restart (st : State) : State :=
  {| cache := []; persistentCache := persistentCache st |}.

End WithBuiltins.

Arguments mkOptions {number Frontmatter}.
Arguments mkState {SearchResult}.
Arguments cache {SearchResult}.
Arguments persistentCache {SearchResult}.

End SearchResultCache.

(** ** ContentCache *)

Module ContentCache.

Section WithFrontmatter.

(** The values of the front-matter data are opaque to the cache. *)
Variable Unknown : Type.

Record CachedFrontmatter := mkFrontmatter {
  tags : list string;
  data : list (string * Unknown);
  hasFrontmatter : bool
}.

Record ContentCacheEntry := mkContentEntry {
  content : string;
  mtime : Z;
  parsedFrontmatter : option CachedFrontmatter;
  wordCount : option nat;
  lineCount : option nat;
  inlineTags : option (list string)
}.

Record State := mkState {
  cache : JsMap.t ContentCacheEntry;
  persistentCache : option (PersistentCache.t ContentCacheEntry)
}.

Variable maxSize : Z.

Definition normalizePath (filePath : string) : string :=
  Js.backslashToSlash filePath.

Definition computeWordCount (text : string) : nat :=
  if Js.isEmpty text then O
  else length (List.filter (fun w => negb (Js.isEmpty w))
                           (Js.splitRe Js.isWhiteSpace text)).

Definition computeLineCount (text : string) : nat :=
  if Js.isEmpty text then O
  else length (Js.splitChar "010"%char text).

(** The class [[\w/-]] of the inline tag pattern. *)
Definition isTagChar (c : ascii) : bool :=
  Js.isWordChar c || Ascii.eqb c "/"%char || Ascii.eqb c "-"%char.

Definition emitTag (tag : string) : list string :=
  if Js.isEmpty tag then [] else [tag].

(** [text.match(/#([\w/-]+)/g)] with the leading [#] already sliced off:
    [cur] is the tag being read after a [#], if any. *)
Fixpoint matchTags (cur : option string) (text : string) : list string :=
  match text with
  | EmptyString => match cur with Some tag => emitTag tag | None => [] end
  | String c t =>
      match cur with
      | Some tag =>
          if isTagChar c then matchTags (Some (tag ++ String c EmptyString)) t
          else (emitTag tag
                ++ matchTags (if Ascii.eqb c "#"%char
                              then Some EmptyString else None) t)%list
      | None =>
          matchTags (if Ascii.eqb c "#"%char then Some EmptyString else None) t
      end
  end.

(** [[...new Set(tags)]]: the first occurrence of each tag is kept. *)
Fixpoint dedup (seen : list string) (l : list string) : list string :=
  match l with
  | [] => []
  | x :: rest =>
      if existsb (String.eqb x) seen then dedup seen rest
      else x :: dedup (x :: seen) rest
  end.

Definition extractInlineTags (text : string) : list string :=
  if Js.isEmpty text then []
  else dedup [] (List.map Js.toLowerCase (matchTags None text)).

Definition setInMemory (m : JsMap.t ContentCacheEntry)
           (normalizedPath : string) (entry : ContentCacheEntry)
  : option (JsMap.t ContentCacheEntry) :=
  let m1 := if JsMap.has m normalizedPath
            then JsMap.delete m normalizedPath else m in
  match JsMap.evictOldest maxSize (S (JsMap.size m1)) m1 with
  | Some m2 => Some (JsMap.set m2 normalizedPath entry)
  | None => None
  end.

(** [get]; the outer [None] is a call that does not return, the inner
    one is [null]. *)
Definition get (st : State) (filePath : string) (currentMtime : Z)
  : option (State * option string) :=
  let normalizedPath := normalizePath filePath in
  match JsMap.get (cache st) normalizedPath with
  | Some memoryEntry =>
      if negb (Z.eqb (mtime memoryEntry) currentMtime) then
        Some ({| cache := JsMap.delete (cache st) normalizedPath;
                 persistentCache :=
                   (fun db => PersistentCache.delete db normalizedPath)
                     <$> persistentCache st |},
              None)
      else
        Some ({| cache := JsMap.set (JsMap.delete (cache st) normalizedPath)
                                    normalizedPath memoryEntry;
                 persistentCache := persistentCache st |},
              Some (content memoryEntry))
  | None =>
      match persistentCache st with
      | Some db =>
          let '(db', found) :=
            PersistentCache.getWithMtime db normalizedPath currentMtime in
          match found with
          | Some persistedEntry =>
              match setInMemory (cache st) normalizedPath persistedEntry with
              | Some m =>
                  Some ({| cache := m; persistentCache := Some db' |},
                        Some (content persistedEntry))
              | None => None
              end
          | None =>
              Some ({| cache := cache st; persistentCache := Some db' |},
                    None)
          end
      | None => Some (st, None)
      end
  end.

(** [set] at time [now] (the time stamp of the persisted row). *)
Definition set (now : Z) (st : State) (filePath text : string) (m : Z)
  : option State :=
  let normalizedPath := normalizePath filePath in
  let entry := {| content := text; mtime := m;
                  parsedFrontmatter := None;
                  wordCount := Some (computeWordCount text);
                  lineCount := Some (computeLineCount text);
                  inlineTags := Some (extractInlineTags text) |} in
  match setInMemory (cache st) normalizedPath entry with
  | Some mem =>
      Some {| cache := mem;
              persistentCache :=
                (fun db => PersistentCache.set now db normalizedPath entry
                                               (Some m))
                  <$> persistentCache st |}
  | None => None
  end.

Definition invalidate (st : State) (filePath : string) : State :=
  let normalizedPath := normalizePath filePath in
  {| cache := JsMap.delete (cache st) normalizedPath;
     persistentCache :=
       (fun db => PersistentCache.delete db normalizedPath)
         <$> persistentCache st |}.

Definition clear (st : State) : State :=
  {| cache := [];
     persistentCache := PersistentCache.clear <$> persistentCache st |}.

Definition has (st : State) (filePath : string) : bool :=
  let normalizedPath := normalizePath filePath in
  JsMap.has (cache st) normalizedPath
  || match persistentCache st with
     | Some db => PersistentCache.has db normalizedPath
     | None => false
     end.

(** [getEntry]: as [get], the whole entry being returned. *)
Definition getEntry (st : State) (filePath : string) (currentMtime : Z)
  : option (State * option ContentCacheEntry) :=
  let normalizedPath := normalizePath filePath in
  match JsMap.get (cache st) normalizedPath with
  | Some memoryEntry =>
      if negb (Z.eqb (mtime memoryEntry) currentMtime) then
        Some ({| cache := JsMap.delete (cache st) normalizedPath;
                 persistentCache :=
                   (fun db => PersistentCache.delete db normalizedPath)
                     <$> persistentCache st |},
              None)
      else
        Some ({| cache := JsMap.set (JsMap.delete (cache st) normalizedPath)
                                    normalizedPath memoryEntry;
                 persistentCache := persistentCache st |},
              Some memoryEntry)
  | None =>
      match persistentCache st with
      | Some db =>
          let '(db', found) :=
            PersistentCache.getWithMtime db normalizedPath currentMtime in
          match found with
          | Some persistedEntry =>
              match setInMemory (cache st) normalizedPath persistedEntry with
              | Some m =>
                  Some ({| cache := m; persistentCache := Some db' |},
                        Some persistedEntry)
              | None => None
              end
          | None =>
              Some ({| cache := cache st; persistentCache := Some db' |},
                    None)
          end
      | None => Some (st, None)
      end
  end.

Record ContentMetadata := mkMetadata {
  frontmatter : option CachedFrontmatter;
  metaWordCount : nat;
  metaLineCount : nat;
  metaInlineTags : list string;
  allTags : list string
}.

Definition getMetadata (st : State) (filePath : string) (currentMtime : Z)
  : option (State * option ContentMetadata) :=
  match getEntry st filePath currentMtime with
  | None => None
  | Some (st', None) => Some (st', None)
  | Some (st', Some entry) =>
      let frontmatterTags :=
        match parsedFrontmatter entry with
        | Some fm => tags fm
        | None => []
        end in
      let inline := default [] (inlineTags entry) in
      Some (st',
            Some {| frontmatter := parsedFrontmatter entry;
                    metaWordCount := default O (wordCount entry);
                    metaLineCount := default O (lineCount entry);
                    metaInlineTags := inline;
                    allTags := dedup [] (frontmatterTags ++ inline) |})
  end.

Definition setWithMetadata (now : Z) (st : State) (filePath text : string)
           (m : Z) (fm : CachedFrontmatter) : option State :=
  let normalizedPath := normalizePath filePath in
  let entry := {| content := text; mtime := m;
                  parsedFrontmatter := Some fm;
                  wordCount := Some (computeWordCount text);
                  lineCount := Some (computeLineCount text);
                  inlineTags := Some (extractInlineTags text) |} in
  match setInMemory (cache st) normalizedPath entry with
  | Some mem =>
      Some {| cache := mem;
              persistentCache :=
                (fun db => PersistentCache.set now db normalizedPath entry
                                               (Some m))
                  <$> persistentCache st |}
  | None => None
  end.

(** [updateFrontmatter]: the entry found in memory is changed in place,
    so it keeps its position in the map, and is written to the partition
    again. *)
Definition updateFrontmatter (now : Z) (st : State) (filePath : string)
           (fm : CachedFrontmatter) : State :=
  let normalizedPath := normalizePath filePath in
  match JsMap.get (cache st) normalizedPath with
  | Some entry =>
      let entry' := {| content := content entry; mtime := mtime entry;
                       parsedFrontmatter := Some fm;
                       wordCount := wordCount entry;
                       lineCount := lineCount entry;
                       inlineTags := inlineTags entry |} in
      {| cache := JsMap.replace (cache st) normalizedPath entry';
         persistentCache :=
           (fun db => PersistentCache.set now db normalizedPath entry'
                                          (Some (mtime entry)))
             <$> persistentCache st |}
  | None => st
  end.

(** A new cache instance opened on the partition an earlier one left. *)
Definition restart (st : State) : State :=
  {| cache := []; persistentCache := persistentCache st |}.

End WithFrontmatter.

Arguments mkState {Unknown}.
Arguments cache {Unknown}.
Arguments persistentCache {Unknown}.
Arguments content {Unknown}.
Arguments mtime {Unknown}.
Arguments mkFrontmatter {Unknown}.
Arguments tags {Unknown}.
Arguments frontmatter {Unknown}.
Arguments metaWordCount {Unknown}.
Arguments metaLineCount {Unknown}.
Arguments metaInlineTags {Unknown}.
Arguments allTags {Unknown}.

End ContentCache.

(** ** FileListCache *)

Module FileListCache.

Record CacheEntry := mkCacheEntry {
  files : list string;
  timestamp : Z
}.

(** The plain object [cache], with its own keys in creation order, and
    the persistent partition when one was given. *)
Record State := mkState {
  cache : JsMap.t CacheEntry;
  persistentCache : option (PersistentCache.t CacheEntry)
}.

(** [s.replace(/\/+$/, '')]. *)
Fixpoint stripTrailingSlashes (s : string) : string :=
  match s with
  | EmptyString => EmptyString
  | String c t =>
      let t' := stripTrailingSlashes t in
      if Ascii.eqb c "/"%char && Js.isEmpty t' then EmptyString
      else String c t'
  end.

Definition normalizeFolder (folder : string) : string :=
  Js.toLowerCase (stripTrailingSlashes (Js.backslashToSlash folder)).

Definition isRelatedFolder (folder1 folder2 : string) : bool :=
  if Js.isEmpty folder1 || Js.isEmpty folder2 then true
  else Js.startsWith folder1 (folder2 ++ "/")
       || Js.startsWith folder2 (folder1 ++ "/").

Section WithTtl.

Variable ttl : Z.

Definition isEntryValid (now : Z) (entry : CacheEntry) : bool :=
  (now - timestamp entry <? ttl)%Z.

Definition get (now : Z) (st : State) (folder : string)
  : State * option (list string) :=
  let normalizedFolder := normalizeFolder folder in
  let memoryEntry := JsMap.get (cache st) normalizedFolder in
  match memoryEntry with
  | Some e =>
      if isEntryValid now e then (st, Some (files e))
      else
        match persistentCache st with
        | Some db =>
            let '(db', found) :=
              PersistentCache.getWithTtl now db normalizedFolder ttl in
            match found with
            | Some persistedEntry =>
                ({| cache := JsMap.set (cache st) normalizedFolder
                                       persistedEntry;
                    persistentCache := Some db' |},
                 Some (files persistedEntry))
            | None =>
                ({| cache := JsMap.delete (cache st) normalizedFolder;
                    persistentCache := Some db' |}, None)
            end
        | None =>
            ({| cache := JsMap.delete (cache st) normalizedFolder;
                persistentCache := None |}, None)
        end
  | None =>
      match persistentCache st with
      | Some db =>
          let '(db', found) :=
            PersistentCache.getWithTtl now db normalizedFolder ttl in
          match found with
          | Some persistedEntry =>
              ({| cache := JsMap.set (cache st) normalizedFolder
                                     persistedEntry;
                  persistentCache := Some db' |},
               Some (files persistedEntry))
          | None =>
              ({| cache := cache st; persistentCache := Some db' |}, None)
          end
      | None => (st, None)
      end
  end.

Definition isValid (now : Z) (st : State) (folder : string)
  : State * bool :=
  let normalizedFolder := normalizeFolder folder in
  let fromPartition :=
    match persistentCache st with
    | Some db =>
        let '(db', found) :=
          PersistentCache.getWithTtl now db normalizedFolder ttl in
        ({| cache := cache st; persistentCache := Some db' |},
         match found with Some _ => true | None => false end)
    | None => (st, false)
    end in
  match JsMap.get (cache st) normalizedFolder with
  | Some e => if isEntryValid now e then (st, true) else fromPartition
  | None => fromPartition
  end.

End WithTtl.

Definition set (now : Z) (st : State) (folder : string)
           (fs : list string) : State :=
  let normalizedFolder := normalizeFolder folder in
  let entry := {| files := fs; timestamp := now |} in
  {| cache := JsMap.set (cache st) normalizedFolder entry;
     persistentCache :=
       (fun db => PersistentCache.set now db normalizedFolder entry None)
         <$> persistentCache st |}.

(** One turn of the loop over [Object.keys(this.cache)]. *)
Definition invalidateRelated (normalizedFolder : string) (st : State)
           (cachedFolder : string) : State :=
  if isRelatedFolder cachedFolder normalizedFolder then
    {| cache := JsMap.delete (cache st) cachedFolder;
       persistentCache :=
         (fun db => PersistentCache.delete db cachedFolder)
           <$> persistentCache st |}
  else st.

Definition invalidate (st : State) (folder : option string) : State :=
  match folder with
  | None =>
      {| cache := [];
         persistentCache := PersistentCache.clear <$> persistentCache st |}
  | Some f =>
      let normalizedFolder := normalizeFolder f in
      let st1 :=
        {| cache := JsMap.delete (cache st) normalizedFolder;
           persistentCache :=
             (fun db => PersistentCache.delete db normalizedFolder)
               <$> persistentCache st |} in
      List.fold_left (invalidateRelated normalizedFolder)
                     (JsMap.keys (cache st1)) st1
  end.

(** A new cache instance opened on the partition an earlier one left. *)
Definition restart (st : State) : State :=
  {| cache := []; persistentCache := persistentCache st |}.

End FileListCache.

(** ** InvertedIndex *)

Module InvertedIndex.

Record InvertedIndexOptions := mkIndexOptions {
  minWordLength : Z;
  maxWordsPerFile : Z;
  stopWords : gset string
}.

Definition DEFAULT_STOP_WORDS : gset string :=
  list_to_set
    ["the"; "a"; "an"; "and"; "or"; "but"; "in"; "on"; "at"; "to"; "for";
     "of"; "with"; "by"; "from"; "as"; "is"; "was"; "are"; "were"; "been";
     "be"; "have"; "has"; "had"; "do"; "does"; "did"; "will"; "would";
     "could"; "should"; "may"; "might"; "must"; "shall"; "can"; "need";
     "dare"; "ought"; "used"; "it"; "its"; "this"; "that"; "these"; "those";
     "i"; "you"; "he"; "she"; "we"; "they"; "what"; "which"; "who"; "whom";
     "whose"; "where"; "when"; "why"; "how"; "all"; "each"; "every"; "both";
     "few"; "more"; "most"; "other"; "some"; "such"; "no"; "nor"; "not";
     "only"; "own"; "same"; "so"; "than"; "too"; "very"; "just"; "also";
     "now"; "here"].

Definition DEFAULT_OPTIONS : InvertedIndexOptions :=
  {| minWordLength := 3; maxWordsPerFile := 10000;
     stopWords := DEFAULT_STOP_WORDS |}.

Record State := mkState {
  wordToFiles : gmap string (gset string);
  fileToWords : gmap string (gset string);
  enabled : bool
}.

(** A new index: both maps empty, enabled. *)
Definition empty : State :=
  {| wordToFiles := ∅; fileToWords := ∅; enabled := true |}.

Definition normalizePath (filePath : string) : string :=
  Js.backslashToSlash filePath.

Definition clear (st : State) : State :=
  {| wordToFiles := ∅; fileToWords := ∅; enabled := enabled st |}.

Definition setEnabled (st : State) (b : bool) : State :=
  let st' := {| wordToFiles := wordToFiles st;
                fileToWords := fileToWords st; enabled := b |} in
  if b then st' else clear st'.

(** One turn of the loop of [invalidate]: the path leaves the file set of
    [word], and an emptied file set leaves the map. *)
Definition removeFile (normalizedPath : string)
           (wtf : gmap string (gset string)) (word : string)
  : gmap string (gset string) :=
  match wtf !! word with
  | Some fs =>
      let fs' := fs ∖ {[normalizedPath]} in
      if decide (size fs' = 0) then base.delete word wtf
      else <[word := fs']> wtf
  | None => wtf
  end.

Definition invalidate (st : State) (filePath : string) : State :=
  let normalizedPath := normalizePath filePath in
  match fileToWords st !! normalizedPath with
  | None => st
  | Some words =>
      {| wordToFiles := fold_left (removeFile normalizedPath)
                                  (elements words) (wordToFiles st);
         fileToWords := base.delete normalizedPath (fileToWords st);
         enabled := enabled st |}
  end.

Section WithOptions.

Variable options : InvertedIndexOptions.

(** The separators of [split(/[\s\W]+/)]. *)
Definition isSeparator (c : ascii) : bool :=
  Js.isWhiteSpace c || negb (Js.isWordChar c).

(** The loop of [extractWords] over the raw words. *)
Fixpoint collectWords (rawWords : list string) (count : Z)
         (words : gset string) : gset string :=
  match rawWords with
  | [] => words
  | word :: rest =>
      if (Z.of_nat (String.length word) <? minWordLength options)%Z
      then collectWords rest count words
      else if decide (word ∈ stopWords options)
      then collectWords rest count words
      else
        let words' := words ∪ {[word]} in
        let count' := (count + 1)%Z in
        if (count' >=? maxWordsPerFile options)%Z then words'
        else collectWords rest count' words'
  end.

Definition extractWords (text : string) : gset string :=
  collectWords (Js.splitRe isSeparator (Js.toLowerCase text)) 0 ∅.

(** One turn of the second loop of [indexContent]. *)
Definition addFile (normalizedPath : string)
           (wtf : gmap string (gset string)) (word : string)
  : gmap string (gset string) :=
  match wtf !! word with
  | Some fs => <[word := fs ∪ {[normalizedPath]}]> wtf
  | None => <[word := {[normalizedPath]}]> wtf
  end.

Definition indexContent (st : State) (filePath text : string) : State :=
  if negb (enabled st) || Js.isEmpty text then st
  else
    let normalizedPath := normalizePath filePath in
    let st1 := invalidate st filePath in
    let words := extractWords text in
    {| wordToFiles := fold_left (addFile normalizedPath) (elements words)
                                (wordToFiles st1);
       fileToWords := <[normalizedPath := words]> (fileToWords st1);
       enabled := enabled st1 |}.

(** The states an index goes through. *)
Inductive reachable : State -> Prop :=
| reachable_empty : reachable empty
| reachable_indexContent st filePath text :
    reachable st -> reachable (indexContent st filePath text)
| reachable_invalidate st filePath :
    reachable st -> reachable (invalidate st filePath)
| reachable_setEnabled st b :
    reachable st -> reachable (setEnabled st b)
| reachable_clear st :
    reachable st -> reachable (clear st).

(** [intersect]: the members of the smaller set that the larger has. *)
Definition intersect (setA setB : gset string) : gset string :=
  let '(smaller, larger) :=
    if Nat.leb (size setA) (size setB) then (setA, setB)
    else (setB, setA) in
  filter (fun item => item ∈ larger) smaller.

(** The loop of [search] over the query words; [resultFiles] is [None]
    before the first word. *)
Fixpoint searchLoop (wtf : gmap string (gset string))
         (queryWords : list string) (resultFiles : option (gset string))
  : gset string :=
  match queryWords with
  | [] => default ∅ resultFiles
  | word :: rest =>
      match wtf !! word with
      | None => ∅
      | Some filesWithWord =>
          if decide (size filesWithWord = 0) then ∅
          else
            match resultFiles with
            | None => searchLoop wtf rest (Some filesWithWord)
            | Some found =>
                let found' := intersect found filesWithWord in
                if decide (size found' = 0) then ∅
                else searchLoop wtf rest (Some found')
            end
      end
  end.

Definition search (st : State) (query : string) : gset string :=
  if negb (enabled st) || Js.isEmpty query then ∅
  else
    let queryWords := extractWords query in
    if decide (size queryWords = 0) then ∅
    else searchLoop (wordToFiles st) (elements queryWords) None.

Definition searchAny (st : State) (query : string) : gset string :=
  if negb (enabled st) || Js.isEmpty query then ∅
  else
    let queryWords := extractWords query in
    if decide (size queryWords = 0) then ∅
    else
      fold_left (fun resultFiles word =>
                   match wordToFiles st !! word with
                   | Some filesWithWord => resultFiles ∪ filesWithWord
                   | None => resultFiles
                   end)
                (elements queryWords) ∅.

End WithOptions.

(** [s.trim()] on code units below 256. *)
Fixpoint trimStart (s : string) : string :=
  match s with
  | EmptyString => EmptyString
  | String c t => if Js.isWhiteSpace c then trimStart t else s
  end.

Fixpoint trimEnd (s : string) : string :=
  match s with
  | EmptyString => EmptyString
  | String c t =>
      let t' := trimEnd t in
      if Js.isWhiteSpace c && Js.isEmpty t' then EmptyString
      else String c t'
  end.

Definition trim (s : string) : string := trimEnd (trimStart s).

Definition hasWord (st : State) (word : string) : bool :=
  if negb (enabled st) then false
  else
    let normalized := trim (Js.toLowerCase word) in
    bool_decide (is_Some (wordToFiles st !! normalized)).

Definition getFilesWithWord (st : State) (word : string) : gset string :=
  if negb (enabled st) then ∅
  else
    let normalized := trim (Js.toLowerCase word) in
    default ∅ (wordToFiles st !! normalized).

Definition isFileIndexed (st : State) (filePath : string) : bool :=
  bool_decide (is_Some (fileToWords st !! normalizePath filePath)).

(** Membership in the two maps, an absent key standing for no set. *)
Definition wordOfFile (st : State) (word path : string) : Prop :=
  exists words, fileToWords st !! path = Some words /\ word ∈ words.

Definition fileOfWord (st : State) (word path : string) : Prop :=
  exists fs, wordToFiles st !! word = Some fs /\ path ∈ fs.

End InvertedIndex.

(** ** FileWatcher *)

Module FileWatcher.

Inductive FileChangeEventType := add | change | unlink | addDir | unlinkDir.

Definition eventType_eqb (a b : FileChangeEventType) : bool :=
  match a, b with
  | add, add | change, change | unlink, unlink
  | addDir, addDir | unlinkDir, unlinkDir => true
  | _, _ => false
  end.

Record PendingChange := mkPending {
  eventType : FileChangeEventType;
  filePath : string;
  timestamp : Z
}.

(** One invocation of the change callback. *)
Definition Call : Type := FileChangeEventType * string.

(** The watcher: whether a callback is registered, whether a debounce
    time-out is pending, the pending changes by relative path in creation
    order, and the count of changes processed. *)
Record State := mkState {
  onChangeCallback : bool;
  debounceTimer : bool;
  pendingChanges : JsMap.t PendingChange;
  changesProcessed : nat
}.

Definition created : State :=
  {| onChangeCallback := false; debounceTimer := false;
     pendingChanges := []; changesProcessed := 0 |}.

(** [start(onChange)], as far as the callback goes. *)
Definition start (st : State) : State :=
  {| onChangeCallback := true; debounceTimer := debounceTimer st;
     pendingChanges := pendingChanges st;
     changesProcessed := changesProcessed st |}.

Definition coalesceEventType (existing : option FileChangeEventType)
           (incoming : FileChangeEventType) : FileChangeEventType :=
  match existing with
  | None => incoming
  | Some existing =>
      if eventType_eqb existing add && eventType_eqb incoming change then add
      else if eventType_eqb incoming unlink || eventType_eqb incoming unlinkDir
      then incoming
      else if eventType_eqb existing unlink && eventType_eqb incoming add
      then change
      else incoming
  end.

Definition processPendingChanges (st : State) : State * list Call :=
  if negb (onChangeCallback st) || Nat.eqb (JsMap.size (pendingChanges st)) 0
  then (st, [])
  else
    let calls := List.map (fun c => (eventType c, filePath c))
                          (JsMap.values (pendingChanges st)) in
    ({| onChangeCallback := onChangeCallback st;
        debounceTimer := debounceTimer st;
        pendingChanges := [];
        changesProcessed := changesProcessed st + length calls |},
     calls).

Section WithVault.

(** [path.relative(this.vaultPath, filePath)], from the platform. *)
Variable vaultPath : string.
Variable pathRelative : string -> string -> string.

Definition handleChange (now : Z) (st : State)
           (type : FileChangeEventType) (path : string) : State :=
  if negb (eventType_eqb type addDir) && negb (eventType_eqb type unlinkDir)
     && negb (Js.endsWith path ".md")
  then st
  else
    let relativePath := pathRelative vaultPath path in
    let existing := JsMap.get (pendingChanges st) relativePath in
    let newChange :=
      {| eventType := coalesceEventType (eventType <$> existing) type;
         filePath := relativePath;
         timestamp := now |} in
    {| onChangeCallback := onChangeCallback st;
       debounceTimer := true;
       pendingChanges := JsMap.set (pendingChanges st) relativePath newChange;
       changesProcessed := changesProcessed st |}.

(** The debounce time-out fires. *)
Definition timerFires (st : State) : State * list Call :=
  if debounceTimer st then
    processPendingChanges
      {| onChangeCallback := onChangeCallback st; debounceTimer := false;
         pendingChanges := pendingChanges st;
         changesProcessed := changesProcessed st |}
  else (st, []).

(** [stop()], as far as the pending changes go. *)
Definition stop (st : State) : State * list Call :=
  let st1 := {| onChangeCallback := onChangeCallback st;
                debounceTimer := false;
                pendingChanges := pendingChanges st;
                changesProcessed := changesProcessed st |} in
  if Nat.ltb 0 (JsMap.size (pendingChanges st1))
  then processPendingChanges st1 else (st1, []).

(** What happens to a started watcher. *)
Inductive Input :=
| Raw (now : Z) (type : FileChangeEventType) (path : string)
| TimerFires
| Stop.

Definition step (st : State) (i : Input) : State * list Call :=
  match i with
  | Raw now type path => (handleChange now st type path, [])
  | TimerFires => timerFires st
  | Stop => stop st
  end.

(** The calls made while the inputs are consumed, in order. *)
Fixpoint run (st : State) (inputs : list Input) : State * list Call :=
  match inputs with
  | [] => (st, [])
  | i :: rest =>
      let '(st1, calls1) := step st i in
      let '(st2, calls2) := run st1 rest in
      (st2, (calls1 ++ calls2)%list)
  end.

Definition callsFor (relativePath : string) (calls : list Call) : list Call :=
  List.filter (fun c => String.eqb (snd c) relativePath) calls.

End WithVault.

(** What [path.relative] answers for a file below the vault: the path
    without the vault prefix.  Used to run the watcher on examples. *)
Definition relativeBelow (vaultPath path : string) : string :=
  if Js.startsWith path (vaultPath ++ "/")
  then Js.drop (String.length vaultPath + 1) path
  else path.

End FileWatcher.

(** ** PathTrie *)

Module PathTrie.

(** A node: its children by path segment in creation order, the full
    paths of the files that end at it, and the directory mark. *)
Inductive TrieNode :=
| Node (children : list (string * TrieNode)) (files : list string)
       (isDirectory : bool).

Definition children (n : TrieNode) : list (string * TrieNode) :=
  match n with Node c _ _ => c end.

Definition files (n : TrieNode) : list string :=
  match n with Node _ f _ => f end.

Definition isDirectory (n : TrieNode) : bool :=
  match n with Node _ _ d => d end.

Definition createNode : TrieNode := Node [] [] false.

Record State := mkState {
  root : TrieNode;
  fileCount : Z;
  allFiles : list string
}.

Definition empty : State :=
  {| root := createNode; fileCount := 0; allFiles := [] |}.

Definition normalizePath (filePath : string) : string :=
  Js.backslashToSlash filePath.

Definition inSet (x : string) (l : list string) : bool :=
  existsb (String.eqb x) l.

(** [set.add(x)] on a [Set] kept in insertion order. *)
Definition setAdd (l : list string) (x : string) : list string :=
  if inSet x l then l else (l ++ [x])%list.

Definition setDelete (l : list string) (x : string) : list string :=
  List.filter (fun y => negb (String.eqb y x)) l.

(** The child under [segment], created when missing, then changed by
    [f]. *)
Definition updateChild (segment : string) (f : TrieNode -> TrieNode)
           (n : TrieNode) : TrieNode :=
  match n with
  | Node c fs d =>
      match JsMap.get c segment with
      | Some child => Node (JsMap.set c segment (f child)) fs d
      | None => Node (JsMap.set c segment (f createNode)) fs d
      end
  end.

Definition markDirectory (n : TrieNode) : TrieNode :=
  match n with Node c fs _ => Node c fs true end.

Definition addFile (path : string) (n : TrieNode) : TrieNode :=
  match n with Node c fs d => Node c (setAdd fs path) d end.

(** The walk of [insert] down the segments: empty segments are skipped,
    every segment but the last names a directory, the last one the node
    that receives the path. *)
Fixpoint insertAt (segments : list string) (path : string) (n : TrieNode)
  : TrieNode :=
  match segments with
  | [] => n
  | [fileName] =>
      if Js.isEmpty fileName then n
      else updateChild fileName (addFile path) n
  | segment :: rest =>
      if Js.isEmpty segment then insertAt rest path n
      else updateChild segment
                       (fun child => insertAt rest path (markDirectory child))
                       n
  end.

Definition insert (st : State) (filePath : string) : State :=
  if Js.isEmpty filePath then st
  else
    let normalizedPath := normalizePath filePath in
    if inSet normalizedPath (allFiles st) then st
    else
      {| root := insertAt (Js.splitChar "/"%char normalizedPath)
                          normalizedPath (root st);
         fileCount := fileCount st + 1;
         allFiles := (allFiles st ++ [normalizedPath])%list |}.

(** The node reached from [n] along the keys [ks]. *)
Fixpoint getNode (ks : list string) (n : TrieNode) : option TrieNode :=
  match ks with
  | [] => Some n
  | k :: rest =>
      match JsMap.get (children n) k with
      | Some child => getNode rest child
      | None => None
      end
  end.

(** [f] applied in place to the node reached along [ks], if any. *)
Fixpoint updateAt (ks : list string) (f : TrieNode -> TrieNode)
         (n : TrieNode) : TrieNode :=
  match ks with
  | [] => f n
  | k :: rest =>
      match n with
      | Node c fs d =>
          match JsMap.get c k with
          | Some child => Node (JsMap.replace c k (updateAt rest f child)) fs d
          | None => n
          end
      end
  end.

Definition nonEmpty (segments : list string) : list string :=
  List.filter (fun s => negb (Js.isEmpty s)) segments.

(** One turn of the pruning loop of [remove], for the index [i]:
    [nodePath[i]] is the node reached along the first [i] non-empty
    segments, and is undefined, so that reading its children throws,
    when there are fewer than [i] of them. *)
Definition pruneAt (segments : list string) (i : nat) (r : TrieNode)
  : option TrieNode :=
  match nth_error segments i with
  | None => Some r
  | Some segment =>
      if Js.isEmpty segment then Some r
      else if Nat.ltb (length (nonEmpty segments)) i then None
      else
        Some (updateAt (firstn i (nonEmpty segments))
                (fun parent =>
                   match JsMap.get (children parent) segment with
                   | Some (Node [] [] _) =>
                       Node (JsMap.delete (children parent) segment)
                            (files parent) (isDirectory parent)
                   | _ => parent
                   end) r)
  end.

(** The loop from the last index down to 0; [None] is the [TypeError]. *)
Fixpoint pruneFrom (segments : list string) (count : nat) (r : TrieNode)
  : option TrieNode :=
  match count with
  | O => Some r
  | S i =>
      match pruneAt segments i r with
      | Some r' => pruneFrom segments i r'
      | None => None
      end
  end.

Inductive Outcome :=
| Returns (st : State)
| Throws (st : State).

Definition remove (st : State) (filePath : string) : Outcome :=
  let normalizedPath := normalizePath filePath in
  if negb (inSet normalizedPath (allFiles st)) then Returns st
  else
    let st1 := {| root := root st; fileCount := fileCount st - 1;
                  allFiles := setDelete (allFiles st) normalizedPath |} in
    let segments := Js.splitChar "/"%char normalizedPath in
    match getNode (nonEmpty segments) (root st) with
    | None => Returns st1
    | Some _ =>
        let r1 := updateAt (nonEmpty segments)
                    (fun n => Node (children n)
                                   (setDelete (files n) normalizedPath)
                                   (isDirectory n))
                    (root st) in
        match pruneFrom segments (length segments) r1 with
        | Some r2 =>
            Returns {| root := r2; fileCount := fileCount st1;
                       allFiles := allFiles st1 |}
        | None =>
            Throws {| root := r1; fileCount := fileCount st1;
                      allFiles := allFiles st1 |}
        end
    end.

Definition has (st : State) (filePath : string) : bool :=
  inSet (normalizePath filePath) (allFiles st).

Definition size (st : State) : Z := fileCount st.

Definition clear (st : State) : State := empty.

(** The trie after [remove], whether the call returned or threw. *)
Definition afterRemove (st : State) (filePath : string) : State :=
  match remove st filePath with
  | Returns st' => st'
  | Throws st' => st'
  end.

(** The calls that change a trie. *)
Inductive Operation :=
| Insert (filePath : string)
| Remove (filePath : string)
| Clear.

Definition perform (st : State) (op : Operation) : State :=
  match op with
  | Insert filePath => insert st filePath
  | Remove filePath => afterRemove st filePath
  | Clear => clear st
  end.

Definition getAllFiles (st : State) : list string := allFiles st.

(** Number of nodes of a tree, the fuel of the traversal. *)
Fixpoint nodeCount (n : TrieNode) : nat :=
  match n with
  | Node c _ _ =>
      S (fold_right (fun kv acc => nodeCount (snd kv) + acc) 0 c)
  end.

(** The queue loop of [collectFiles]. *)
Fixpoint collectLoop (fuel : nat) (queue : list TrieNode)
         (found : list string) : list string :=
  match fuel with
  | O => found
  | S fuel' =>
      match queue with
      | [] => found
      | current :: rest =>
          collectLoop fuel' (rest ++ JsMap.values (children current))%list
                      (found ++ files current)%list
      end
  end.

Definition collectFiles (n : TrieNode) : list string :=
  collectLoop (nodeCount n) [n] [].

Definition matchPrefix (st : State) (prefix : string) : list string :=
  if Js.isEmpty prefix then getAllFiles st
  else
    let normalizedPrefix := normalizePath prefix in
    let segments := nonEmpty (Js.splitChar "/"%char normalizedPrefix) in
    match getNode segments (root st) with
    | None => []
    | Some n => collectFiles n
    end.

Fixpoint includes (c : ascii) (s : string) : bool :=
  match s with
  | EmptyString => false
  | String d t => Ascii.eqb d c || includes c t
  end.

Definition hasWildcard (segment : string) : bool :=
  includes "*"%char segment || includes "?"%char segment
  || includes "["%char segment.

(** The segments before the first one that holds a wildcard. *)
Fixpoint prefixSegments (segments : list string) : list string :=
  match segments with
  | [] => []
  | segment :: rest =>
      if hasWildcard segment then [] else segment :: prefixSegments rest
  end.

Definition extractSimplePrefix (pattern : string) : string :=
  Js.join "/" (prefixSegments (Js.splitChar "/"%char pattern)).

Section WithMinimatch.

(** [minimatch(file, pattern)] of the minimatch package. *)
Variable minimatch : string -> string -> bool.

Definition matchGlob (st : State) (pattern : string) : list string :=
  if Js.isEmpty pattern then getAllFiles st
  else
    let simplePrefix := extractSimplePrefix pattern in
    let candidates :=
      if Js.isEmpty simplePrefix then getAllFiles st
      else matchPrefix st simplePrefix in
    List.filter (fun file => minimatch file pattern) candidates.

(** The full glob matching, applied to the complete file set. *)
Definition globAll (st : State) (pattern : string) : list string :=
  List.filter (fun file => minimatch file pattern) (getAllFiles st).

End WithMinimatch.

End PathTrie.

(** ** SearchResultFilter *)

Module SearchResultFilter.

Section WithMatches.

(** The matches of a result are carried along untouched.  A score is a
    finite number; the comparisons made on scores are exact, so the
    scores are taken in the rationals. *)
Variable Match : Type.

Record SearchResult := mkResult {
  path : string;
  score : Q;
  matches : list Match
}.

Record ProcessOptions := mkProcessOptions {
  minScore : option Q;
  limit : option Z;
  offset : option Z
}.

Variable highQualityThreshold : Q.

Definition filterByMinScore (results : list SearchResult) (min : Q)
  : list SearchResult :=
  if Qle_bool min 0 then results
  else if negb (Qle_bool min 1) then []
  else List.filter (fun result => Qle_bool min (score result)) results.

Definition applyLimit (results : list SearchResult) (lim : Z)
  : list SearchResult :=
  if (lim <=? 0)%Z then [] else firstn (Z.to_nat lim) results.

(** [results.slice(offset, offset + limit)] for whole numbers. *)
Definition applyPagination (results : list SearchResult) (lim off : Z)
  : list SearchResult :=
  if (lim <=? 0)%Z then []
  else
    let off := if (off <? 0)%Z then 0%Z else off in
    firstn (Z.to_nat lim) (skipn (Z.to_nat off) results).

Definition countHighQualityResults (results : list SearchResult)
           (threshold : option Q) : nat :=
  let effectiveThreshold := default highQualityThreshold threshold in
  length (List.filter (fun result => Qle_bool effectiveThreshold (score result))
                      results).

Definition shouldStopEarly (results : list SearchResult) (lim : Z)
           (customThreshold : option Q) : bool :=
  if (lim <=? 0)%Z then false
  else
    let threshold := default highQualityThreshold customThreshold in
    let highQualityCount := countHighQualityResults results (Some threshold) in
    let totalCount := length results in
    (Z.of_nat highQualityCount >=? lim)%Z
    && (Z.of_nat totalCount >=? lim * 2)%Z.

(** One insertion of the stable sort by descending score: the result
    goes in front of the first result whose score is not greater. *)
Fixpoint insertByScore (r : SearchResult) (sorted : list SearchResult)
  : list SearchResult :=
  match sorted with
  | [] => [r]
  | x :: rest =>
      if Qle_bool (score x) (score r) then r :: sorted
      else x :: insertByScore r rest
  end.

(** [[...results].sort((a, b) => b.score - a.score)].  The sort of
    arrays is stable: its result is the one arrangement of the input by
    descending score that keeps the input order among equal scores,
    which insertion from the right computes. *)
Definition sortByScore (results : list SearchResult) : list SearchResult :=
  fold_right insertByScore [] results.

Definition processResults (results : list SearchResult)
           (options : ProcessOptions) : list SearchResult :=
  let processed :=
    match minScore options with
    | Some min =>
        if negb (Qle_bool min 0) then filterByMinScore results min
        else results
    | None => results
    end in
  let processed := sortByScore processed in
  match limit options with
  | Some lim =>
      if (0 <? lim)%Z
      then applyPagination processed lim (default 0%Z (offset options))
      else processed
  | None => processed
  end.

End WithMatches.

Arguments mkResult {Match}.
Arguments path {Match}.
Arguments score {Match}.
Arguments matches {Match}.

End SearchResultFilter.

(** ** MatchExtractor *)

Module MatchExtractor.

Record MatchExtractorConfig := mkConfig {
  contextLines : Z;
  maxSnippetLength : Z;
  highlightStart : string;
  highlightEnd : string
}.

Definition DEFAULT_CONFIG : MatchExtractorConfig :=
  {| contextLines := 2; maxSnippetLength := 200;
     highlightStart := "**"; highlightEnd := "**" |}.

(** A match as [extractMatches] builds it, with its four properties. *)
Record Match := mkMatch {
  line : Z;
  context : string;
  snippet : string;
  column : Z
}.

(** [s.slice(start, end)]: a negative index counts from the end, every
    index is brought into the string. *)
Definition slice (s : string) (start stop : Z) : string :=
  let len := Z.of_nat (String.length s) in
  let from := if (start <? 0)%Z then Z.max (len + start) 0
              else Z.min start len in
  let to := if (stop <? 0)%Z then Z.max (len + stop) 0
            else Z.min stop len in
  String.substring (Z.to_nat from) (Z.to_nat (to - from)) s.

(** [queryRegex.exec(text)] from index 0.  The pattern is the query with
    its special characters escaped, compiled with the flag [i]; on code
    units below 256 a match of it is an occurrence of the lower-cased
    query in the lower-cased text. *)
Definition firstIndex (text query : string) : option nat :=
  Js.indexOf (Js.toLowerCase text) (Js.toLowerCase query) 0.

Section WithConfig.

Variable config : MatchExtractorConfig.

(** The indices [start], ..., [stop]. *)
Definition indexRange (start stop : Z) : list Z :=
  List.map (fun k => (start + Z.of_nat k)%Z)
           (seq 0 (Z.to_nat (stop - start + 1))).

Definition extractContext (lines : list string) (matchIndex : Z)
           (contextLines : Z) : string :=
  let len := Z.of_nat (length lines) in
  if (len =? 0)%Z || (matchIndex <? 0)%Z || (matchIndex >=? len)%Z
  then EmptyString
  else
    let start := Z.max 0 (matchIndex - contextLines) in
    let stop := Z.min (len - 1) (matchIndex + contextLines) in
    Js.join "
" (List.map (fun i =>
                 ((if (i =? matchIndex)%Z then "> " else "  ")
                  ++ nth (Z.to_nat i) lines EmptyString)%string)
              (indexRange start stop)).

(** [text.replace(queryRegex, highlightStart + '$&' + highlightEnd)] for
    markers free of [$]: every occurrence found from left to right, each
    search resuming behind the last hit, is wrapped in the markers.
    [query] is the lower-cased query, [inside] the number of characters
    of the current hit still to be copied. *)
Fixpoint highlightFrom (query text : string) (inside : nat) : string :=
  match text with
  | EmptyString => EmptyString
  | String c t =>
      match inside with
      | S k =>
          String c ((if Nat.eqb k 0 then highlightEnd config else EmptyString)
                    ++ highlightFrom query t k)
      | O =>
          if String.prefix query (Js.toLowerCase text) then
            let k := String.length query - 1 in
            highlightStart config
            ++ String c ((if Nat.eqb k 0 then highlightEnd config
                          else EmptyString)
                         ++ highlightFrom query t k)
          else String c (highlightFrom query t 0)
      end
  end.

Definition truncateSnippet (highlighted : string) : string :=
  let len := Z.of_nat (String.length highlighted) in
  let max := maxSnippetLength config in
  if (len <=? max)%Z then highlighted
  else
    match Js.indexOf highlighted (highlightStart config) 0 with
    | Some (S p) =>
        let highlightPos := Z.of_nat (S p) in
        let halfLength := (max / 2)%Z in
        let start := Z.max 0 (highlightPos - halfLength) in
        let stop := Z.min len (start + max) in
        let truncated := slice highlighted start stop in
        let truncated := if (0 <? start)%Z then "..." ++ truncated
                         else truncated in
        if (stop <? len)%Z then truncated ++ "..." else truncated
    | _ => slice highlighted 0 max ++ "..."
    end.

(** [highlightMatchWithRegex(line, queryRegex)] for the regular
    expression of a non-empty [query]. *)
Definition highlightMatchWithRegex (text query : string) : string :=
  if Js.isEmpty text then EmptyString
  else truncateSnippet (highlightFrom (Js.toLowerCase query) text 0).

Definition highlightMatch (text query : string) : string :=
  if Js.isEmpty text || Js.isEmpty query then text
  else highlightMatchWithRegex text query.

Definition findColumnPosition (text query : string) : Z :=
  if Js.isEmpty text || Js.isEmpty query then (-1)%Z
  else match firstIndex text query with
       | Some p => Z.of_nat p
       | None => (-1)%Z
       end.

(** The [forEach] over the lines, from the line of index [index] on. *)
Fixpoint scanLines (lines : list string) (query : string)
         (effectiveContextLines : Z) (index : nat) (rest : list string)
  : list Match :=
  match rest with
  | [] => []
  | text :: rest' =>
      let later :=
        scanLines lines query effectiveContextLines (S index) rest' in
      match firstIndex text query with
      | Some p =>
          {| line := Z.of_nat index + 1;
             context := extractContext lines (Z.of_nat index)
                                       effectiveContextLines;
             snippet := highlightMatchWithRegex text query;
             column := Z.of_nat p |} :: later
      | None => later
      end
  end.

Definition extractMatches (content query : string)
           (contextOverride : option Z) : list Match :=
  if Js.isEmpty content || Js.isEmpty query then []
  else
    let effectiveContextLines :=
      default (contextLines config) contextOverride in
    let lines := Js.splitChar "010"%char content in
    scanLines lines query effectiveContextLines 0 lines.

End WithConfig.

(** What the scorer reads of a match. *)
Definition forScorer (m : Match) : SearchScorer.Match :=
  SearchScorer.mkMatch (line m).

End MatchExtractor.

(** ** FileSystemService: the per-file step of a search, and the
    watcher callback *)

Module FileSystemService.

(** [s.replace(/^#/, '')]. *)
Definition stripHash (s : string) : string :=
  match s with
  | String "#"%char t => t
  | _ => s
  end.

(** A file tag satisfies a required tag when it is that tag or lies
    below it. *)
Definition tagMatches (required tag : string) : bool :=
  String.eqb tag required || Js.startsWith tag (required ++ "/").

(** The tag filter of [searchVaultWithOptions]. *)
Definition hasAllTags (allTags tags : list string) : bool :=
  let normalizedRequired :=
    List.map (fun t => stripHash (Js.toLowerCase t)) tags in
  forallb (fun required => existsb (tagMatches required) allTags)
          normalizedRequired.

Record SearchResult := mkResult {
  path : string;
  score : R;
  matches : list MatchExtractor.Match
}.

(** What the step makes of one file: no result, a result, or no answer
    when the scorer does not return. *)
Inductive FileOutcome :=
| Skipped
| Found (result : SearchResult)
| NoAnswer.

Section WithServices.

Variable Unknown : Type.
Variable config : MatchExtractor.MatchExtractorConfig.
Variable weights : SearchScorer.ScoringWeights.

(** The callback that [searchVaultWithOptions] maps over a batch, for
    one file with its content and cached metadata.  [frontmatterFilter]
    tells whether a non-empty front-matter filter was given and
    [frontmatterMatches] whether the front matter of the file passes it;
    the comparison of the values is the platform's. *)
Definition searchFile (query : option string) (tags : option (list string))
           (frontmatterFilter frontmatterMatches : bool)
           (file content : string)
           (metadata : option (ContentCache.ContentMetadata Unknown))
  : FileOutcome :=
  let tagsPass :=
    match tags with
    | Some (t :: ts) =>
        let allTags :=
          match metadata with
          | Some md => ContentCache.allTags md
          | None => []
          end in
        hasAllTags allTags (t :: ts)
    | _ => true
    end in
  if negb tagsPass then Skipped
  else if frontmatterFilter && negb frontmatterMatches then Skipped
  else
    match query with
    | Some (String c q) =>
        let query := String c q in
        let found := MatchExtractor.extractMatches config content query None in
        if Nat.ltb 0 (length found) then
          match SearchScorer.calculateScore
                  weights (List.map MatchExtractor.forScorer found)
                  content query with
          | Some s => Found {| path := file; score := s; matches := found |}
          | None => NoAnswer
          end
        else Skipped
    | _ => Found {| path := file; score := 1; matches := [] |}
    end.

(** The services the watcher callback touches. *)
Record Services := mkServices {
  fileListCache : FileListCache.State;
  searchResultCache : SearchResultCache.State SearchResult;
  contentCache : ContentCache.State Unknown;
  invertedIndex : option InvertedIndex.State;
  pathTrie : option PathTrie.State
}.

(** The callback returned, or [pathTrie.remove] threw out of it. *)
Inductive CallbackOutcome :=
| Done (services : Services)
| Raised (services : Services).

Definition servicesOf (o : CallbackOutcome) : Services :=
  match o with Done s => s | Raised s => s end.

(** The callback given to [fileWatcher.start]. *)
Definition onFileChange (sv : Services)
           (eventType : FileWatcher.FileChangeEventType) (filePath : string)
  : CallbackOutcome :=
  match eventType with
  | FileWatcher.add =>
      Done {| fileListCache := FileListCache.invalidate (fileListCache sv) None;
              searchResultCache :=
                SearchResultCache.invalidate _ (searchResultCache sv);
              contentCache := contentCache sv;
              invertedIndex := invertedIndex sv;
              pathTrie := (fun trie => PathTrie.insert trie filePath)
                            <$> pathTrie sv |}
  | FileWatcher.unlink =>
      let sv1 trie :=
        {| fileListCache := FileListCache.invalidate (fileListCache sv) None;
           searchResultCache :=
             SearchResultCache.invalidate _ (searchResultCache sv);
           contentCache :=
             ContentCache.invalidate _ (contentCache sv) filePath;
           invertedIndex :=
             (fun index => InvertedIndex.invalidate index filePath)
               <$> invertedIndex sv;
           pathTrie := trie |} in
      match pathTrie sv with
      | None => Done (sv1 None)
      | Some trie =>
          match PathTrie.remove trie filePath with
          | PathTrie.Returns trie' => Done (sv1 (Some trie'))
          | PathTrie.Throws trie' => Raised (sv1 (Some trie'))
          end
      end
  | FileWatcher.addDir | FileWatcher.unlinkDir =>
      Done {| fileListCache := FileListCache.invalidate (fileListCache sv) None;
              searchResultCache :=
                SearchResultCache.invalidate _ (searchResultCache sv);
              contentCache := contentCache sv;
              invertedIndex := invertedIndex sv;
              pathTrie := pathTrie sv |}
  | FileWatcher.change =>
      Done {| fileListCache := fileListCache sv;
              searchResultCache :=
                SearchResultCache.invalidate _ (searchResultCache sv);
              contentCache :=
                ContentCache.invalidate _ (contentCache sv) filePath;
              invertedIndex :=
                (fun index => InvertedIndex.invalidate index filePath)
                  <$> invertedIndex sv;
              pathTrie := pathTrie sv |}
  end.

End WithServices.

End FileSystemService.

(* ================================================================== *)
(** * Part II: properties *)
(* ================================================================== *)

(** ** Facts on the string primitives *)

Module JsFacts.
Import Js.

Lemma isEmpty_true (s : string) : isEmpty s = true <-> s = EmptyString.
Proof. destruct s; simpl; split; congruence. Qed.

Lemma isEmpty_false (s : string) : isEmpty s = false <-> s <> EmptyString.
Proof. destruct s; simpl; split; congruence. Qed.

Lemma drop_empty (n : nat) : drop n EmptyString = EmptyString.
Proof. destruct n; reflexivity. Qed.

Lemma drop_drop (a b : nat) (s : string) :
  drop a (drop b s) = drop (b + a) s.
Proof.
  revert s; induction b as [|b IH]; intros s; simpl; [reflexivity|].
  destruct s; [apply drop_empty | apply IH].
Qed.

Lemma length_drop (n : nat) (s : string) :
  String.length (drop n s) = String.length s - n.
Proof.
  revert s; induction n as [|n IH]; intros s; simpl; [lia|].
  destruct s; simpl; [reflexivity | apply IH].
Qed.

Lemma prefix_length (p s : string) :
  String.prefix p s = true -> String.length p <= String.length s.
Proof.
  revert s; induction p as [|c p IH]; intros s H; simpl; [lia|].
  destruct s as [|d s]; simpl in H; [discriminate|].
  destruct (ascii_dec c d); [|discriminate].
  simpl; apply IH in H; lia.
Qed.

Lemma splitChar_nonempty (d : ascii) (s : string) : splitChar d s <> [].
Proof.
  destruct s as [|c t]; simpl; [discriminate|].
  destruct (Ascii.eqb c d); [discriminate|].
  destruct (splitChar d t); discriminate.
Qed.

End JsFacts.

(** ** SearchScorer: the score is the documented formula *)

Module SearchScorerFacts.
Import Js JsFacts SearchScorer.

Lemma scan_skip (term : string) (k : nat) (t : string) :
  scan term t k = scan term (drop k t) 0.
Proof.
  revert t; induction k as [|k IH]; intros t; [reflexivity|].
  destruct t as [|c t]; simpl; [reflexivity | apply IH].
Qed.

(** What [indexOf] finds is the first hit of the scan. *)
Lemma indexOfAux_scan (term : string) (Hterm : term <> EmptyString) :
  forall (text : string) (i : nat),
    match indexOfAux term text i with
    | None => scan term text 0 = 0
    | Some p =>
        i <= p /\ p + String.length term <= i + String.length text /\
        scan term text 0 =
          S (scan term (drop (p - i + String.length term) text) 0)
    end.
Proof.
  induction text as [|c t IH]; intros i.
  - destruct term as [|a term]; [congruence|]. reflexivity.
  - cbn [indexOfAux].
    destruct (String.prefix term (String c t)) eqn:Hp.
    + split; [lia|]. split.
      * apply prefix_length in Hp. lia.
      * cbn [scan]. rewrite Hp, scan_skip. f_equal. f_equal.
        replace (i - i + String.length term) with (String.length term) by lia.
        destruct term as [|a term]; [congruence|].
        simpl. now rewrite Nat.sub_0_r.
    + specialize (IH (S i)).
      destruct (indexOfAux term t (S i)) as [p|].
      * destruct IH as (Hle & Hlen & Hscan).
        split; [lia|]. split; [simpl; lia|].
        cbn [scan]. rewrite Hp, Hscan. f_equal. f_equal.
        replace (p - i + String.length term)
          with (S (p - S i + String.length term)) by lia.
        reflexivity.
      * cbn [scan]. now rewrite Hp.
Qed.

Lemma countLoop_scan (term : string) (Hterm : term <> EmptyString)
      (text : string) :
  forall (fuel count pos : nat),
    pos <= String.length text ->
    String.length text - pos < fuel ->
    countLoop fuel text term count pos
    = Some (count + scan term (drop pos text) 0).
Proof.
  induction fuel as [|fuel IH]; intros count pos Hpos Hfuel; [lia|].
  cbn [countLoop]. unfold indexOf.
  rewrite Nat.min_l by exact Hpos.
  pose proof (indexOfAux_scan term Hterm (drop pos text) pos) as H.
  destruct (indexOfAux term (drop pos text) pos) as [p|].
  - destruct H as (Hle & Hlen & Hscan).
    rewrite length_drop in Hlen.
    assert (0 < String.length term)
      by (destruct term; [congruence | simpl; lia]).
    rewrite IH by lia.
    rewrite Hscan, drop_drop. f_equal.
    replace (pos + (p - pos + String.length term))
      with (p + String.length term) by lia.
    lia.
  - rewrite H. f_equal. lia.
Qed.

(** The loop of [countOccurrences] returns, and returns the number of
    non-overlapping occurrences. *)
Lemma countOccurrences_scan (text term : string) :
  text <> EmptyString -> term <> EmptyString ->
  countOccurrences text term = Some (scan term text 0).
Proof.
  intros Htext Hterm. unfold countOccurrences.
  apply isEmpty_false in Htext as ->.
  pose proof Hterm as Hterm'. apply isEmpty_false in Hterm' as ->.
  cbn [orb]. rewrite (countLoop_scan term Hterm) by lia. reflexivity.
Qed.

Lemma toLowerCase_nonempty (s : string) :
  s <> EmptyString -> toLowerCase s <> EmptyString.
Proof. destruct s; simpl; congruence. Qed.

Lemma splitRuns_words (s : string) :
  forall (inRun : bool) (cur : string),
    (inRun = true -> cur = EmptyString) ->
    length (List.filter (fun w => negb (isEmpty w))
                        (splitRuns isWhiteSpace inRun cur s))
    = wordRuns (negb (isEmpty cur)) s + (if isEmpty cur then 0 else 1).
Proof.
  induction s as [|c t IH]; intros inRun cur Hinv.
  - simpl. destruct cur; reflexivity.
  - cbn [splitRuns wordRuns].
    destruct (isWhiteSpace c) eqn:Hc.
    + destruct inRun.
      * rewrite (Hinv eq_refl). rewrite IH by reflexivity. reflexivity.
      * cbn [List.filter]. destruct cur as [|a cur]; cbn [isEmpty negb].
        -- rewrite IH by reflexivity. reflexivity.
        -- cbn [length]. rewrite IH by reflexivity. simpl. lia.
    + rewrite IH by discriminate.
      assert (isEmpty (cur ++ String c EmptyString) = false) as ->
          by (destruct cur; reflexivity).
      destruct cur; cbn [isEmpty negb]; lia.
Qed.

Lemma countWords_totalWords (content : string) :
  countWords content = totalWords content.
Proof.
  unfold countWords, totalWords, splitRe.
  destruct content as [|c t]; [reflexivity|].
  cbn [isEmpty]. rewrite splitRuns_words by discriminate.
  cbn [isEmpty negb]. lia.
Qed.

Lemma splitChar_lines (s : string) :
  length (splitChar "010"%char s) = totalLinesOf s.
Proof.
  unfold totalLinesOf. induction s as [|c t IH]; [reflexivity|].
  cbn [splitChar newlines].
  destruct (Ascii.eqb c "010"%char); cbn [length]; [now rewrite IH|].
  pose proof (splitChar_nonempty "010"%char t).
  destruct (splitChar "010"%char t); [congruence|].
  cbn [length] in *. lia.
Qed.

Local Open Scope R_scope.

Lemma TF_zero : TF 0 = 0.
Proof.
  unfold TF. replace (1 + 100 * 0) with 1 by ring.
  rewrite ln_1. unfold Rdiv. rewrite Rmult_0_l.
  apply Rmin_right. lra.
Qed.

Lemma calculateTermFrequency_formula (content query : string) :
  content <> EmptyString -> query <> EmptyString ->
  calculateTermFrequency content query
  = Some (if Nat.eqb (totalWords content) 0 then 0
          else TF (INR (occurrences query content)
                   / INR (totalWords content))).
Proof.
  intros Hc Hq. unfold calculateTermFrequency.
  pose proof Hc as Hc'. apply isEmpty_false in Hc' as ->.
  pose proof Hq as Hq'. apply isEmpty_false in Hq' as ->.
  cbn [orb].
  rewrite countOccurrences_scan by now apply toLowerCase_nonempty.
  rewrite countWords_totalWords.
  destruct (Nat.eqb (totalWords content) 0); [reflexivity|].
  unfold TF, log1p, occurrences. do 2 f_equal.
  f_equal; f_equal; ring.
Qed.

Lemma calculatePositionBonus_formula (matches : list Match) (n : nat) :
  matches <> [] -> n <> O ->
  calculatePositionBonus matches n = Position (firstMatchLine matches) n.
Proof.
  intros Hm Hn. unfold calculatePositionBonus, Position.
  destruct matches as [|m ms]; [congruence|].
  destruct n as [|n]; [congruence|].
  cbn [length Nat.eqb orb]. f_equal.
  rewrite minus_IZR. unfold Rdiv. ring.
Qed.

Lemma calculateDensityBonus_formula (matches : list Match) (n : nat) :
  matches <> [] -> n <> O ->
  calculateDensityBonus matches n = Density (length matches) n.
Proof.
  intros Hm Hn. unfold calculateDensityBonus, Density, log1p.
  destruct matches as [|m ms]; [congruence|].
  destruct n as [|n]; [congruence|].
  cbn [length Nat.eqb orb]. f_equal.
  f_equal; f_equal; unfold Rdiv; ring.
Qed.

(** The score on proper inputs, with the guard on wordless content
    spelled out. *)
Lemma calculateScore_nondegenerate (matches : list Match)
      (content query : string) :
  matches <> [] -> content <> EmptyString -> query <> EmptyString ->
  calculateScore DEFAULT_WEIGHTS matches content query
  = Some (scoreFormula
            (if Nat.eqb (totalWords content) 0 then 0
             else INR (occurrences query content)
                  / INR (totalWords content))
            matches content).
Proof.
  intros Hm Hc Hq. unfold calculateScore.
  pose proof Hc as Hc'. apply isEmpty_false in Hc' as ->.
  pose proof Hq as Hq'. apply isEmpty_false in Hq' as ->.
  destruct matches as [|m ms] eqn:Em; [congruence|].
  cbn [length Nat.eqb orb]. rewrite <- Em in *.
  rewrite calculateTermFrequency_formula by assumption.
  rewrite splitChar_lines.
  rewrite calculatePositionBonus_formula,
          calculateDensityBonus_formula by (assumption || discriminate).
  unfold scoreFormula, clamp01. cbn [termFrequency position density
                                     DEFAULT_WEIGHTS].
  do 3 f_equal.
  destruct (Nat.eqb (totalWords content) 0); [rewrite TF_zero|]; ring.
Qed.

Lemma calculateScore_degenerate (w : ScoringWeights)
      (matches : list Match) (content query : string) :
  matches = [] \/ content = EmptyString \/ query = EmptyString ->
  calculateScore w matches content query = Some 0.
Proof.
  intros [-> | [-> | ->]]; unfold calculateScore; cbn.
  - reflexivity.
  - now rewrite orb_true_r.
  - now rewrite !orb_true_r.
Qed.

(** C1 (as amended).  With the default weights, on a non-empty match
    list, a non-empty content and a non-empty query, [calculateScore]
    returns [0.4*TF + 0.3*Position + 0.3*Density] clamped to [0,1],
    where, when the content has at least one whitespace-delimited word,
    [TF = min(1, ln(1 + 100*rawTf) / ln 101)] at [rawTf] the number of
    non-overlapping case-insensitive occurrences of the query divided
    by the word count, and, when the content has no word, [TF = 0];
    Position and Density are as documented; the score is exactly 0 when
    the match list, the content or the query is empty. *)
Theorem calculateScore_formula (matches : list Match)
        (content query : string) :
  (matches <> [] -> content <> EmptyString -> query <> EmptyString ->
   totalWords content <> O ->
   calculateScore DEFAULT_WEIGHTS matches content query
   = Some (scoreFormula (INR (occurrences query content)
                         / INR (totalWords content)) matches content))
  /\ (matches <> [] -> content <> EmptyString -> query <> EmptyString ->
      totalWords content = O ->
      calculateScore DEFAULT_WEIGHTS matches content query
      = Some (clamp01
                (4 / 10 * 0
                 + 3 / 10 * Position (firstMatchLine matches)
                                     (totalLinesOf content)
                 + 3 / 10 * Density (length matches)
                                    (totalLinesOf content))))
  /\ (matches = [] \/ content = EmptyString \/ query = EmptyString ->
      calculateScore DEFAULT_WEIGHTS matches content query = Some 0).
Proof.
  split; [|split].
  - intros Hm Hc Hq Hw.
    rewrite calculateScore_nondegenerate by assumption.
    apply Nat.eqb_neq in Hw. now rewrite Hw.
  - intros Hm Hc Hq Hw.
    rewrite calculateScore_nondegenerate by assumption.
    rewrite Hw. cbn [Nat.eqb]. unfold scoreFormula.
    now rewrite TF_zero.
  - apply calculateScore_degenerate.
Qed.

Lemma calculateScore_formula_witness :
  calculateScore DEFAULT_WEIGHTS [mkMatch 1] "hello world hello" "Hello"
  = Some (scoreFormula (INR 2 / INR 3) [mkMatch 1] "hello world hello").
Proof.
  apply (proj1 (calculateScore_formula
                  [mkMatch 1] "hello world hello" "Hello"));
    discriminate.
Defined.

Lemma Density_full : Density 1 1 = 1.
Proof.
  unfold Density. cbn [INR].
  replace (1 + 100 * 1 / 1) with 101 by field.
  apply Rmin_left.
  assert (0 < ln 51)
    by (rewrite <- ln_1; apply ln_increasing; lra).
  assert (ln 51 < ln 101) by (apply ln_increasing; lra).
  apply Rmult_le_reg_r with (ln 51); [assumption|].
  unfold Rdiv. rewrite Rmult_assoc, Rinv_l by lra. lra.
Qed.

Lemma Position_first : Position 1 1 = 1.
Proof.
  unfold Position. cbn [INR].
  replace (-3 * (1 - 1) / 1) with 0 by field.
  apply exp_0.
Qed.

(** C1, counterexample.  On the content [" "] (one blank, no word),
    the query [" "] and one match on line 1, the query occurs once and
    the word count is 0: no quotient of the two exists, and the code,
    by its guard on [totalWords === 0], scores 0.6 (the quotient taken
    in double precision is +Infinity, for which the formula gives 1). *)
Lemma calculateScore_blank_content :
  calculateScore DEFAULT_WEIGHTS [mkMatch 1] " " " " = Some (3 / 5)
  /\ ~ claimedScore [mkMatch 1] " " " " (3 / 5).
Proof.
  split.
  - rewrite calculateScore_nondegenerate by discriminate.
    assert (Nat.eqb (totalWords " ") 0 = true) as -> by reflexivity.
    unfold scoreFormula. rewrite TF_zero.
    change (firstMatchLine [mkMatch 1]) with 1%Z.
    change (totalLinesOf " ") with 1%nat.
    change (length [mkMatch 1]) with 1%nat.
    rewrite Position_first, Density_full.
    unfold clamp01. rewrite Rmax_right by lra.
    rewrite Rmin_right by lra. f_equal. field.
  - intros (q & Hq & _).
    change (totalWords " ") with O in Hq.
    change (occurrences " " " ") with 1%nat in Hq.
    cbn [INR] in Hq. lra.
Qed.

End SearchScorerFacts.

(** ** Facts on the insertion-ordered map *)

Module JsMapFacts.
Import JsMap.

Lemma get_app {V} (m1 m2 : t V) (k : string) :
  get (m1 ++ m2)%list k
  = match get m1 k with Some v => Some v | None => get m2 k end.
Proof.
  unfold get. induction m1 as [|[k' v'] m1 IH]; simpl; [reflexivity|].
  destruct (String.eqb k' k); [reflexivity | exact IH].
Qed.

Lemma get_replace_eq {V} (m : t V) (k : string) (v : V) :
  has m k = true -> get (replace m k v) k = Some v.
Proof.
  unfold has, get. induction m as [|[k' v'] m IH]; simpl; [discriminate|].
  destruct (String.eqb k' k) eqn:E; simpl; rewrite E; [reflexivity|].
  exact IH.
Qed.

Lemma get_set_eq {V} (m : t V) (k : string) (v : V) :
  get (set m k v) k = Some v.
Proof.
  unfold set. destruct (has m k) eqn:E.
  - now apply get_replace_eq.
  - rewrite get_app. unfold has in E.
    destruct (get m k); [discriminate|].
    unfold get. simpl. now rewrite String.eqb_refl.
Qed.

Lemma get_delete_eq {V} (m : t V) (k : string) : get (delete m k) k = None.
Proof.
  unfold get, delete. induction m as [|[k' v'] m IH]; simpl; [reflexivity|].
  destruct (String.eqb k' k) eqn:E; simpl; [exact IH|].
  rewrite E. exact IH.
Qed.

Lemma has_delete_eq {V} (m : t V) (k : string) : has (delete m k) k = false.
Proof. unfold has. now rewrite get_delete_eq. Qed.

Lemma size_delete_le {V} (m : t V) (k : string) :
  size (delete m k) <= size m.
Proof.
  unfold size, delete. induction m as [|[k' v'] m IH]; simpl; [lia|].
  destruct (String.eqb k' k); simpl; lia.
Qed.



(** With a positive capacity the eviction loop comes to an end. *)
Lemma evictOldest_returns {V} (maxSize : Z) :
  (0 < maxSize)%Z ->
  forall (fuel : nat) (m : t V),
    size m <= fuel -> is_Some (evictOldest maxSize fuel m).
Proof.
  intros Hmax. induction fuel as [|fuel IH]; intros m Hsize.
  - destruct m; [|simpl in Hsize; lia].
    cbn [evictOldest size length]. rewrite Z.geb_leb.
    destruct (Z.leb_spec maxSize (Z.of_nat 0)); [lia | eauto].
  - cbn [evictOldest].
    destruct (Z.of_nat (size m) >=? maxSize)%Z eqn:E; [|eauto].
    rewrite Z.geb_leb in E. apply Z.leb_le in E.
    destruct m as [|[k v] m]; [simpl in E; lia|].
    cbn [keys List.map fst]. apply IH.
    cbn [delete List.filter fst]. rewrite String.eqb_refl. cbn [negb].
    pose proof (size_delete_le m k). unfold delete in *.
    simpl in Hsize. lia.
Qed.

End JsMapFacts.

(** ** SearchResultCache: the key and the corrupt blob *)

Module SearchResultCacheFacts.
Import SearchResultCache.

Section Key.
Context {number Frontmatter : Type}.
Variable numberToString : number -> string.
Variable jsonStringify : Frontmatter -> string.

Local Abbreviation key := (generateKey number numberToString Frontmatter jsonStringify).
Local Abbreviation read := (readOptions number Frontmatter).

(** The first property a selector accepts does not depend on the
    order of a property list in which every name occurs once. *)
Lemma firstOf_Permutation {A} (sel : Property number Frontmatter -> option A)
      (name : string) :
  (forall p, is_Some (sel p) -> propertyName _ _ p = name) ->
  forall ps ps',
    Permutation ps ps' ->
    List.NoDup (List.map (propertyName _ _) ps) ->
    firstOf _ _ sel ps = firstOf _ _ sel ps'.
Proof.
  intros Hname ps ps' Hperm.
  induction Hperm as [|x l l' Hp IH|x y l|l l' l'' H1 IH1 H2 IH2];
    intros Hnd.
  - reflexivity.
  - simpl. inversion Hnd; subst. now rewrite IH.
  - simpl. destruct (sel x) eqn:Ex, (sel y) eqn:Ey; try reflexivity.
    exfalso. inversion Hnd as [|? ? Hnotin _]; subst.
    apply Hnotin. left.
    rewrite (Hname x), (Hname y); eauto.
  - rewrite IH1 by assumption. apply IH2.
    eapply Permutation_NoDup; [|exact Hnd].
    now apply Permutation_map.
Qed.

(** The options read from an object do not depend on the order in
    which its properties were created; hence neither does the key. *)
Lemma readOptions_Permutation (ps ps' : list (Property number Frontmatter)) :
  Permutation ps ps' ->
  List.NoDup (List.map (propertyName _ _) ps) ->
  read ps = read ps'.
Proof.
  intros Hperm Hnd. unfold readOptions.
  f_equal;
    match goal with
    | |- firstOf _ _ ?sel _ = _ =>
        eapply (firstOf_Permutation sel); eauto;
        intros [] [? ?]; (discriminate || (cbn; reflexivity))
    end.
Qed.

Lemma generateKey_order_independent
      (ps ps' : list (Property number Frontmatter)) :
  Permutation ps ps' ->
  List.NoDup (List.map (propertyName _ _) ps) ->
  key (read ps) = key (read ps').
Proof. intros Hperm Hnd. now rewrite (readOptions_Permutation ps ps'). Qed.

(** C2.  The key is not injective: a search for the text
    ["meeting|g:notes/*.md"] and a search for the text ["meeting"]
    restricted to the glob ["notes/*.md"] are different option
    records with the same key; so are the tag filters [["a,b"]] and
    [["a"; "b"]]. *)
Theorem generateKey_collision :
  let o1 := mkOptions (Some "meeting|g:notes/*.md") None None
                      None None None None None in
  let o2 := mkOptions (Some "meeting") (Some "notes/*.md") None
                      None None None None None in
  let t1 := mkOptions None None None None None None (Some ["a,b"]) None in
  let t2 := mkOptions None None None None None None (Some ["a"; "b"]) None in
  (o1 <> o2
 /\ generateKey number numberToString Frontmatter jsonStringify o1
    = generateKey number numberToString Frontmatter jsonStringify o2)
/\ (t1 <> t2
    /\ generateKey number numberToString Frontmatter jsonStringify t1
       = generateKey number numberToString Frontmatter jsonStringify t2).
Proof.
  cbv zeta. repeat split; (discriminate || reflexivity).
Qed.

End Key.

Section Get.
Context {number Frontmatter SearchResult : Type}.
Variable numberToString : number -> string.
Variable jsonStringify : Frontmatter -> string.
Variable inflateParse : string -> Decoded SearchResult.
Variable options : SearchResultCacheOptions.

Local Abbreviation key := (generateKey number numberToString Frontmatter jsonStringify).
Local Abbreviation get :=
  (get number numberToString Frontmatter jsonStringify SearchResult
       inflateParse options).

Lemma maybeDecompress_undecodable (e : SearchCacheEntry SearchResult)
      (b : string) :
  isCompressed e = true -> results e = Blob b -> inflateParse b = Threw ->
  maybeDecompress SearchResult inflateParse e = ResultList [].
Proof.
  intros Hc Hr Hb. unfold maybeDecompress. now rewrite Hr, Hc, Hb.
Qed.

Lemma setInMemory_returns (m : JsMap.t (SearchCacheEntry SearchResult))
      (k : string) (e : SearchCacheEntry SearchResult) :
  (0 < maxSize options)%Z ->
  is_Some (setInMemory SearchResult options m k e).
Proof.
  intros Hmax. unfold setInMemory.
  destruct (JsMapFacts.evictOldest_returns (maxSize options) Hmax
              (S (JsMap.size (if JsMap.has m k then JsMap.delete m k else m)))
              (if JsMap.has m k then JsMap.delete m k else m))
    as [m2 ->]; [lia | eauto].
Qed.

(** A key that is in neither layer is a miss: [get] returns [null]. *)
Lemma get_never_stored (now : Z) (st : State SearchResult)
      (opts : SearchOptions number Frontmatter) :
  JsMap.get (cache st) (key opts) = None ->
  (forall db, persistentCache st = Some db ->
              PersistentCache.get db (key opts) = None) ->
  exists st', get now st opts = Some (st', Null).
Proof.
  intros Hmem Hdb. unfold SearchResultCache.get. rewrite Hmem.
  destruct (persistentCache st) as [db|]; [|eauto].
  specialize (Hdb db eq_refl).
  unfold PersistentCache.getWithTtl, PersistentCache.get in *.
  destruct db as [rows|]; [|eauto].
  destruct (rows !! key opts); [discriminate | eauto].
Qed.

(** C3.  For an unexpired entry flagged as compressed whose blob
    cannot be inflated and parsed, [get] raises nothing but does not
    answer [null] either: it answers the empty result list, both when
    the entry is found in memory and when it is found in the
    persistent partition; [null] is what a key stored in neither layer
    gets. *)
Theorem get_undecodable_blob (now : Z) (st : State SearchResult)
        (opts : SearchOptions number Frontmatter)
        (e : SearchCacheEntry SearchResult) (b : string) :
  isCompressed e = true -> results e = Blob b -> inflateParse b = Threw ->
  (now - timestamp e <= ttl options)%Z ->
  (JsMap.get (cache st) (generateKey number numberToString Frontmatter
                                     jsonStringify opts) = Some e ->
   exists st', get now st opts = Some (st', Results []))
  /\ (JsMap.get (cache st) (key opts) = None ->
      (0 < maxSize options)%Z ->
      forall rows stamp,
        persistentCache st = Some (Some rows) ->
        rows !! key opts = Some (PersistentCache.mkEntry e stamp None) ->
        (now - stamp <= ttl options)%Z ->
        exists st', get now st opts = Some (st', Results []))
  /\ (JsMap.get (cache st) (key opts) = None ->
      (forall db, persistentCache st = Some db ->
                  PersistentCache.get db (key opts) = None) ->
      exists st', get now st opts = Some (st', Null)).
Proof.
  intros Hc Hr Hb Hfresh. split; [|split].
  - intros Hmem. unfold SearchResultCache.get. rewrite Hmem.
    destruct (Z.gtb_spec (now - timestamp e) (ttl options)); [lia|].
    rewrite (maybeDecompress_undecodable e b) by assumption.
    eauto.
  - intros Hmem Hmax rows stamp Hdb Hrow Hstamp.
    unfold SearchResultCache.get. rewrite Hmem, Hdb.
    unfold PersistentCache.getWithTtl. rewrite Hrow.
    cbn [PersistentCache.timestamp PersistentCache.data].
    destruct (Z.gtb_spec (now - stamp) (ttl options)); [lia|].
    destruct (setInMemory_returns (cache st) (key opts) e Hmax) as [m ->].
    rewrite (maybeDecompress_undecodable e b) by assumption.
    eauto.
  - apply get_never_stored.
Qed.

End Get.

Lemma get_undecodable_blob_witness :
  let opts := mkOptions (number := Z) (Frontmatter := unit)
                (Some "meeting") None None None None None None None in
  let e := mkSearchEntry (SearchResult := string) (Blob "AAAA") 1000 true (Some 200000%Z) in
  let st := mkState [("q:meeting", e)] None in
  exists st',
    get Z (fun _ => "") unit (fun _ => "") string (fun _ => Threw)
        (mkCacheOptions 50 30000 true 100000) 1500 st opts
    = Some (st', Results []).
Proof.
  cbv zeta.
  apply (proj1 (get_undecodable_blob
                  (fun _ : Z => "") (fun _ : unit => "")
                  (fun _ => Threw) (mkCacheOptions 50 30000 true 100000)
                  1500 (mkState [("q:meeting", _)] None)
                  (mkOptions (Some "meeting") None None None None None None None)
                  (mkSearchEntry (Blob "AAAA") 1000 true (Some 200000%Z))
                  "AAAA" eq_refl eq_refl eq_refl ltac:(simpl; lia))).
  reflexivity.
Defined.

End SearchResultCacheFacts.

(** ** ContentCache: a stale entry is dropped on read *)

Module ContentCacheFacts.
Import ContentCache.

Example extractInlineTags_sample :
  extractInlineTags "#Work/Meeting and ##todo, #work/meeting #-x #"
  = ["work/meeting"; "todo"; "-x"].
Proof. reflexivity. Qed.

Section Staleness.
Context {Unknown : Type}.
Variable maxSize : Z.

Lemma setInMemory_lookup (m : JsMap.t (ContentCacheEntry Unknown))
      (k : string) (e : ContentCacheEntry Unknown) :
  (0 < maxSize)%Z ->
  exists m', setInMemory Unknown maxSize m k e = Some m'
             /\ JsMap.get m' k = Some e.
Proof.
  intros Hmax. unfold setInMemory.
  destruct (JsMapFacts.evictOldest_returns maxSize Hmax
              (S (JsMap.size (if JsMap.has m k then JsMap.delete m k else m)))
              (if JsMap.has m k then JsMap.delete m k else m))
    as [m2 ->]; [lia|].
  eexists; split; [reflexivity | apply JsMapFacts.get_set_eq].
Qed.

(** C4.  With a positive capacity, [set(path, content, m1)] returns, and
    for [m2 <> m1] the following [get(path, m2)] returns [null] and leaves
    the path in neither the in-memory map nor the persistent partition,
    so that [has(path)] is false. *)
Theorem get_stale_mtime (now : Z) (st : State Unknown)
        (path text : string) (m1 m2 : Z) :
  (0 < maxSize)%Z -> m1 <> m2 ->
  exists s1 s2,
    set Unknown maxSize now st path text m1 = Some s1
    /\ get Unknown maxSize s1 path m2 = Some (s2, None)
    /\ has Unknown s2 path = false
    /\ JsMap.get (cache s2) (normalizePath path) = None
    /\ (forall db, persistentCache s2 = Some db ->
                   PersistentCache.get db (normalizePath path) = None).
Proof.
  intros Hmax Hne. unfold set.
  set (entry := mkContentEntry Unknown text m1 None _ _ _).
  destruct (setInMemory_lookup (cache st) (normalizePath path) entry Hmax)
    as (mem & -> & Hmem).
  eexists; eexists. split; [reflexivity|].
  unfold get. cbn [cache persistentCache]. rewrite Hmem.
  cbn [mtime entry]. destruct (Z.eqb_spec m1 m2) as [|_]; [contradiction|].
  cbn [negb]. split; [reflexivity|].
  unfold has. cbn [cache persistentCache].
  rewrite JsMapFacts.has_delete_eq, JsMapFacts.get_delete_eq.
  assert (Hdb : forall db,
             (fun db0 => PersistentCache.delete db0 (normalizePath path))
               <$> ((fun db0 => PersistentCache.set now db0 (normalizePath path)
                                                    entry (Some m1))
                      <$> persistentCache st) = Some db ->
             PersistentCache.get db (normalizePath path) = None
             /\ PersistentCache.has db (normalizePath path) = false).
  { intros db Hdb. destruct (persistentCache st) as [[rows|]|];
      simplify_eq/=; [|done].
    rewrite lookup_delete_eq. split; [done|].
    apply bool_decide_eq_false. by intros [? ?]. }
  repeat split.
  - destruct (_ <$> (_ <$> persistentCache st)) as [db|] eqn:E; [|reflexivity].
    cbn [orb]. now apply Hdb.
  - intros db E. now apply Hdb.
Qed.

End Staleness.

Lemma get_stale_mtime_witness :
  exists s1 s2,
    set unit 100 5 (mkState [] (Some (Some ∅))) "notes\a.md" "hello #tag" 100
    = Some s1
    /\ get unit 100 s1 "notes\a.md" 200 = Some (s2, None)
    /\ has unit s2 "notes\a.md" = false
    /\ JsMap.get (cache s2) (normalizePath "notes\a.md") = None
    /\ (forall db, persistentCache s2 = Some db ->
                   PersistentCache.get db (normalizePath "notes\a.md") = None).
Proof.
  apply (get_stale_mtime 100 5 (mkState [] (Some (Some ∅)))
                         "notes\a.md" "hello #tag" 100 200); lia.
Defined.

End ContentCacheFacts.

(** ** FileListCache: what [invalidate] removes *)

Module FileListCacheFacts.
Import FileListCache.







(** C5.  After a restart on the same partition, [invalidate("notes/sub")]
    deletes the row of ["notes/sub"] only: the rows of its ancestor
    ["notes"] and of the root [""] are related folders, are not in
    memory, and stay in the partition, from which [get] then serves the
    old listings. *)
Theorem invalidate_after_restart :
  let s0 := mkState [] (Some (Some ∅)) in
  let s1 := set 0 (set 0 (set 0 s0 "" ["x.md"]) "notes" ["notes/a.md"])
                "notes/sub" ["notes/sub/b.md"] in
  let s2 := invalidate (restart s1) (Some "notes/sub") in
  isRelatedFolder "notes" (normalizeFolder "notes/sub") = true
  /\ isRelatedFolder "" (normalizeFolder "notes/sub") = true
  /\ snd (get 60000 10 s2 "notes/sub") = None
  /\ snd (get 60000 10 s2 "notes") = Some ["notes/a.md"]
  /\ snd (get 60000 10 s2 "") = Some ["x.md"].
Proof. cbv zeta. repeat split; vm_compute; reflexivity. Qed.

End FileListCacheFacts.

(** ** InvertedIndex: the two maps mirror each other *)

Module InvertedIndexFacts.
Import InvertedIndex.

(** What the loop of [invalidate] makes of the file set of one word. *)
Definition strip (np : string) (o : option (gset string))
  : option (gset string) :=
  match o with
  | Some fs =>
      if decide (size (fs ∖ {[np]}) = 0) then None else Some (fs ∖ {[np]})
  | None => None
  end.

Lemma strip_idempotent (np : string) (o : option (gset string)) :
  strip np (strip np o) = strip np o.
Proof.
  destruct o as [fs|]; [|reflexivity]. unfold strip at 2 3.
  destruct (decide (size (fs ∖ {[np]}) = 0)) as [|Hne]; [reflexivity|].
  unfold strip.
  replace (fs ∖ {[np]} ∖ {[np]}) with (fs ∖ {[np]}) by set_solver.
  now destruct (decide (size (fs ∖ {[np]}) = 0)).
Qed.

Lemma strip_elem (np : string) (o : option (gset string)) (p : string) :
  (exists fs, strip np o = Some fs /\ p ∈ fs)
  <-> (exists fs, o = Some fs /\ p ∈ fs) /\ p <> np.
Proof.
  destruct o as [fs|]; cbn [strip].
  - destruct (decide (size (fs ∖ {[np]}) = 0)) as [Hz|Hnz].
    + apply size_empty_iff in Hz. split.
      * intros (? & ? & ?); discriminate.
      * intros [(fs' & [= <-] & Hin) Hne]. set_solver.
    + split.
      * intros (fs' & [= <-] & Hin). split; [exists fs|]; set_solver.
      * intros [(fs' & [= <-] & Hin) Hne]. eexists; split; [reflexivity|].
        set_solver.
  - split; [intros (? & ? & ?) | intros [(? & ? & ?) _]]; discriminate.
Qed.

Lemma removeFile_lookup (np : string) (wtf : gmap string (gset string))
      (word w : string) :
  removeFile np wtf word !! w
  = if decide (w = word) then strip np (wtf !! w) else wtf !! w.
Proof.
  unfold removeFile. destruct (decide (w = word)) as [->|Hne].
  - destruct (wtf !! word) as [fs|] eqn:E; cbn [strip]; [|exact E].
    destruct (decide (size (fs ∖ {[np]}) = 0)).
    + apply lookup_delete_eq.
    + apply lookup_insert_eq.
  - destruct (wtf !! word) as [fs|]; [|reflexivity].
    destruct (decide (size (fs ∖ {[np]}) = 0)).
    + now apply lookup_delete_ne.
    + now apply lookup_insert_ne.
Qed.

Lemma fold_removeFile_lookup (np : string) (ws : list string) :
  forall (wtf : gmap string (gset string)) (w : string),
    fold_left (removeFile np) ws wtf !! w
    = if decide (w ∈ ws) then strip np (wtf !! w) else wtf !! w.
Proof.
  induction ws as [|a ws IH]; intros wtf w.
  - cbn [fold_left]. destruct (decide (w ∈ [])) as [Hin|]; [|reflexivity].
    now apply elem_of_nil in Hin.
  - cbn [fold_left]. rewrite IH, removeFile_lookup.
    destruct (decide (w = a)) as [->|Hne].
    + rewrite strip_idempotent.
      destruct (decide (a ∈ a :: ws)) as [|Hn]; [|set_solver].
      now destruct (decide (a ∈ ws)).
    + destruct (decide (w ∈ ws)), (decide (w ∈ a :: ws));
        (reflexivity || set_solver).
Qed.

Lemma addFile_lookup (np : string) (wtf : gmap string (gset string))
      (word w : string) :
  addFile np wtf word !! w
  = if decide (w = word) then Some (default ∅ (wtf !! w) ∪ {[np]})
    else wtf !! w.
Proof.
  unfold addFile. destruct (decide (w = word)) as [->|Hne].
  - destruct (wtf !! word) as [fs|]; rewrite lookup_insert_eq; cbn [default];
      f_equal; set_solver.
  - destruct (wtf !! word) as [fs|]; now rewrite lookup_insert_ne.
Qed.

Lemma fold_addFile_lookup (np : string) (ws : list string) :
  forall (wtf : gmap string (gset string)) (w : string),
    fold_left (addFile np) ws wtf !! w
    = if decide (w ∈ ws) then Some (default ∅ (wtf !! w) ∪ {[np]})
      else wtf !! w.
Proof.
  induction ws as [|a ws IH]; intros wtf w.
  - cbn [fold_left]. destruct (decide (w ∈ [])) as [Hin|]; [|reflexivity].
    now apply elem_of_nil in Hin.
  - cbn [fold_left]. rewrite IH, addFile_lookup.
    destruct (decide (w = a)) as [->|Hne].
    + destruct (decide (a ∈ a :: ws)) as [|Hn]; [|set_solver].
      destruct (decide (a ∈ ws)); cbn [default]; f_equal; set_solver.
    + destruct (decide (w ∈ ws)), (decide (w ∈ a :: ws));
        (reflexivity || set_solver).
Qed.

(** The mutual-inverse invariant. *)
Definition mirrored (st : State) : Prop :=
  forall word path, wordOfFile st word path <-> fileOfWord st word path.

Lemma invalidate_enabled (st : State) (filePath : string) :
  enabled (invalidate st filePath) = enabled st.
Proof. unfold invalidate. now destruct (fileToWords st !! _). Qed.

Lemma invalidate_wordOfFile (st : State) (filePath word path : string) :
  wordOfFile (invalidate st filePath) word path
  <-> wordOfFile st word path /\ path <> normalizePath filePath.
Proof.
  unfold invalidate, wordOfFile.
  destruct (fileToWords st !! normalizePath filePath) as [ws|] eqn:E;
    cbn [fileToWords].
  - destruct (decide (path = normalizePath filePath)) as [->|Hne].
    + rewrite lookup_delete_eq. split.
      * intros (? & ? & ?); discriminate.
      * intros [_ ?]; congruence.
    + rewrite lookup_delete_ne by congruence. tauto.
  - split; [|tauto]. intros (ws & Hws & Hin). split; [eauto|].
    intros ->. congruence.
Qed.

Lemma invalidate_fileOfWord (st : State) (filePath word path : string) :
  mirrored st ->
  fileOfWord (invalidate st filePath) word path
  <-> fileOfWord st word path /\ path <> normalizePath filePath.
Proof.
  intros Hinv. unfold invalidate.
  destruct (fileToWords st !! normalizePath filePath) as [ws|] eqn:E.
  - unfold fileOfWord at 1. cbn [wordToFiles].
    rewrite fold_removeFile_lookup.
    destruct (decide (word ∈ elements ws)) as [Hin|Hnin].
    + apply strip_elem.
    + split; [|tauto]. intros Hf. split; [exact Hf|]. intros ->.
      apply Hinv in Hf. destruct Hf as (ws' & Hws' & Hw).
      rewrite E in Hws'. injection Hws' as <-.
      apply Hnin. now apply elem_of_elements.
  - split; [|tauto]. intros Hf. split; [exact Hf|]. intros ->.
    apply Hinv in Hf. destruct Hf as (ws' & Hws' & _). congruence.
Qed.

Lemma invalidate_mirrored (st : State) (filePath : string) :
  mirrored st -> mirrored (invalidate st filePath).
Proof.
  intros Hinv word path.
  rewrite invalidate_wordOfFile, invalidate_fileOfWord by assumption.
  now rewrite (Hinv word path).
Qed.

Section WithOptions.
Variable options : InvertedIndexOptions.

Lemma indexContent_skipped (st : State) (filePath text : string) :
  enabled st = false \/ text = EmptyString ->
  indexContent options st filePath text = st.
Proof.
  intros [H | ->]; unfold indexContent; [now rewrite H|].
  cbn [Js.isEmpty]. now rewrite orb_true_r.
Qed.

Lemma indexContent_wordOfFile (st : State) (filePath text word path : string) :
  enabled st = true -> text <> EmptyString ->
  wordOfFile (indexContent options st filePath text) word path
  <-> (path = normalizePath filePath /\ word ∈ extractWords options text)
      \/ (path <> normalizePath filePath /\ wordOfFile st word path).
Proof.
  intros He Ht. unfold indexContent. rewrite He.
  apply JsFacts.isEmpty_false in Ht. rewrite Ht. cbn [negb orb].
  unfold wordOfFile at 1. cbn [fileToWords].
  destruct (decide (path = normalizePath filePath)) as [->|Hne].
  - rewrite lookup_insert_eq. split.
    + intros (ws & [= <-] & Hin). now left.
    + intros [[_ Hin] | [Hc _]]; [eauto | congruence].
  - rewrite lookup_insert_ne by congruence.
    fold (wordOfFile (invalidate st filePath) word path).
    rewrite invalidate_wordOfFile. tauto.
Qed.

Lemma indexContent_fileOfWord (st : State) (filePath text word path : string) :
  mirrored st -> enabled st = true -> text <> EmptyString ->
  fileOfWord (indexContent options st filePath text) word path
  <-> (path = normalizePath filePath /\ word ∈ extractWords options text)
      \/ (path <> normalizePath filePath /\ fileOfWord st word path).
Proof.
  intros Hinv He Ht. unfold indexContent. rewrite He.
  apply JsFacts.isEmpty_false in Ht. rewrite Ht. cbn [negb orb].
  unfold fileOfWord at 1. cbn [wordToFiles].
  rewrite fold_addFile_lookup.
  pose proof (invalidate_fileOfWord st filePath word path Hinv) as Hinval.
  unfold fileOfWord at 1 in Hinval.
  destruct (decide (word ∈ elements (extractWords options text))) as [Hin|Hnin].
  - apply elem_of_elements in Hin. split.
    + intros (fs & [= <-] & Hp).
      destruct (decide (path = normalizePath filePath)) as [->|Hne];
        [now left | right]. split; [assumption|].
      apply Hinval.
      destruct (wordToFiles (invalidate st filePath) !! word) as [fs|];
        cbn [default] in Hp; [eexists; split; [reflexivity|] |]; set_solver.
    + intros [[-> _] | [Hne Hf]].
      * eexists; split; [reflexivity | set_solver].
      * assert (Hf' : fileOfWord st word path /\ path <> normalizePath filePath)
          by tauto.
        apply Hinval in Hf' as (fs & -> & Hp).
        eexists; split; [reflexivity | cbn [default]; set_solver].
  - rewrite elem_of_elements in Hnin. rewrite Hinval. tauto.
Qed.

Lemma indexContent_mirrored (st : State) (filePath text : string) :
  mirrored st -> mirrored (indexContent options st filePath text).
Proof.
  intros Hinv.
  destruct (enabled st) eqn:He;
    [|now rewrite indexContent_skipped by now left].
  destruct text as [|c t] eqn:Et;
    [now rewrite indexContent_skipped by now right|].
  rewrite <- Et. assert (Ht : text <> EmptyString) by (subst; discriminate).
  intros word path.
  rewrite indexContent_wordOfFile, indexContent_fileOfWord by assumption.
  now rewrite (Hinv word path).
Qed.

Lemma clear_mirrored (st : State) : mirrored (clear st).
Proof.
  intros word path. unfold wordOfFile, fileOfWord. cbn.
  split; intros (? & H & _); now rewrite lookup_empty in H.
Qed.

Lemma reachable_mirrored (st : State) :
  reachable options st -> mirrored st.
Proof.
  induction 1 as [|st filePath text _ IH|st filePath _ IH|st b _ IH|st _ IH].
  - apply (clear_mirrored empty).
  - now apply indexContent_mirrored.
  - now apply invalidate_mirrored.
  - destruct b; [exact IH | apply (clear_mirrored _)].
  - apply clear_mirrored.
Qed.

(** C6.  In every state reached from the empty index by [indexContent],
    [invalidate], [setEnabled] and [clear], a word is in [fileToWords] of
    a path exactly when the path is in [wordToFiles] of the word. *)
Theorem mutual_inverse (st : State) (word path : string) :
  reachable options st ->
  (wordOfFile st word path <-> fileOfWord st word path).
Proof. intros Hreach. now apply reachable_mirrored. Qed.

End WithOptions.

Section Reindexing.
Variable options : InvertedIndexOptions.

Lemma invalidate_indexed (st : State) (filePath : string) (ws : gset string) :
  fileToWords st !! normalizePath filePath = Some ws ->
  invalidate st filePath
  = {| wordToFiles := fold_left (removeFile (normalizePath filePath))
                                (elements ws) (wordToFiles st);
       fileToWords := base.delete (normalizePath filePath) (fileToWords st);
       enabled := enabled st |}.
Proof. intros H. unfold invalidate. now rewrite H. Qed.

Lemma indexContent_indexed (st : State) (filePath text : string) :
  enabled st = true -> text <> EmptyString ->
  indexContent options st filePath text
  = {| wordToFiles :=
         fold_left (addFile (normalizePath filePath))
                   (elements (extractWords options text))
                   (wordToFiles (invalidate st filePath));
       fileToWords := <[normalizePath filePath := extractWords options text]>
                        (fileToWords (invalidate st filePath));
       enabled := true |}.
Proof.
  intros He Ht. unfold indexContent. rewrite He.
  apply JsFacts.isEmpty_false in Ht. rewrite Ht. cbn [negb orb].
  now rewrite invalidate_enabled, He.
Qed.

(** Removing the path from a file set to which it was just added, and
    adding it again, gives the set back. *)
Lemma readd_file (np : string) (fs : gset string) :
  default ∅ (strip np (Some (fs ∪ {[np]}))) ∪ {[np]} = fs ∪ {[np]}.
Proof.
  cbn [strip].
  destruct (decide (size ((fs ∪ {[np]}) ∖ {[np]}) = 0)) as [Hz|_];
    cbn [default].
  - apply size_empty_iff in Hz. apply set_eq. intros x.
    destruct (decide (x = np)); set_solver.
  - apply set_eq. intros x. destruct (decide (x = np)); set_solver.
Qed.

Lemma indexContent_idempotent (st : State) (filePath text : string) :
  indexContent options (indexContent options st filePath text) filePath text
  = indexContent options st filePath text.
Proof.
  destruct (enabled st) eqn:He;
    [|now rewrite 2!(indexContent_skipped options st) by now left].
  destruct text as [|c t] eqn:Et;
    [now rewrite 2!(indexContent_skipped options st) by now right|].
  rewrite <- Et. assert (Ht : text <> EmptyString) by (subst; discriminate).
  rewrite (indexContent_indexed st) by assumption.
  set (np := normalizePath filePath).
  set (ws := extractWords options text).
  set (a := invalidate st filePath).
  rewrite indexContent_indexed by (reflexivity || assumption).
  rewrite (invalidate_indexed _ _ ws) by (cbn [fileToWords]; apply lookup_insert_eq).
  cbn [wordToFiles fileToWords enabled]. fold np ws. f_equal.
  - apply map_eq. intros w.
    rewrite fold_addFile_lookup, fold_removeFile_lookup, fold_addFile_lookup.
    destruct (decide (w ∈ elements ws)); [|reflexivity].
    f_equal. apply readd_file.
  - now rewrite insert_delete_eq, insert_insert_eq.
Qed.

(** C7 (as amended).  Indexing the same content twice in a row leaves the
    state that indexing it once leaves.  With the index enabled and a
    non-empty content, [indexContent(p, c)] first removes the mappings of
    the path and then adds the new ones: afterwards the words of the path
    are exactly the words extracted from [c], in both maps.  With an
    empty content, or with the index disabled, [indexContent] changes
    nothing. *)
Theorem indexContent_reindex (st : State) (filePath text : string) :
  indexContent options (indexContent options st filePath text) filePath text
  = indexContent options st filePath text
  /\ (reachable options st -> enabled st = true -> text <> EmptyString ->
      indexContent options st filePath text
      = {| wordToFiles :=
             fold_left (addFile (normalizePath filePath))
                       (elements (extractWords options text))
                       (wordToFiles (invalidate st filePath));
           fileToWords :=
             <[normalizePath filePath := extractWords options text]>
               (fileToWords (invalidate st filePath));
           enabled := true |}
      /\ fileToWords (indexContent options st filePath text)
           !! normalizePath filePath
         = Some (extractWords options text)
      /\ forall word,
           fileOfWord (indexContent options st filePath text)
                      word (normalizePath filePath)
           <-> word ∈ extractWords options text)
  /\ (enabled st = false \/ text = EmptyString ->
      indexContent options st filePath text = st).
Proof.
  split; [apply indexContent_idempotent|].
  split; [|apply indexContent_skipped].
  intros Hreach He Ht. split; [now apply indexContent_indexed|]. split.
  - rewrite indexContent_indexed by assumption. apply lookup_insert_eq.
  - intros word.
    rewrite indexContent_fileOfWord
      by (assumption || now apply (reachable_mirrored options)).
    tauto.
Qed.

End Reindexing.

Lemma indexContent_reindex_witness :
  let st := indexContent DEFAULT_OPTIONS empty "a.md" "Hello world" in
  fileToWords (indexContent DEFAULT_OPTIONS st "a.md" "Other words")
    !! normalizePath "a.md"
  = Some (extractWords DEFAULT_OPTIONS "Other words").
Proof.
  apply (proj1 (proj2 (proj1 (proj2
           (indexContent_reindex DEFAULT_OPTIONS
              (indexContent DEFAULT_OPTIONS empty "a.md" "Hello world")
              "a.md" "Other words"))
           ltac:(apply reachable_indexContent, reachable_empty)
           ltac:(reflexivity) ltac:(discriminate)))).
Defined.

(** C7, counterexample.  After ["a.md"] was indexed with ["hello world"],
    indexing it with the empty content returns before anything is
    removed: ["hello"] still maps to ["a.md"], a mapping derived from the
    previous content alone. *)
Lemma indexContent_empty_content :
  let st := indexContent DEFAULT_OPTIONS empty "a.md" "hello world" in
  reachable DEFAULT_OPTIONS st
  /\ fileOfWord (indexContent DEFAULT_OPTIONS st "a.md" "") "hello" "a.md"
  /\ "hello" ∉ extractWords DEFAULT_OPTIONS "".
Proof.
  cbv zeta. split; [apply reachable_indexContent, reachable_empty|].
  split.
  - exists {["a.md"]}. split; [vm_compute; reflexivity | set_solver].
  - vm_compute. set_solver.
Qed.

Lemma mutual_inverse_witness :
  let st := invalidate
              (indexContent DEFAULT_OPTIONS
                 (indexContent DEFAULT_OPTIONS empty "a.md" "Hello world")
                 "b.md" "hello there")
              "a.md" in
  wordOfFile st "hello" "b.md" <-> fileOfWord st "hello" "b.md".
Proof.
  apply (mutual_inverse DEFAULT_OPTIONS).
  apply reachable_invalidate, reachable_indexContent,
    reachable_indexContent, reachable_empty.
Defined.

End InvertedIndexFacts.

(** ** FileWatcher: coalescing and the markdown filter *)

Module FileWatcherFacts.
Import FileWatcher.

(** Every pending change sits under its own relative path, once. *)
Definition wellKeyed (m : JsMap.t PendingChange) : Prop :=
  List.NoDup (JsMap.keys m)
  /\ Forall (fun kv => filePath (snd kv) = fst kv) m.

Lemma keys_replace {V} (m : JsMap.t V) (k : string) (v : V) :
  JsMap.keys (JsMap.replace m k v) = JsMap.keys m.
Proof.
  unfold JsMap.keys. induction m as [|[a w] m IH]; simpl; [reflexivity|].
  destruct (String.eqb a k); simpl; [reflexivity | now rewrite IH].
Qed.

Lemma get_None_keys {V} (m : JsMap.t V) (k : string) :
  JsMap.get m k = None <-> ~ In k (JsMap.keys m).
Proof.
  unfold JsMap.get, JsMap.keys. induction m as [|[a w] m IH]; simpl.
  - tauto.
  - destruct (String.eqb_spec a k); [split; [discriminate | tauto]|].
    rewrite IH. tauto.
Qed.

Lemma wellKeyed_set (m : JsMap.t PendingChange) (k : string)
      (c : PendingChange) :
  wellKeyed m -> filePath c = k -> wellKeyed (JsMap.set m k c).
Proof.
  intros [Hnd Hall] Hc. unfold JsMap.set, JsMap.has.
  destruct (JsMap.get m k) eqn:E.
  - split; [now rewrite keys_replace|].
    clear Hnd E. induction m as [|[a w] m IH]; simpl; [constructor|].
    inversion_clear Hall as [|? ? Ha Hall'].
    destruct (String.eqb_spec a k); constructor; auto.
    simpl. congruence.
  - apply get_None_keys in E. split.
    + unfold JsMap.keys in *. rewrite map_app. simpl.
      apply NoDup_ListNoDup, NoDup_app.
      split; [now apply NoDup_ListNoDup|]. split; [|apply NoDup_singleton].
      intros x Hx Hin. apply list_elem_of_In in Hx, Hin. simpl in Hin.
      destruct Hin as [<-|[]]. contradiction.
    + apply Forall_app. split; [assumption|]. now repeat constructor.
Qed.

Lemma callsFor_absent (rp : string) (m : JsMap.t PendingChange) :
  Forall (fun kv => filePath (snd kv) = fst kv) m ->
  ~ In rp (JsMap.keys m) ->
  callsFor rp (List.map (fun c => (eventType c, filePath c)) (JsMap.values m))
  = [].
Proof.
  unfold callsFor, JsMap.values, JsMap.keys.
  induction m as [|[a c] m IH]; intros Hall Hnin; simpl; [reflexivity|].
  inversion_clear Hall as [|? ? Hc Hall']. simpl in Hc, Hnin.
  rewrite Hc. destruct (String.eqb_spec a rp); [tauto|]. apply IH; tauto.
Qed.

(** The calls one flush makes for a relative path: one, when a change is
    pending for it, none otherwise. *)
Lemma callsFor_values (rp : string) (m : JsMap.t PendingChange) :
  wellKeyed m ->
  callsFor rp (List.map (fun c => (eventType c, filePath c)) (JsMap.values m))
  = match JsMap.get m rp with
    | Some c => [(eventType c, rp)]
    | None => []
    end.
Proof.
  intros [Hnd Hall]. unfold JsMap.get.
  induction m as [|[a c] m IH]; [reflexivity|].
  inversion_clear Hall as [|? ? Hc Hall']. simpl in Hc.
  inversion_clear Hnd as [|? ? Hnotin Hnd'].
  cbn [JsMap.values List.map callsFor List.filter snd find fst].
  rewrite Hc. destruct (String.eqb_spec a rp) as [->|Hne].
  - cbn [snd]. f_equal. apply (callsFor_absent rp m Hall').
    intros Hin. apply Hnotin. now apply list_elem_of_In.
  - apply IH; assumption.
Qed.


Section WithVault.
Variable vaultPath : string.
Variable pathRelative : string -> string -> string.

Local Abbreviation handleChange := (handleChange vaultPath pathRelative).
Local Abbreviation step := (step vaultPath pathRelative).
Local Abbreviation run := (run vaultPath pathRelative).

Lemma handleChange_wellKeyed (now : Z) (st : State)
      (type : FileChangeEventType) (path : string) :
  wellKeyed (pendingChanges st) ->
  wellKeyed (pendingChanges (handleChange now st type path)).
Proof.
  intros Hwf. unfold FileWatcher.handleChange.
  destruct (_ && _ && _); [assumption|].
  cbn [pendingChanges]. now apply wellKeyed_set.
Qed.

Lemma handleChange_callback (now : Z) (st : State)
      (type : FileChangeEventType) (path : string) :
  onChangeCallback (handleChange now st type path) = onChangeCallback st.
Proof.
  unfold FileWatcher.handleChange. now destruct (_ && _ && _).
Qed.

Lemma wellKeyed_nil : wellKeyed [].
Proof. split; constructor. Qed.

Lemma processPendingChanges_invariant (st : State) :
  wellKeyed (pendingChanges st) ->
  wellKeyed (pendingChanges (fst (processPendingChanges st)))
  /\ onChangeCallback (fst (processPendingChanges st)) = onChangeCallback st.
Proof.
  intros Hwf. unfold processPendingChanges.
  destruct (_ || _); cbn [fst pendingChanges onChangeCallback];
    auto using wellKeyed_nil.
Qed.

Lemma step_invariant (st : State) (i : Input) :
  wellKeyed (pendingChanges st) ->
  wellKeyed (pendingChanges (fst (step st i)))
  /\ onChangeCallback (fst (step st i)) = onChangeCallback st.
Proof.
  intros Hwf. destruct i as [now type path| |]; cbn [FileWatcher.step fst].
  - split; [now apply handleChange_wellKeyed | apply handleChange_callback].
  - unfold timerFires. destruct (debounceTimer st); [|now split].
    exact (processPendingChanges_invariant (mkState _ _ _ _) Hwf).
  - unfold stop. cbn [pendingChanges].
    destruct (Nat.ltb 0 _); [|now split].
    exact (processPendingChanges_invariant (mkState _ _ _ _) Hwf).
Qed.

Lemma run_invariant (inputs : list Input) :
  forall st,
    wellKeyed (pendingChanges st) ->
    wellKeyed (pendingChanges (fst (run st inputs)))
    /\ onChangeCallback (fst (run st inputs)) = onChangeCallback st.
Proof.
  induction inputs as [|i rest IH]; intros st Hwf; [now split|].
  cbn [FileWatcher.run].
  destruct (step_invariant st i Hwf) as [Hwf1 Hcb1].
  destruct (step st i) as [st1 calls1]. cbn [fst] in *.
  destruct (IH st1 Hwf1) as [Hwf2 Hcb2].
  destruct (run st1 rest) as [st2 calls2]. cbn [fst] in *.
  split; [assumption | congruence].
Qed.



(** C10.  An add, change or unlink event whose path does not end in
    [.md] leaves the watcher as it was: no pending change, no time-out;
    whatever else happens, the calls delivered are those delivered
    without the event.  A directory event is recorded whatever its path
    ends in. *)
Theorem markdown_filter (now : Z) (st : State) (type : FileChangeEventType)
        (path : string) :
  (type = add \/ type = change \/ type = unlink ->
   Js.endsWith path ".md" = false ->
   handleChange now st type path = st
   /\ forall st0 before after,
        run st0 (before ++ Raw now type path :: after)%list
        = run st0 (before ++ after)%list)
  /\ (type = addDir \/ type = unlinkDir ->
      JsMap.has (pendingChanges (handleChange now st type path))
                (pathRelative vaultPath path) = true).
Proof.
  split.
  - intros Htype Hmd.
    assert (Hid : forall s, handleChange now s type path = s).
    { intros s. unfold FileWatcher.handleChange. rewrite Hmd.
      now destruct Htype as [-> | [-> | ->]]. }
    split; [apply Hid|].
    intros st0 before. revert st0.
    induction before as [|i before IH]; intros st0 after.
    + cbn [app FileWatcher.run FileWatcher.step]. rewrite Hid.
      now destruct (run st0 after).
    + cbn [app FileWatcher.run]. destruct (step st0 i) as [st1 calls1].
      now rewrite IH.
  - intros Htype. unfold FileWatcher.handleChange.
    assert (negb (eventType_eqb type addDir)
            && negb (eventType_eqb type unlinkDir) = false) as ->
        by (now destruct Htype as [-> | ->]).
    cbn [andb pendingChanges]. unfold JsMap.has.
    now rewrite JsMapFacts.get_set_eq.
Qed.

End WithVault.



Lemma markdown_filter_witness :
  handleChange "/vault" relativeBelow 5 (start created)
               change "/vault/picture.png"
  = start created.
Proof.
  apply (proj1 (proj1 (markdown_filter "/vault" relativeBelow 5
                         (start created) change "/vault/picture.png")
                      ltac:(right; left; reflexivity) ltac:(reflexivity))).
Defined.

End FileWatcherFacts.

(** ** PathTrie: narrowing by the literal prefix *)

Module PathTrieFacts.
Import PathTrie.

Example insert_then_prefix :
  matchPrefix (insert (insert (insert empty "notes/a.md") "notes/sub/b.md")
                      "c.md") "notes"
  = ["notes/a.md"; "notes/sub/b.md"].
Proof. reflexivity. Qed.

Example remove_prunes :
  remove (insert (insert empty "notes/a.md") "notes/sub/b.md") "notes/sub/b.md"
  = Returns (insert empty "notes/a.md").
Proof. reflexivity. Qed.

Example remove_misaligned_throws :
  exists st, remove (insert empty "//a") "//a" = Throws st.
Proof. eexists. reflexivity. Qed.

Example extractSimplePrefix_samples :
  extractSimplePrefix "notes/2024/*.md" = "notes/2024"
  /\ extractSimplePrefix "**/*.md" = ""
  /\ extractSimplePrefix "{a,b}/*.md" = "{a,b}".
Proof. repeat split. Qed.

(** Whenever the literal prefix of a pattern names no node of the trie,
    [matchGlob] answers the empty list without asking [minimatch]. *)
Lemma matchGlob_unknown_prefix (minimatch : string -> string -> bool)
      (st : State) (pattern : string) :
  pattern <> EmptyString ->
  extractSimplePrefix pattern <> EmptyString ->
  getNode (nonEmpty (Js.splitChar "/"%char
                       (normalizePath (extractSimplePrefix pattern))))
          (root st) = None ->
  matchGlob minimatch st pattern = [].
Proof.
  intros Hp Hs Hnode. unfold matchGlob, matchPrefix.
  apply JsFacts.isEmpty_false in Hp, Hs. now rewrite Hp, Hs, Hnode.
Qed.

(** C9.  With the single file ["a/x.md"] in the trie, [matchGlob] on the
    pattern ["{a,b}/*.md"] takes ["{a,b}"] for a literal directory,
    finds no node for it and answers the empty list, whatever
    [minimatch] says; the full matching on the complete file set selects
    the file as soon as [minimatch] accepts it, which minimatch does by
    brace expansion. *)
Theorem matchGlob_brace_pattern :
  forall minimatch : string -> string -> bool,
    let trie := insert empty "a/x.md" in
    getAllFiles trie = ["a/x.md"]
    /\ matchGlob minimatch trie "{a,b}/*.md" = []
    /\ globAll minimatch trie "{a,b}/*.md"
       = if minimatch "a/x.md" "{a,b}/*.md" then ["a/x.md"] else [].
Proof.
  intros minimatch. cbv zeta. split; [reflexivity|]. split; [reflexivity|].
  unfold globAll. cbn. now destruct (minimatch _ _).
Qed.

End PathTrieFacts.


(* ================================================================== *)
(** * Part III: further properties of the services *)
(* ================================================================== *)

(** ** SearchScorer: ranges and monotonicity of the scores *)

Module SearchScorerBounds.
Import Js JsFacts SearchScorer SearchScorerFacts.

(** The occurrences counted by the scan do not overlap. *)
Lemma scan_disjoint (term : string) :
  forall (text : string) (skip : nat),
    scan term text skip * String.length term <= String.length text - skip.
Proof.
  induction text as [|c t IH]; intros skip; [simpl; lia|].
  destruct skip as [|k]; cbn [scan].
  - destruct (String.prefix term (String c t)) eqn:Hp.
    + apply prefix_length in Hp. specialize (IH (String.length term - 1)).
      cbn [String.length] in *. nia.
    + specialize (IH 0). cbn [String.length]. lia.
  - specialize (IH k). cbn [String.length]. lia.
Qed.

(** X4.  [countOccurrences] returns, and the occurrences it counts are
    disjoint: their number times the length of the search term is at
    most the length of the text. *)
Theorem countOccurrences_disjoint (text searchTerm : string) :
  exists count,
    countOccurrences text searchTerm = Some count
    /\ count * String.length searchTerm <= String.length text.
Proof.
  destruct text as [|c t] eqn:Et; [exists 0; split; [reflexivity | simpl; lia]|].
  destruct searchTerm as [|d u] eqn:Es; [exists 0; split; [reflexivity | lia]|].
  rewrite <- Et, <- Es.
  rewrite countOccurrences_scan by (subst; discriminate).
  eexists; split; [reflexivity|].
  pose proof (scan_disjoint searchTerm text 0). lia.
Qed.

Local Open Scope R_scope.

Lemma ln_ge_1 (x : R) : 1 <= x -> 0 <= ln x.
Proof.
  intros [Hlt | <-]; [|rewrite ln_1; lra].
  left. rewrite <- ln_1. apply ln_increasing; lra.
Qed.

Lemma ln_gt_1 (x : R) : 1 < x -> 0 < ln x.
Proof. intros H. rewrite <- ln_1. apply ln_increasing; lra. Qed.

Lemma Rmin_1_unit (x : R) : 0 <= x -> 0 <= Rmin 1 x <= 1.
Proof.
  intros Hx. split; [apply Rmin_glb; lra | apply Rmin_l].
Qed.

Lemma ratio_nonneg (a b : nat) : 0 <= INR a / INR b.
Proof.
  destruct b as [|b].
  - cbn [INR]. unfold Rdiv. rewrite Rinv_0. lra.
  - apply Rmult_le_pos; [apply pos_INR|].
    left. apply Rinv_0_lt_compat. apply lt_0_INR. lia.
Qed.

Lemma TF_unit (a b : nat) : 0 <= TF (INR a / INR b) <= 1.
Proof.
  unfold TF. apply Rmin_1_unit.
  pose proof (ratio_nonneg a b).
  apply Rmult_le_pos; [apply ln_ge_1; lra|].
  left. apply Rinv_0_lt_compat. apply ln_gt_1. lra.
Qed.

Lemma Density_unit (m n : nat) : 0 <= Density m n <= 1.
Proof.
  unfold Density. apply Rmin_1_unit.
  pose proof (ratio_nonneg m n).
  apply Rmult_le_pos.
  - apply ln_ge_1. unfold Rdiv in *. rewrite Rmult_assoc. lra.
  - left. apply Rinv_0_lt_compat. apply ln_gt_1. lra.
Qed.

Lemma Density_pos (m n : nat) : (0 < m)%nat -> (0 < n)%nat -> 0 < Density m n.
Proof.
  intros Hm Hn. unfold Density. apply Rmin_glb_lt; [lra|].
  apply Rmult_lt_0_compat.
  - apply ln_gt_1.
    assert (0 < INR m / INR n).
    { apply Rmult_lt_0_compat; [now apply lt_0_INR|].
      apply Rinv_0_lt_compat. now apply lt_0_INR. }
    unfold Rdiv in *. rewrite Rmult_assoc. lra.
  - apply Rinv_0_lt_compat. apply ln_gt_1. lra.
Qed.

Lemma Position_pos (first : Z) (n : nat) : 0 < Position first n.
Proof. unfold Position. apply exp_pos. Qed.

Lemma Position_le_1 (first : Z) (n : nat) :
  (1 <= first)%Z -> Position first n <= 1.
Proof.
  intros Hf. unfold Position.
  assert (Hx : - 3 * (IZR first - 1) / INR n <= 0).
  { apply IZR_le in Hf. pose proof (ratio_nonneg 1 n) as Hn.
    cbn [INR] in Hn. unfold Rdiv in *. rewrite Rmult_1_l in Hn.
    assert (0 <= (IZR first - 1) * / INR n) by (apply Rmult_le_pos; lra).
    nra. }
  destruct Hx as [Hlt | ->]; [|rewrite exp_0; lra].
  left. apply Rlt_le_trans with (exp 0); [now apply exp_increasing|].
  rewrite exp_0. lra.
Qed.

Lemma Position_decreasing (a b : Z) (n : nat) :
  (0 < n)%nat -> (a <= b)%Z -> Position b n <= Position a n.
Proof.
  intros Hn Hab. unfold Position.
  assert (Hx : - 3 * (IZR b - 1) / INR n <= - 3 * (IZR a - 1) / INR n).
  { apply IZR_le in Hab. apply lt_0_INR in Hn.
    apply Rinv_0_lt_compat in Hn. unfold Rdiv. nra. }
  destruct Hx as [Hlt | ->]; [left; now apply exp_increasing | right; reflexivity].
Qed.

(** [Math.min] over the lines: a lower bound that is attained. *)
Lemma fold_min_spec (ms : list Match) :
  forall a : Z,
    (fold_left (fun acc m' => Z.min acc (line m')) ms a <= a)%Z
    /\ Forall (fun m => (fold_left (fun acc m' => Z.min acc (line m')) ms a
                         <= line m)%Z) ms
    /\ (fold_left (fun acc m' => Z.min acc (line m')) ms a = a
        \/ Exists (fun m => line m
                            = fold_left (fun acc m' => Z.min acc (line m')) ms a)
                  ms).
Proof.
  induction ms as [|m ms IH]; intros a; cbn [fold_left].
  - split; [lia|]. split; [constructor | now left].
  - destruct (IH (Z.min a (line m))) as (Hle & Hall & Hex).
    split; [lia|]. split; [constructor; [lia | exact Hall]|].
    destruct Hex as [Heq | Hex]; [|right; now constructor 2].
    destruct (Z.min_spec a (line m)) as [[_ Hm] | [_ Hm]].
    + left. congruence.
    + right. constructor 1. congruence.
Qed.

Lemma firstMatchLine_spec (m : Match) (ms : list Match) :
  Forall (fun m' => (firstMatchLine (m :: ms) <= line m')%Z) (m :: ms)
  /\ Exists (fun m' => line m' = firstMatchLine (m :: ms)) (m :: ms).
Proof.
  cbn [firstMatchLine].
  destruct (fold_min_spec ms (line m)) as (Hle & Hall & Hex).
  split; [constructor; assumption|].
  destruct Hex as [Heq | Hex]; [constructor 1; congruence | now constructor 2].
Qed.

(** X1.  A file with at least one match gets a score that is strictly
    positive and at most 1 (default weights, non-empty content and
    query). *)
Theorem calculateScore_positive (matches : list Match)
        (content query : string) :
  matches <> [] -> content <> EmptyString -> query <> EmptyString ->
  exists score,
    calculateScore DEFAULT_WEIGHTS matches content query = Some score
    /\ 0 < score <= 1.
Proof.
  intros Hm Hc Hq. rewrite calculateScore_nondegenerate by assumption.
  eexists; split; [reflexivity|]. unfold scoreFormula, clamp01.
  set (tf := TF _).
  assert (Htf : 0 <= tf <= 1).
  { unfold tf. destruct (Nat.eqb (totalWords content) 0).
    - rewrite TF_zero. lra.
    - apply TF_unit. }
  pose proof (Position_pos (firstMatchLine matches) (totalLinesOf content)).
  pose proof (Density_unit (length matches) (totalLinesOf content)).
  split; [|apply Rmin_l].
  apply Rmin_glb_lt; [lra|].
  apply Rlt_le_trans with (2 := Rmax_r _ _). nra.
Qed.

Lemma calculateScore_positive_witness :
  exists score,
    calculateScore DEFAULT_WEIGHTS [mkMatch 1] "say hello" "HELLO"
    = Some score
    /\ 0 < score <= 1.
Proof.
  apply (calculateScore_positive [mkMatch 1] "say hello" "HELLO");
    discriminate.
Defined.

(** X2.  The three partial scores lie in [0,1]: the term frequency and
    the density always, the position bonus when every match is on a line
    numbered from 1. *)
Theorem partial_scores_in_unit_interval (matches : list Match)
        (content query : string) (totalLines : nat) :
  (exists tf, calculateTermFrequency content query = Some tf
              /\ 0 <= tf <= 1)
  /\ 0 <= calculateDensityBonus matches totalLines <= 1
  /\ (Forall (fun m => (1 <= line m)%Z) matches ->
      0 <= calculatePositionBonus matches totalLines <= 1).
Proof.
  split; [|split].
  - destruct content as [|c t] eqn:Ec;
      [exists 0; split; [reflexivity | lra]|].
    destruct query as [|d u] eqn:Eq;
      [exists 0; split; [reflexivity | lra]|].
    rewrite <- Ec, <- Eq.
    rewrite calculateTermFrequency_formula by (subst; discriminate).
    eexists; split; [reflexivity|].
    destruct (Nat.eqb (totalWords content) 0); [lra | apply TF_unit].
  - destruct matches as [|m ms]; [cbn; lra|].
    destruct totalLines as [|n]; [cbn; lra|].
    rewrite calculateDensityBonus_formula by discriminate.
    apply Density_unit.
  - intros Hall. destruct matches as [|m ms]; [cbn; lra|].
    destruct totalLines as [|n]; [cbn; lra|].
    rewrite calculatePositionBonus_formula by discriminate.
    split; [left; apply Position_pos|]. apply Position_le_1.
    destruct (firstMatchLine_spec m ms) as [_ Hex].
    apply Exists_exists in Hex as (m' & Hin & <-).
    now apply (proj1 (Forall_forall _ _) Hall).
Qed.

Lemma partial_scores_in_unit_interval_witness :
  0 <= calculatePositionBonus [mkMatch 2; mkMatch 5] 7 <= 1.
Proof.
  apply (proj2 (proj2 (partial_scores_in_unit_interval
                         [mkMatch 2; mkMatch 5] "" "" 7))).
  repeat constructor; simpl; lia.
Defined.

(** X3.  The position bonus is computed from the smallest line number
    among the matches, it is 1 when that line is the first one, and it
    never grows when the earliest match moves down. *)
Theorem position_bonus_earliest_match (m1 m2 : Match)
        (ms1 ms2 : list Match) (totalLines : nat) :
  (0 < totalLines)%nat ->
  (Forall (fun m => (firstMatchLine (m1 :: ms1) <= line m)%Z) (m1 :: ms1)
   /\ Exists (fun m => line m = firstMatchLine (m1 :: ms1)) (m1 :: ms1))
  /\ (firstMatchLine (m1 :: ms1) = 1%Z ->
      calculatePositionBonus (m1 :: ms1) totalLines = 1)
  /\ ((firstMatchLine (m1 :: ms1) <= firstMatchLine (m2 :: ms2))%Z ->
      calculatePositionBonus (m2 :: ms2) totalLines
      <= calculatePositionBonus (m1 :: ms1) totalLines).
Proof.
  intros Hn. split; [apply firstMatchLine_spec|]. split.
  - intros H1. rewrite calculatePositionBonus_formula by (discriminate || lia).
    rewrite H1. unfold Position.
    replace (-3 * (1 - 1) / INR totalLines) with 0
      by (unfold Rdiv; ring).
    apply exp_0.
  - intros Hle.
    rewrite !calculatePositionBonus_formula by (discriminate || lia).
    now apply Position_decreasing.
Qed.

Lemma position_bonus_earliest_match_witness :
  calculatePositionBonus [mkMatch 9; mkMatch 4] 10
  <= calculatePositionBonus [mkMatch 6; mkMatch 2; mkMatch 8] 10.
Proof.
  apply (proj2 (proj2 (position_bonus_earliest_match
                         (mkMatch 6) (mkMatch 9) [mkMatch 2; mkMatch 8]
                         [mkMatch 4] 10 ltac:(lia)))).
  simpl. lia.
Defined.

End SearchScorerBounds.


(** ** SearchResultFilter: what a processed page holds *)

Module SearchResultFilterFacts.
Import SearchResultFilter.

Section WithMatches.
Context {Match : Type}.
Variable highQualityThreshold : Q.

Local Abbreviation Result := (SearchResult Match).

(** Descending order of the scores. *)
Definition descending (a b : Result) : Prop := (score b <= score a)%Q.

Lemma Qle_bool_false (x y : Q) : Qle_bool x y = false -> (y <= x)%Q.
Proof.
  intros H. apply Qlt_le_weak, Qnot_le_lt. intros Hle.
  apply Qle_bool_iff in Hle. congruence.
Qed.

Lemma insertByScore_In (r x : Result) (l : list Result) :
  In x (insertByScore Match r l) <-> x = r \/ In x l.
Proof.
  induction l as [|y l IH]; cbn [insertByScore].
  - simpl. intuition.
  - destruct (Qle_bool (score y) (score r)); simpl in *; intuition.
Qed.

Lemma insertByScore_length (r : Result) (l : list Result) :
  length (insertByScore Match r l) = S (length l).
Proof.
  induction l as [|y l IH]; cbn [insertByScore]; [reflexivity|].
  destruct (Qle_bool (score y) (score r)); simpl; congruence.
Qed.

Lemma insertByScore_count (f : Result -> bool) (r : Result)
      (l : list Result) :
  length (List.filter f (insertByScore Match r l))
  = length (List.filter f (r :: l)).
Proof.
  induction l as [|y l IH]; cbn [insertByScore]; [reflexivity|].
  destruct (Qle_bool (score y) (score r)); [reflexivity|].
  cbn [List.filter] in *. destruct (f y), (f r); cbn [length] in *; lia.
Qed.

Lemma insertByScore_sorted (r : Result) (l : list Result) :
  StronglySorted descending l ->
  StronglySorted descending (insertByScore Match r l).
Proof.
  induction l as [|y l IH]; intros Hs; cbn [insertByScore].
  - repeat constructor.
  - inversion_clear Hs as [|? ? Hs' Hall].
    destruct (Qle_bool (score y) (score r)) eqn:E.
    + apply Qle_bool_iff in E. constructor; [now constructor|].
      constructor; [exact E|].
      eapply List.Forall_impl; [|exact Hall].
      intros z Hz. unfold descending in *. now apply Qle_trans with (score y).
    + apply Qle_bool_false in E. constructor; [now apply IH|].
      apply List.Forall_forall. intros z Hz.
      apply insertByScore_In in Hz as [-> | Hz]; [exact E|].
      now apply (proj1 (List.Forall_forall _ _) Hall).
Qed.

Lemma sortByScore_In (x : Result) (l : list Result) :
  In x (sortByScore Match l) <-> In x l.
Proof.
  induction l as [|y l IH]; cbn [sortByScore fold_right]; [reflexivity|].
  fold (sortByScore Match l). rewrite insertByScore_In, IH. simpl. intuition.
Qed.

Lemma sortByScore_length (l : list Result) :
  length (sortByScore Match l) = length l.
Proof.
  induction l as [|y l IH]; cbn [sortByScore fold_right]; [reflexivity|].
  fold (sortByScore Match l). rewrite insertByScore_length. simpl. congruence.
Qed.

Lemma sortByScore_count (f : Result -> bool) (l : list Result) :
  length (List.filter f (sortByScore Match l)) = length (List.filter f l).
Proof.
  induction l as [|y l IH]; cbn [sortByScore fold_right]; [reflexivity|].
  fold (sortByScore Match l). rewrite insertByScore_count.
  cbn [List.filter]. destruct (f y); cbn [length]; congruence.
Qed.

Lemma sortByScore_sorted (l : list Result) :
  StronglySorted descending (sortByScore Match l).
Proof.
  induction l as [|y l IH]; cbn [sortByScore fold_right]; [constructor|].
  now apply insertByScore_sorted.
Qed.

Lemma StronglySorted_skipn {A} (R : A -> A -> Prop) (n : nat) (l : list A) :
  StronglySorted R l -> StronglySorted R (skipn n l).
Proof.
  revert l; induction n as [|n IH]; intros l Hs; [exact Hs|].
  destruct l as [|x l]; [exact Hs|]. inversion_clear Hs. now apply IH.
Qed.

Lemma In_firstn_list {A} (x : A) (n : nat) (l : list A) :
  In x (firstn n l) -> In x l.
Proof.
  revert l; induction n as [|n IH]; intros l H; [destruct H|].
  destruct l as [|y l]; [exact H|]. destruct H as [->|H]; [now left|].
  right. now apply IH.
Qed.

Lemma StronglySorted_firstn {A} (R : A -> A -> Prop) (n : nat) (l : list A) :
  StronglySorted R l -> StronglySorted R (firstn n l).
Proof.
  revert l; induction n as [|n IH]; intros l Hs; [constructor|].
  destruct l as [|x l]; [constructor|]. inversion_clear Hs as [|? ? Hs' Hall].
  cbn [firstn]. constructor; [now apply IH|].
  apply List.Forall_forall. intros y Hy.
  apply (proj1 (List.Forall_forall _ _) Hall). eapply In_firstn_list; exact Hy.
Qed.

Lemma In_skipn {A} (x : A) (n : nat) (l : list A) :
  In x (skipn n l) -> In x l.
Proof.
  revert l; induction n as [|n IH]; intros l H; [exact H|].
  destruct l as [|y l]; [exact H|]. right. now apply IH.
Qed.

Lemma applyPagination_sub (l : list Result) (lim off : Z) :
  (StronglySorted descending l ->
   StronglySorted descending (applyPagination Match l lim off))
  /\ (forall x, In x (applyPagination Match l lim off) -> In x l)
  /\ ((0 < lim)%Z ->
      (length (applyPagination Match l lim off) <= Z.to_nat lim)%nat).
Proof.
  unfold applyPagination. destruct (lim <=? 0)%Z eqn:E.
  - repeat split; [constructor | intros x [] | simpl; lia].
  - repeat split.
    + intros Hs. now apply StronglySorted_firstn, StronglySorted_skipn.
    + intros x Hx. eapply In_skipn, In_firstn_list; exact Hx.
    + intros _. rewrite length_firstn. lia.
Qed.

(** X5.  The list [processResults] returns is ordered by descending
    score and made of results of the input; with a minimum score above 0
    every result reaches it; with a limit above 0 there are at most
    [limit] results. *)
Theorem processResults_page (results : list Result)
        (options : ProcessOptions) :
  let page := processResults Match results options in
  StronglySorted descending page
  /\ (forall r, In r page -> In r results)
  /\ (forall min, minScore options = Some min -> (0 < min)%Q ->
                  forall r, In r page -> (min <= score r)%Q)
  /\ (forall lim, limit options = Some lim -> (0 < lim)%Z ->
                  (length page <= Z.to_nat lim)%nat).
Proof.
  cbv zeta. unfold processResults.
  set (filtered := match minScore options with
                   | Some min => if negb (Qle_bool min 0)
                                 then filterByMinScore Match results min
                                 else results
                   | None => results
                   end).
  assert (Hsub : forall r, In r filtered -> In r results).
  { intros r. unfold filtered, filterByMinScore.
    destruct (minScore options) as [min|]; [|auto].
    destruct (Qle_bool min 0); cbn [negb]; [auto|].
    destruct (Qle_bool min 1); cbn [negb]; [|intros []].
    intros H. now apply filter_In in H. }
  assert (Hmin : forall min, minScore options = Some min -> (0 < min)%Q ->
                             forall r, In r filtered -> (min <= score r)%Q).
  { intros min Hopt Hpos r. unfold filtered, filterByMinScore. rewrite Hopt.
    destruct (Qle_bool min 0) eqn:E0.
    - apply Qle_bool_iff in E0. exfalso. now apply (Qlt_not_le 0 min).
    - cbn [negb]. destruct (Qle_bool min 1); cbn [negb]; [|intros []].
      intros H. apply filter_In in H as [_ H]. now apply Qle_bool_iff. }
  set (sorted := sortByScore Match filtered).
  assert (Hsorted : StronglySorted descending sorted)
    by apply sortByScore_sorted.
  assert (Hin : forall r, In r sorted -> In r filtered)
    by (intros r; apply sortByScore_In).
  destruct (limit options) as [lim|] eqn:El.
  - destruct (0 <? lim)%Z eqn:Ep.
    + destruct (applyPagination_sub sorted lim (default 0%Z (offset options)))
        as (Hs & Hi & Hl).
      repeat split; eauto.
      intros lim' [= <-] Hpos. auto.
    + apply Z.ltb_ge in Ep. repeat split; eauto.
      intros lim' [= <-] Hpos. lia.
  - repeat split; eauto. discriminate.
Qed.

Lemma firstn_add {A} (a b : nat) (l : list A) :
  firstn (a + b) l = (firstn a l ++ firstn b (skipn a l))%list.
Proof.
  revert l; induction a as [|a IH]; intros l; [reflexivity|].
  destruct l as [|x l]; cbn [Nat.add firstn skipn app].
  - now destruct b.
  - now rewrite IH.
Qed.

(** X6.  Consecutive pages tile the list: the pages of size [limit] at
    the offsets [0], [limit], ..., [(n-1)*limit], put end to end, are the
    first [n*limit] results; a negative offset is read as 0. *)
Theorem applyPagination_tiles (results : list Result) (lim : Z) (n : nat) :
  (0 < lim)%Z ->
  concat (List.map (fun i => applyPagination Match results lim
                                             (Z.of_nat i * lim))
                   (seq 0 n))
  = firstn (n * Z.to_nat lim) results
  /\ forall off, (off < 0)%Z ->
                 applyPagination Match results lim off
                 = applyPagination Match results lim 0.
Proof.
  intros Hlim. split.
  - induction n as [|n IH]; [reflexivity|].
    rewrite seq_S, map_app, concat_app, IH. cbn [List.map concat Nat.add].
    rewrite app_nil_r. unfold applyPagination.
    destruct (Z.leb_spec lim 0); [lia|].
    destruct (Z.ltb_spec (Z.of_nat n * lim) 0); [nia|].
    replace (Z.to_nat (Z.of_nat n * lim)) with (n * Z.to_nat lim)%nat by nia.
    replace (S n * Z.to_nat lim)%nat with (n * Z.to_nat lim + Z.to_nat lim)%nat
      by lia.
    now rewrite firstn_add.
  - intros off Hoff. unfold applyPagination.
    destruct (lim <=? 0)%Z; [reflexivity|].
    now destruct (Z.ltb_spec off 0); [|lia].
Qed.

(** In a list ordered by descending score the results that reach a
    threshold come first. *)
Lemma descending_prefix (t : Q) (l : list Result) :
  StronglySorted descending l ->
  forall k,
    (k <= length (List.filter (fun r => Qle_bool t (score r)) l))%nat ->
    Forall (fun r => (t <= score r)%Q) (firstn k l).
Proof.
  induction 1 as [|x l Hs IH Hall]; intros k Hk.
  - destruct k; constructor.
  - destruct k as [|k]; [constructor|]. cbn [firstn List.filter] in *.
    destruct (Qle_bool t (score x)) eqn:E.
    + apply Qle_bool_iff in E. constructor; [exact E|].
      apply IH. cbn [length] in Hk. lia.
    + exfalso.
      assert (Hnone : List.filter (fun r => Qle_bool t (score r)) l = []).
      { clear -Hall E. induction l as [|y l IHl]; [reflexivity|].
        inversion_clear Hall as [|? ? Hy Hall']. cbn [List.filter].
        destruct (Qle_bool t (score y)) eqn:Ey; [|now apply IHl].
        apply Qle_bool_iff in Ey. unfold descending in Hy.
        assert (Hx : Qle_bool t (score x) = true)
          by (apply Qle_bool_iff; now apply Qle_trans with (score y)).
        congruence. }
      rewrite Hnone in Hk. simpl in Hk. lia.
Qed.

(** X7.  When [shouldStopEarly] answers true for a limit, the first page
    of that size is full and holds only results that reach the
    high-quality threshold. *)
Theorem shouldStopEarly_full_page (results : list Result) (lim : Z)
        (customThreshold : option Q) :
  shouldStopEarly Match highQualityThreshold results lim customThreshold
  = true ->
  let page := processResults Match results
                (mkProcessOptions None (Some lim) None) in
  length page = Z.to_nat lim
  /\ Forall (fun r => (default highQualityThreshold customThreshold
                       <= score r)%Q) page.
Proof.
  unfold shouldStopEarly.
  destruct (Z.leb_spec lim 0) as [|Hlim]; [discriminate|].
  intros H. apply andb_prop in H as [Hhq Htotal].
  rewrite Z.geb_leb in Hhq, Htotal.
  apply Z.leb_le in Hhq, Htotal.
  unfold countHighQualityResults in Hhq. cbv zeta in Hhq.
  change (default highQualityThreshold
            (Some (default highQualityThreshold customThreshold)))
    with (default highQualityThreshold customThreshold) in Hhq.
  cbv zeta. unfold processResults. cbv zeta.
  cbn [minScore limit offset default].
  destruct (Z.ltb_spec 0 lim); [|lia].
  unfold applyPagination. destruct (Z.leb_spec lim 0); [lia|]. cbv zeta.
  change (Z.to_nat (if (0 <? 0)%Z then 0%Z else 0%Z)) with 0%nat.
  rewrite skipn_O. split.
  - rewrite length_firstn, sortByScore_length. lia.
  - apply descending_prefix; [apply sortByScore_sorted|].
    rewrite sortByScore_count. lia.
Qed.

End WithMatches.

Lemma applyPagination_tiles_witness :
  concat (List.map (fun i => applyPagination unit
                               [mkResult "a" 1 []; mkResult "b" (1 # 2) [];
                                mkResult "c" (1 # 3) []]
                               2 (Z.of_nat i * 2))
                   (seq 0 2))
  = firstn (2 * Z.to_nat 2)
           [mkResult "a" 1 []; mkResult "b" (1 # 2) []; mkResult "c" (1 # 3) []].
Proof.
  apply (proj1 (applyPagination_tiles
                  [mkResult "a" 1 []; mkResult "b" (1 # 2) [];
                   mkResult "c" (1 # 3) []] 2 2 ltac:(lia))).
Defined.


Lemma shouldStopEarly_full_page_witness :
  let results := [mkResult (Match := unit) "a" (3 # 4) [];
                  mkResult "b" (1 # 10) []; mkResult "c" (9 # 10) [];
                  mkResult "d" (1 # 5) []] in
  let page := processResults unit results
                (mkProcessOptions None (Some 2%Z) None) in
  length page = Z.to_nat 2
  /\ Forall (fun r => (default (7 # 10) None <= score r)%Q) page.
Proof.
  apply (shouldStopEarly_full_page (7 # 10)
           [mkResult (Match := unit) "a" (3 # 4) [];
            mkResult "b" (1 # 10) []; mkResult "c" (9 # 10) [];
            mkResult "d" (1 # 5) []] 2 None).
  reflexivity.
Defined.

Lemma processResults_page_witness :
  let page := processResults unit
                [mkResult "a" (3 # 4) []; mkResult "b" (1 # 10) [];
                 mkResult "c" (9 # 10) []; mkResult "d" (3 # 4) []]
                (mkProcessOptions (Some (1 # 2)) (Some 2%Z) (Some 1%Z)) in
  (forall r, In r page -> (1 # 2 <= score r)%Q)
  /\ (length page <= Z.to_nat 2)%nat.
Proof.
  destruct (processResults_page
              [mkResult (Match := unit) "a" (3 # 4) [];
               mkResult "b" (1 # 10) [];
               mkResult "c" (9 # 10) []; mkResult "d" (3 # 4) []]
              (mkProcessOptions (Some (1 # 2)) (Some 2%Z) (Some 1%Z)))
    as (_ & _ & Hmin & Hlim).
  split; [apply (Hmin (1 # 2)); reflexivity | apply (Hlim 2%Z); reflexivity].
Defined.

Example processResults_sample :
  List.map path
    (processResults unit
       [mkResult "a" (3 # 4) []; mkResult "b" (1 # 10) [];
        mkResult "c" (9 # 10) []; mkResult "d" (3 # 4) []]
       (mkProcessOptions (Some (1 # 2)) (Some 2%Z) (Some 1%Z)))
  = ["a"; "d"].
Proof. reflexivity. Qed.

End SearchResultFilterFacts.

(** ** MatchExtractor: which lines are reported, and how long a snippet is *)

Module MatchExtractorFacts.
Import Js JsFacts MatchExtractor.

(** The query occurs in [text] at offset [p], case ignored. *)
Definition occursAt (query text : string) (p : nat) : Prop :=
  String.prefix (toLowerCase query) (drop p (toLowerCase text)) = true.


Lemma indexOfAux_first (term : string) :
  forall (text : string) (i : nat),
    match indexOfAux term text i with
    | Some p =>
        i <= p /\ String.prefix term (drop (p - i) text) = true
        /\ forall j, j < p - i -> String.prefix term (drop j text) = false
    | None => forall j, String.prefix term (drop j text) = false
    end.
Proof.
  induction text as [|c t IH]; intros i; cbn [indexOfAux].
  - destruct (String.prefix term EmptyString) eqn:Hp.
    + split; [lia|]. rewrite Nat.sub_diag. split; [exact Hp | intros; lia].
    + intros j. rewrite drop_empty. exact Hp.
  - destruct (String.prefix term (String c t)) eqn:Hp.
    + split; [lia|]. rewrite Nat.sub_diag. split; [exact Hp | intros; lia].
    + specialize (IH (S i)).
      destruct (indexOfAux term t (S i)) as [p|].
      * destruct IH as (Hle & Hpre & Hbefore).
        split; [lia|]. replace (p - i) with (S (p - S i)) by lia.
        cbn [drop]. split; [exact Hpre|].
        intros [|j] Hj; [exact Hp | cbn [drop]; apply Hbefore; lia].
      * intros [|j]; [exact Hp | cbn [drop]; apply IH].
Qed.

Lemma firstIndex_spec (text query : string) :
  match firstIndex text query with
  | Some p => occursAt query text p
              /\ forall j, j < p -> ~ occursAt query text j
  | None => forall j, ~ occursAt query text j
  end.
Proof.
  unfold firstIndex, indexOf, occursAt. cbn [Nat.min drop].
  pose proof (indexOfAux_first (toLowerCase query) (toLowerCase text) 0) as H.
  destruct (indexOfAux (toLowerCase query) (toLowerCase text) 0) as [p|].
  - destruct H as (_ & Hpre & Hbefore). rewrite Nat.sub_0_r in *.
    split; [exact Hpre|]. intros j Hj. rewrite (Hbefore j Hj). discriminate.
  - intros j. rewrite H. discriminate.
Qed.

Section WithConfig.

Variable config : MatchExtractorConfig.
Variable lines : list string.
Variable query : string.
Variable n : Z.

(** What a reported match says of the line it comes from. *)
Definition describes (m : Match) (i : nat) (text : string) : Prop :=
  line m = (Z.of_nat i + 1)%Z
  /\ snippet m = highlightMatchWithRegex config text query
  /\ context m = extractContext lines (Z.of_nat i) n
  /\ exists p, column m = Z.of_nat p /\ occursAt query text p
               /\ forall j, j < p -> ~ occursAt query text j.

Lemma scanLines_sound :
  forall (rest : list string) (index : nat) (m : Match),
    In m (scanLines config lines query n index rest) ->
    exists k text, nth_error rest k = Some text
                   /\ describes m (index + k) text.
Proof.
  induction rest as [|text rest IH]; intros index m Hin; [destruct Hin|].
  cbn [scanLines] in Hin. pose proof (firstIndex_spec text query) as Hspec.
  destruct (firstIndex text query) as [p|].
  - destruct Hin as [<- | Hin].
    + exists 0, text. split; [reflexivity|]. rewrite Nat.add_0_r.
      repeat split. exists p. destruct Hspec. now repeat split.
    + destruct (IH _ _ Hin) as (k & t & Hk & Hd).
      exists (S k), t. split; [exact Hk|].
      now replace (index + S k) with (S index + k) by lia.
  - destruct (IH _ _ Hin) as (k & t & Hk & Hd).
    exists (S k), t. split; [exact Hk|].
    now replace (index + S k) with (S index + k) by lia.
Qed.

Lemma scanLines_complete :
  forall (rest : list string) (index k : nat) (text : string) (p : nat),
    nth_error rest k = Some text -> occursAt query text p ->
    exists m, In m (scanLines config lines query n index rest)
              /\ line m = (Z.of_nat (index + k) + 1)%Z.
Proof.
  induction rest as [|t rest IH]; intros index k text p Hk Hocc.
  - destruct k; discriminate.
  - cbn [scanLines]. destruct k as [|k].
    + injection Hk as ->. pose proof (firstIndex_spec text query) as Hspec.
      destruct (firstIndex text query) as [q|].
      * eexists; split; [left; reflexivity|]. cbn [line].
        now rewrite Nat.add_0_r.
      * destruct (Hspec p Hocc).
    + cbn [nth_error] in Hk.
      destruct (IH (S index) k text p Hk Hocc) as (m & Hin & Hl).
      exists m. replace (index + S k) with (S index + k) by lia.
      split; [|exact Hl].
      destruct (firstIndex t query); [right|]; exact Hin.
Qed.

Lemma scanLines_sorted :
  forall (rest : list string) (index : nat),
    StronglySorted Z.lt
      (List.map line (scanLines config lines query n index rest)).
Proof.
  induction rest as [|text rest IH]; intros index; [constructor|].
  cbn [scanLines]. destruct (firstIndex text query) as [p|]; [|apply IH].
  cbn [List.map line]. constructor; [apply IH|].
  apply List.Forall_forall. intros l Hl. apply in_map_iff in Hl as (m & <- & Hm).
  apply scanLines_sound in Hm as (k & t & _ & Hline & _). lia.
Qed.

End WithConfig.

(** X8.  For a non-empty query, [extractMatches] reports exactly the
    lines of the content in which the query occurs, case ignored: the
    line numbers are 1-based and strictly increasing (so each line is
    reported once), and every match carries the offset of the first
    occurrence in its line as column, the highlighted line as snippet
    and the context around its own line. *)
Theorem extractMatches_lines (config : MatchExtractorConfig)
        (content query : string) (contextOverride : option Z) :
  query <> EmptyString ->
  let found := extractMatches config content query contextOverride in
  let lines := splitChar "010"%char content in
  let n := default (contextLines config) contextOverride in
  StronglySorted Z.lt (List.map line found)
  /\ (forall i text, nth_error lines i = Some text ->
        ((exists p, occursAt query text p)
         <-> exists m, In m found /\ line m = (Z.of_nat i + 1)%Z))
  /\ (forall m, In m found ->
        exists i text, nth_error lines i = Some text
                       /\ describes config lines query n m i text).
Proof.
  intros Hq. cbv zeta. unfold extractMatches.
  apply isEmpty_false in Hq as Hq'. rewrite Hq', orb_false_r.
  destruct (isEmpty content) eqn:Hc.
  - destruct content; [|discriminate]. cbn [splitChar].
    split; [constructor|]. split; [|intros m []].
    intros [|i] text Hi; [|destruct i; discriminate].
    injection Hi as <-. split; [|intros (m & [] & _)].
    intros (p & Hp). unfold occursAt in Hp. cbn [toLowerCase] in Hp.
    rewrite drop_empty in Hp.
    destruct query; [congruence | discriminate].
  - cbv zeta. split; [apply scanLines_sorted|]. split.
    + intros i text Hi. split.
      * intros (p & Hp).
        apply (scanLines_complete config _ query _ _ 0 i text p Hi Hp).
      * intros (m & Hm & Hl).
        apply scanLines_sound in Hm as (k & t & Hk & Hline & _ & _ & p & _ & Hp & _).
        assert (k = i) as -> by lia.
        rewrite Hi in Hk. injection Hk as <-. now exists p.
    + intros m Hm. apply scanLines_sound in Hm as (k & t & Hk & Hd).
      now exists k, t.
Qed.

Lemma extractMatches_lines_witness :
  let found := extractMatches DEFAULT_CONFIG "say Hello" "hello" None in
  StronglySorted Z.lt (List.map line found)
  /\ List.map line found = [1%Z] /\ List.map column found = [4%Z].
Proof.
  split; [|split; reflexivity].
  apply (extractMatches_lines DEFAULT_CONFIG "say Hello" "hello" None).
  discriminate.
Defined.

(** *** The length of a snippet *)

Lemma substring_length_le (s : string) :
  forall a len, String.length (String.substring a len s) <= len.
Proof.
  induction s as [|c s IH]; intros a len.
  - destruct a, len; simpl; lia.
  - destruct a as [|a].
    + destruct len as [|len]; simpl; [lia|]. specialize (IH 0 len). lia.
    + simpl. apply IH.
Qed.

Lemma slice_length (s : string) (start stop : Z) :
  (0 <= start <= stop)%Z ->
  (Z.of_nat (String.length (slice s start stop)) <= stop - start)%Z.
Proof.
  intros H. unfold slice.
  destruct (Z.ltb_spec start 0); [lia|].
  destruct (Z.ltb_spec stop 0); [lia|].
  match goal with |- context [String.substring ?a ?l s] =>
    pose proof (substring_length_le s a l) end.
  lia.
Qed.

Lemma append_length (a b : string) :
  String.length (a ++ b) = String.length a + String.length b.
Proof. induction a as [|c a IH]; [reflexivity | simpl; now rewrite IH]. Qed.

Lemma indexOfAux_within (term : string) :
  forall (text : string) (i p : nat),
    indexOfAux term text i = Some p -> p <= i + String.length text.
Proof.
  induction text as [|c t IH]; intros i p; cbn [indexOfAux].
  - destruct (String.prefix term EmptyString); [|discriminate].
    intros [= <-]. lia.
  - destruct (String.prefix term (String c t)).
    + intros [= <-]. lia.
    + intros H. apply IH in H. cbn [String.length]. lia.
Qed.

Lemma truncateSnippet_length (config : MatchExtractorConfig) (s : string) :
  (0 <= maxSnippetLength config)%Z ->
  (Z.of_nat (String.length (truncateSnippet config s))
   <= maxSnippetLength config + 6)%Z.
Proof.
  intros Hmax. unfold truncateSnippet. cbv zeta.
  destruct (Z.leb_spec (Z.of_nat (String.length s)) (maxSnippetLength config));
    [lia|].
  assert (Hfallback :
            (Z.of_nat (String.length
                         (slice s 0 (maxSnippetLength config) ++ "..."))
             <= maxSnippetLength config + 6)%Z).
  { rewrite append_length. cbn [String.length].
    pose proof (slice_length s 0 (maxSnippetLength config)). lia. }
  destruct (indexOf s (highlightStart config) 0) as [[|p]|] eqn:Hpos;
    [exact Hfallback| |exact Hfallback].
  unfold indexOf in Hpos. cbn [Nat.min drop] in Hpos.
  apply indexOfAux_within in Hpos.
  set (start := Z.max 0 _). set (stop := Z.min _ _).
  pose proof (slice_length s start stop) as Hs.
  assert (Hrange : (0 <= start <= stop /\ stop - start
                    <= maxSnippetLength config)%Z).
  { unfold stop, start.
    pose proof (Z.div_pos (maxSnippetLength config) 2). lia. }
  destruct (0 <? start)%Z, (stop <? Z.of_nat (String.length s))%Z;
    rewrite ?append_length; cbn [String.length append];
    rewrite ?append_length; cbn [String.length]; lia.
Qed.

(** X9.  With a non-negative [maxSnippetLength], no snippet is longer
    than [maxSnippetLength + 6] characters (the two ellipses), whatever
    the line and the markers: this holds of [highlightMatchWithRegex] and
    of the snippet of every match [extractMatches] returns. *)
Theorem snippet_bounded (config : MatchExtractorConfig) :
  (0 <= maxSnippetLength config)%Z ->
  (forall text query,
      (Z.of_nat (String.length (highlightMatchWithRegex config text query))
       <= maxSnippetLength config + 6)%Z)
  /\ (forall content query contextOverride,
         Forall (fun m => (Z.of_nat (String.length (snippet m))
                           <= maxSnippetLength config + 6)%Z)
                (extractMatches config content query contextOverride)).
Proof.
  intros Hmax.
  assert (Hone : forall text query,
             (Z.of_nat (String.length
                          (highlightMatchWithRegex config text query))
              <= maxSnippetLength config + 6)%Z).
  { intros text query. unfold highlightMatchWithRegex.
    destruct (isEmpty text); [cbn [String.length]; lia|].
    now apply truncateSnippet_length. }
  split; [exact Hone|].
  intros content query contextOverride. apply List.Forall_forall. intros m Hm.
  unfold extractMatches in Hm.
  destruct (isEmpty content || isEmpty query); [destruct Hm|].
  apply scanLines_sound in Hm as (k & t & _ & _ & -> & _). apply Hone.
Qed.

Lemma snippet_bounded_witness :
  Forall (fun m => (Z.of_nat (String.length (snippet m)) <= 200 + 6)%Z)
         (extractMatches DEFAULT_CONFIG "say Hello" "hello" None).
Proof.
  apply (proj2 (snippet_bounded DEFAULT_CONFIG ltac:(cbn; lia))).
Defined.

(** *** What highlighting adds *)




End MatchExtractorFacts.

(** ** The LRU discipline of the in-memory maps *)

Module LruFacts.
Import JsMap.

Lemma delete_absent {V} (m : t V) (k : string) :
  ~ In k (keys m) -> delete m k = m.
Proof.
  unfold delete, keys.
  induction m as [|[a v] m IH]; simpl; intros H; [reflexivity|].
  destruct (String.eqb_spec a k) as [->|Hne]; [tauto|].
  simpl. f_equal. apply IH. tauto.
Qed.

Lemma keys_delete {V} (m : t V) (k : string) :
  keys (delete m k) = List.filter (fun a => negb (String.eqb a k)) (keys m).
Proof.
  unfold delete, keys. induction m as [|[a v] m IH]; simpl; [reflexivity|].
  destruct (String.eqb a k); simpl; congruence.
Qed.

Lemma delete_not_in_keys {V} (m : t V) (k : string) :
  ~ In k (keys (delete m k)).
Proof.
  rewrite keys_delete. intros H. apply filter_In in H as [_ H].
  rewrite String.eqb_refl in H. discriminate.
Qed.

Lemma NoDup_keys_delete {V} (m : t V) (k : string) :
  List.NoDup (keys m) -> List.NoDup (keys (delete m k)).
Proof. rewrite keys_delete. apply List.NoDup_filter. Qed.

Lemma set_absent {V} (m : t V) (k : string) (v : V) :
  ~ In k (keys m) -> set m k v = (m ++ [(k, v)])%list.
Proof.
  intros H. apply FileWatcherFacts.get_None_keys in H.
  unfold set, has. now rewrite H.
Qed.

Lemma keys_skipn {V} (n : nat) (m : t V) :
  keys (skipn n m) = skipn n (keys m).
Proof. unfold keys. symmetry. apply skipn_map. Qed.

Lemma In_skipn_incl {A} (n : nat) (l : list A) (x : A) :
  In x (skipn n l) -> In x l.
Proof.
  intros H. rewrite <- (firstn_skipn n l). apply in_or_app. now right.
Qed.

Lemma NoDup_skipn_suffix {A} (n : nat) (l : list A) :
  List.NoDup l -> List.NoDup (skipn n l).
Proof.
  intros H. rewrite <- (firstn_skipn n l) in H.
  now apply NoDup_app_remove_l in H.
Qed.

Lemma NoDup_keys_snoc {V} (m : t V) (k : string) (v : V) :
  List.NoDup (keys m) -> ~ In k (keys m) ->
  List.NoDup (keys (m ++ [(k, v)])%list).
Proof.
  intros Hnd Hk. unfold keys in *. rewrite map_app.
  apply List.NoDup_app; [exact Hnd | |].
  - constructor; [intros [] | constructor].
  - intros a Ha [<-|[]]. contradiction.
Qed.

Lemma size_delete_present {V} (m : t V) (k : string) :
  List.NoDup (keys m) -> In k (keys m) -> S (size (delete m k)) = size m.
Proof.
  induction m as [|[a v] m IH]; intros Hnd Hin; [destruct Hin|].
  cbn [keys List.map fst] in Hnd, Hin.
  inversion_clear Hnd as [|? ? Hna Hnd'].
  cbn [delete List.filter fst size length].
  destruct (String.eqb_spec a k) as [->|Hne]; cbn [negb length].
  - f_equal. pose proof (delete_absent m k Hna) as E.
    unfold delete in E. now rewrite E.
  - f_equal. apply IH; [exact Hnd'|]. destruct Hin; [contradiction | auto].
Qed.

(** On a map with distinct keys and a positive capacity the eviction
    loop keeps the [maxSize - 1] most recent entries. *)
Lemma evictOldest_lru {V} (maxSize : Z) :
  (0 < maxSize)%Z ->
  forall (fuel : nat) (m : t V),
    List.NoDup (keys m) -> size m <= fuel ->
    evictOldest maxSize fuel m
    = Some (skipn (size m - (Z.to_nat maxSize - 1)) m).
Proof.
  intros Hmax. induction fuel as [|fuel IH]; intros m Hnd Hsz.
  - destruct m; [|simpl in Hsz; lia].
    cbn [evictOldest size length]. rewrite Z.geb_leb.
    destruct (Z.leb_spec maxSize (Z.of_nat 0)); [lia | reflexivity].
  - cbn [evictOldest]. rewrite Z.geb_leb.
    destruct (Z.leb_spec maxSize (Z.of_nat (size m))) as [Hge|Hlt].
    + destruct m as [|[k v] m]; [simpl in Hge; lia|].
      cbn [keys List.map fst] in Hnd |- *.
      inversion_clear Hnd as [|? ? Hnk Hnd'].
      assert (E : delete ((k, v) :: m) k = m).
      { cbn [delete List.filter fst]. rewrite String.eqb_refl. cbn [negb].
        apply (delete_absent m k Hnk). }
      rewrite E, IH; [|exact Hnd' | simpl in Hsz; lia].
      f_equal. unfold size in *. cbn [length] in *.
      replace (S (length m) - (Z.to_nat maxSize - 1))
        with (S (length m - (Z.to_nat maxSize - 1))) by lia.
      reflexivity.
    + unfold size in *.
      replace (length m - (Z.to_nat maxSize - 1)) with 0 by lia.
      reflexivity.
Qed.

(** The entries other than [k] that a write of [k] keeps. *)
Definition survivors {V} (maxSize : Z) (m : t V) (k : string) : t V :=
  skipn (size (delete m k) - (Z.to_nat maxSize - 1)) (delete m k).

(** The body that the two [setInMemory] share. *)
Lemma setInMemory_body {V} (maxSize : Z) (m : t V) (k : string) (e : V) :
  (0 < maxSize)%Z -> List.NoDup (keys m) ->
  match evictOldest maxSize
          (S (size (if has m k then delete m k else m)))
          (if has m k then delete m k else m) with
  | Some m2 => Some (set m2 k e)
  | None => None
  end = Some (survivors maxSize m k ++ [(k, e)])%list.
Proof.
  intros Hmax Hnd.
  assert (E : (if has m k then delete m k else m) = delete m k).
  { destruct (has m k) eqn:Eh; [reflexivity|]. symmetry.
    apply delete_absent, FileWatcherFacts.get_None_keys.
    unfold has in Eh. now destruct (get m k). }
  rewrite E, (evictOldest_lru maxSize Hmax);
    [|now apply NoDup_keys_delete | lia].
  unfold survivors. rewrite set_absent; [reflexivity|].
  rewrite keys_skipn. intros H. apply In_skipn_incl in H.
  now apply delete_not_in_keys in H.
Qed.

Lemma survivors_NoDup {V} (maxSize : Z) (m : t V) (k : string) (e : V) :
  List.NoDup (keys m) ->
  List.NoDup (keys (survivors maxSize m k ++ [(k, e)])%list).
Proof.
  intros Hnd. unfold survivors. apply NoDup_keys_snoc.
  - rewrite keys_skipn. now apply NoDup_skipn_suffix, NoDup_keys_delete.
  - rewrite keys_skipn. intros H. apply In_skipn_incl in H.
    now apply delete_not_in_keys in H.
Qed.

Lemma survivors_size {V} (maxSize : Z) (m : t V) (k : string) (e : V) :
  (0 < maxSize)%Z ->
  (Z.of_nat (size (survivors maxSize m k ++ [(k, e)])%list) <= maxSize)%Z.
Proof.
  intros Hmax. unfold survivors, size.
  rewrite length_app, length_skipn. cbn [length]. lia.
Qed.

End LruFacts.

(** ** ContentCache: round trips, recency and metadata *)

Module ContentCacheLru.
Import ContentCache.

Lemma dedup_spec (l : list string) :
  forall seen,
    List.NoDup (dedup seen l)
    /\ forall x, In x (dedup seen l) <-> In x l /\ ~ In x seen.
Proof.
  induction l as [|a l IH]; intros seen; cbn [dedup].
  - split; [constructor | intros x; simpl; tauto].
  - destruct (existsb (String.eqb a) seen) eqn:E.
    + destruct (IH seen) as [Hnd Hin]. split; [exact Hnd|].
      intros x. rewrite Hin. apply existsb_exists in E as (y & Hy & Heq).
      apply String.eqb_eq in Heq as <-. simpl. split; [tauto|].
      intros [[<-|H] Hn]; tauto.
    + destruct (IH (a :: seen)) as [Hnd Hin].
      assert (Ha : ~ In a seen).
      { intros H. apply not_true_iff_false in E. apply E.
        apply existsb_exists. exists a. split; [exact H|].
        apply String.eqb_refl. }
      split.
      * constructor; [|exact Hnd]. rewrite Hin. simpl. tauto.
      * intros x. simpl. rewrite Hin. simpl.
        destruct (string_dec a x) as [->|Hne]; tauto.
Qed.

Section Lru.
Context {Unknown : Type}.
Variable maxSize : Z.

Local Abbreviation Map := (JsMap.t (ContentCacheEntry Unknown)).

(** X11.  The in-memory map of the content cache is kept in order of
    last use.  On a map with distinct keys and a positive capacity,
    [set] returns and leaves the [maxSize - 1] most recently used other
    entries followed by the new one, so that the map never holds more
    than [maxSize] entries; a [get] that hits moves the entry to the
    most recent position and returns its content. *)
Theorem lru_discipline (st : State Unknown) :
  (0 < maxSize)%Z -> List.NoDup (JsMap.keys (cache st)) ->
  (forall now path text m,
      exists s1 e,
        set Unknown maxSize now st path text m = Some s1
        /\ cache s1 = (LruFacts.survivors maxSize (cache st)
                                          (normalizePath path)
                       ++ [(normalizePath path, e)])%list
        /\ content e = text /\ mtime e = m
        /\ (Z.of_nat (JsMap.size (cache s1)) <= maxSize)%Z
        /\ List.NoDup (JsMap.keys (cache s1)))
  /\ (forall path e,
         JsMap.get (cache st) (normalizePath path) = Some e ->
         exists s1,
           get Unknown maxSize st path (mtime e)
           = Some (s1, Some (content e))
           /\ cache s1 = (JsMap.delete (cache st) (normalizePath path)
                          ++ [(normalizePath path, e)])%list
           /\ JsMap.size (cache s1) = JsMap.size (cache st)
           /\ List.NoDup (JsMap.keys (cache s1))).
Proof.
  intros Hmax Hnd. split.
  - intros now path text m. unfold set, setInMemory.
    rewrite (LruFacts.setInMemory_body maxSize) by assumption.
    eexists; eexists. split; [reflexivity|]. cbn [cache].
    split; [reflexivity|]. split; [reflexivity|]. split; [reflexivity|].
    split; [now apply LruFacts.survivors_size
           | now apply LruFacts.survivors_NoDup].
  - intros path e Hget. unfold get. rewrite Hget, Z.eqb_refl. cbn [negb].
    eexists. split; [reflexivity|]. cbn [cache].
    rewrite LruFacts.set_absent by apply LruFacts.delete_not_in_keys.
    split; [reflexivity|]. split.
    + unfold JsMap.size. rewrite length_app. cbn [length].
      rewrite Nat.add_1_r. apply LruFacts.size_delete_present; [exact Hnd|].
      destruct (in_dec string_dec (normalizePath path)
                       (JsMap.keys (cache st))) as [H|H]; [exact H|].
      apply FileWatcherFacts.get_None_keys in H. congruence.
    + apply LruFacts.NoDup_keys_snoc;
        [now apply LruFacts.NoDup_keys_delete
        | apply LruFacts.delete_not_in_keys].
Qed.

End Lru.

Definition sampleEntry (text : string) : ContentCacheEntry unit :=
  mkContentEntry unit text 1 None None None None.

Lemma lru_discipline_witness :
  let st := mkState [("a.md", sampleEntry "A"); ("b.md", sampleEntry "B")]
                    None in
  exists s1 s2,
    get unit 2 st "a.md" 1 = Some (s1, Some "A")
    /\ set unit 2 0 s1 "c.md" "C" 1 = Some s2
    /\ JsMap.keys (cache s2) = ["a.md"; "c.md"].
Proof.
  cbv zeta.
  destruct (proj2 (lru_discipline 2
                     (mkState [("a.md", sampleEntry "A");
                               ("b.md", sampleEntry "B")] None)
                     ltac:(lia)
                     ltac:(repeat constructor; simpl; intuition discriminate))
                  "a.md" (sampleEntry "A") eq_refl)
    as (s1 & Hget & Hcache & _).
  exists s1. eexists. split; [exact Hget|].
  destruct s1 as [c p]. cbn [cache] in Hcache. subst c.
  split; reflexivity.
Defined.

End ContentCacheLru.

(** ** ContentCache: what is stored with a note *)

Module ContentCacheMetadata.
Import ContentCache.

Section RoundTrip.
Context {Unknown : Type}.
Variable maxSize : Z.

(** X12.  With a positive capacity, [setWithMetadata] returns, and as
    long as the modification time is the same the note is served again,
    from memory and, after a restart, from an open partition: [get]
    returns the content, [getMetadata] the front matter given, the
    counts and inline tags of the content, and as [allTags] the
    front-matter tags and the inline tags, each once. *)
Theorem metadata_round_trip (now : Z) (st : State Unknown)
        (path text : string) (m : Z) (fm : CachedFrontmatter Unknown) :
  (0 < maxSize)%Z ->
  exists s1,
    setWithMetadata Unknown maxSize now st path text m fm = Some s1
    /\ forall s,
        s = s1
        \/ (s = restart Unknown s1
            /\ exists rows, persistentCache st = Some (Some rows)) ->
        exists s2 md,
          getMetadata Unknown maxSize s path m = Some (s2, Some md)
          /\ get Unknown maxSize s path m = Some (s2, Some text)
          /\ frontmatter md = Some fm
          /\ metaWordCount md = computeWordCount text
          /\ metaLineCount md = computeLineCount text
          /\ metaInlineTags md = extractInlineTags text
          /\ List.NoDup (allTags md)
          /\ forall t, In t (allTags md)
                       <-> In t (tags fm) \/ In t (extractInlineTags text).
Proof.
  intros Hmax. unfold setWithMetadata.
  set (entry := mkContentEntry Unknown text m (Some fm) _ _ _).
  destruct (ContentCacheFacts.setInMemory_lookup
              maxSize (cache st) (normalizePath path) entry Hmax)
    as (mem & -> & Hmem).
  eexists. split; [reflexivity|].
  assert (Htags :
            List.NoDup (dedup [] (tags fm ++ extractInlineTags text))
            /\ forall t, In t (dedup [] (tags fm ++ extractInlineTags text))
                         <-> In t (tags fm) \/ In t (extractInlineTags text)).
  { destruct (ContentCacheLru.dedup_spec
                (tags fm ++ extractInlineTags text) []) as [Hnd Hin].
    split; [exact Hnd|]. intros t. rewrite Hin, in_app_iff. simpl. tauto. }
  intros s [-> | [-> (rows & Hrows)]].
  - unfold getMetadata, getEntry, get. cbn [cache persistentCache].
    rewrite Hmem. cbn [mtime entry]. rewrite Z.eqb_refl. cbn [negb].
    eexists; eexists. split; [reflexivity|]. split; [reflexivity|].
    cbn [frontmatter metaWordCount metaLineCount metaInlineTags allTags
         parsedFrontmatter wordCount lineCount inlineTags entry default].
    repeat (split; [reflexivity|]). exact Htags.
  - unfold getMetadata, getEntry, get, restart.
    cbn [cache persistentCache JsMap.get find]. rewrite Hrows.
    cbn [fmap option_fmap option_map PersistentCache.set
         PersistentCache.getWithMtime].
    rewrite lookup_insert_eq.
    cbn [PersistentCache.mtime PersistentCache.data
         PersistentCache.mtimeDiffers].
    rewrite Z.eqb_refl. cbn [negb].
    destruct (ContentCacheFacts.setInMemory_lookup
                maxSize [] (normalizePath path) entry Hmax)
      as (mem' & -> & _).
    eexists; eexists. split; [reflexivity|]. split; [reflexivity|].
    cbn [frontmatter metaWordCount metaLineCount metaInlineTags allTags
         parsedFrontmatter wordCount lineCount inlineTags entry default].
    repeat (split; [reflexivity|]). exact Htags.
Qed.

End RoundTrip.

Lemma metadata_round_trip_witness :
  exists s1,
    setWithMetadata unit 100 5 (mkState [] (Some (Some ∅))) "notes\a.md"
                    "hello #Tag" 7 (mkFrontmatter ["project"] [] true)
    = Some s1
    /\ exists s2 md,
        getMetadata unit 100 (restart unit s1) "notes/a.md" 7
        = Some (s2, Some md)
        /\ allTags md = ["project"; "tag"].
Proof.
  destruct (metadata_round_trip 100 5 (mkState [] (Some (Some ∅)))
              "notes\a.md" "hello #Tag" 7
              (mkFrontmatter (Unknown := unit) ["project"] [] true)
              ltac:(lia)) as (s1 & Hset & _).
  exists s1. split; [exact Hset|].
  injection Hset as <-. eexists; eexists. split; reflexivity.
Defined.

(** *** Inline tags *)

Fixpoint allChars (p : ascii -> bool) (s : string) : bool :=
  match s with
  | EmptyString => true
  | String c t => p c && allChars p t
  end.

(** The text goes on with a character of a tag. *)
Definition continuesTag (s : string) : bool :=
  match s with
  | EmptyString => false
  | String c _ => isTagChar c
  end.

Lemma allChars_app (p : ascii -> bool) (a b : string) :
  allChars p (a ++ b) = allChars p a && allChars p b.
Proof.
  induction a as [|c a IH]; [reflexivity|]. simpl. now rewrite IH, andb_assoc.
Qed.

Lemma append_assoc (a b c : string) : ((a ++ b) ++ c = a ++ (b ++ c))%string.
Proof.
  induction a as [|x a IH]; [reflexivity|].
  change (String x ((a ++ b) ++ c) = String x (a ++ (b ++ c)))%string.
  now rewrite IH.
Qed.

Lemma append_empty_r (a : string) : (a ++ EmptyString)%string = a.
Proof.
  induction a as [|x a IH]; [reflexivity|].
  change (String x (a ++ EmptyString)%string = String x a). now rewrite IH.
Qed.

Lemma hash_not_tag : isTagChar "#"%char = false.
Proof. reflexivity. Qed.

(** Where a tag that [matchTags] reports was read. *)
Lemma matchTags_sound (text : string) :
  forall (cur : option string) (t : string),
    In t (matchTags cur text) ->
    t <> EmptyString
    /\ ((exists acc w rest,
            cur = Some acc /\ text = (w ++ rest)%string
            /\ allChars isTagChar w = true /\ t = (acc ++ w)%string)
        \/ (exists pre w rest,
               text = (pre ++ String "#" (w ++ rest))%string
               /\ allChars isTagChar w = true /\ t = w)).
Proof.
  assert (Hemit : forall tag t, In t (emitTag tag) -> t = tag /\ t <> EmptyString).
  { intros tag t. unfold emitTag. destruct tag; simpl; [tauto|].
    intros [<-|[]]. split; [reflexivity | discriminate]. }
  assert (Hshift : forall c text t,
             (exists pre w rest,
                 text = (pre ++ String "#" (w ++ rest))%string
                 /\ allChars isTagChar w = true /\ t = w) ->
             exists pre w rest,
               String c text = (pre ++ String "#" (w ++ rest))%string
               /\ allChars isTagChar w = true /\ t = w).
  { intros c tx t (pre & w & rest & -> & Hw & ->).
    exists (String c pre), w, rest.
    split; [reflexivity|]. split; [exact Hw | reflexivity]. }
  assert (Hfresh : forall c text t,
             Ascii.eqb c "#"%char = true ->
             (exists acc w rest,
                 Some EmptyString = Some acc /\ text = (w ++ rest)%string
                 /\ allChars isTagChar w = true /\ t = (acc ++ w)%string) ->
             exists pre w rest,
               String c text = (pre ++ String "#" (w ++ rest))%string
               /\ allChars isTagChar w = true /\ t = w).
  { intros c tx t Hc (acc & w & rest & [= <-] & -> & Hw & ->).
    apply Ascii.eqb_eq in Hc as ->.
    exists EmptyString, w, rest.
    split; [reflexivity|]. split; [exact Hw | reflexivity]. }
  induction text as [|c text IH]; intros cur t Hin; cbn [matchTags] in Hin.
  - destruct cur as [tag|]; [|destruct Hin].
    apply Hemit in Hin as [-> Hne]. split; [exact Hne|]. left.
    exists tag, EmptyString, EmptyString. rewrite (append_empty_r tag).
    split; [reflexivity|]. split; [reflexivity|]. split; reflexivity.
  - destruct cur as [tag|].
    + destruct (isTagChar c) eqn:Ec.
      * apply IH in Hin as [Hne [(acc & w & rest & [= <-] & -> & Hw & ->)|H]].
        -- split; [exact Hne|]. left.
           exists tag, (String c w), rest.
           split; [reflexivity|]. split; [reflexivity|].
           split; [cbn [allChars]; now rewrite Ec, Hw|].
           now rewrite append_assoc.
        -- split; [exact Hne|]. right. now apply Hshift.
      * apply in_app_or in Hin as [Hin|Hin].
        -- apply Hemit in Hin as [-> Hne]. split; [exact Hne|]. left.
           exists tag, EmptyString, (String c text).
           rewrite (append_empty_r tag).
           split; [reflexivity|]. split; [reflexivity|]. split; reflexivity.
        -- destruct (Ascii.eqb c "#"%char) eqn:Eh;
             apply IH in Hin as [Hne [H|H]]; (split; [exact Hne|]); right.
           ++ now apply Hfresh.
           ++ now apply Hshift.
           ++ destruct H as (? & ? & ? & [=] & _).
           ++ now apply Hshift.
    + destruct (Ascii.eqb c "#"%char) eqn:Eh;
        apply IH in Hin as [Hne [H|H]]; (split; [exact Hne|]); right.
      * now apply Hfresh.
      * now apply Hshift.
      * destruct H as (? & ? & ? & [=] & _).
      * now apply Hshift.
Qed.

(** A tag being read is reported when the text stops continuing it. *)
Lemma matchTags_reads (w : string) :
  forall (acc rest : string),
    allChars isTagChar w = true -> continuesTag rest = false ->
    (acc ++ w)%string <> EmptyString ->
    In (acc ++ w)%string (matchTags (Some acc) (w ++ rest)).
Proof.
  induction w as [|c w IH]; intros acc rest Hw Hrest Hne.
  - rewrite append_empty_r in *.
    change (EmptyString ++ rest)%string with rest.
    assert (Hemit : In acc (emitTag acc)).
    { unfold emitTag. destruct acc; [congruence | now left]. }
    destruct rest as [|d rest]; cbn [matchTags]; [exact Hemit|].
    cbn [continuesTag] in Hrest. rewrite Hrest.
    apply in_or_app. now left.
  - cbn [allChars] in Hw. apply andb_prop in Hw as [Hc Hw].
    change (String c w ++ rest)%string with (String c (w ++ rest)).
    cbn [matchTags]. rewrite Hc.
    replace (acc ++ String c w)%string
      with ((acc ++ String c EmptyString) ++ w)%string
      by (rewrite append_assoc; reflexivity).
    apply IH; [exact Hw | exact Hrest|].
    destruct acc; discriminate.
Qed.

Lemma matchTags_complete (pre : string) :
  forall (cur : option string) (w rest : string),
    w <> EmptyString -> allChars isTagChar w = true ->
    continuesTag rest = false ->
    In w (matchTags cur (pre ++ String "#" (w ++ rest))).
Proof.
  induction pre as [|c pre IH]; intros cur w rest Hne Hw Hrest.
  - change (EmptyString ++ String "#" (w ++ rest))%string
      with (String "#" (w ++ rest)).
    cbn [matchTags].
    pose proof (matchTags_reads w EmptyString rest Hw Hrest Hne) as H.
    change (EmptyString ++ w)%string with w in H.
    destruct cur as [tag|]; [|exact H].
    rewrite hash_not_tag. apply in_or_app. right. exact H.
  - change (String c pre ++ String "#" (w ++ rest))%string
      with (String c (pre ++ String "#" (w ++ rest))).
    cbn [matchTags]. destruct cur as [tag|].
    + destruct (isTagChar c); [now apply IH|].
      apply in_or_app. right. now apply IH.
    + now apply IH.
Qed.

Lemma lowerChar_idempotent (c : ascii) :
  Js.lowerChar (Js.lowerChar c) = Js.lowerChar c.
Proof. destruct c as [[] [] [] [] [] [] [] []]; reflexivity. Qed.

Lemma toLowerCase_idempotent (s : string) :
  Js.toLowerCase (Js.toLowerCase s) = Js.toLowerCase s.
Proof.
  induction s as [|c s IH]; [reflexivity|]. cbn [Js.toLowerCase].
  now rewrite lowerChar_idempotent, IH.
Qed.

(** X13.  [extractInlineTags] returns, each once and in lower case, the
    tags written in the text: every tag returned is the non-empty run of
    word characters, slashes and hyphens that follows some [#] of the
    text, and every [#] followed by such a run, taken to its end, gives
    a tag of the list. *)
Theorem extractInlineTags_spec (text : string) :
  List.NoDup (extractInlineTags text)
  /\ (forall tag, In tag (extractInlineTags text) ->
        tag <> EmptyString /\ Js.toLowerCase tag = tag
        /\ exists pre w rest,
            text = (pre ++ String "#" (w ++ rest))%string
            /\ allChars isTagChar w = true /\ tag = Js.toLowerCase w)
  /\ (forall pre w rest,
         text = (pre ++ String "#" (w ++ rest))%string ->
         w <> EmptyString -> allChars isTagChar w = true ->
         continuesTag rest = false ->
         In (Js.toLowerCase w) (extractInlineTags text)).
Proof.
  unfold extractInlineTags.
  destruct (ContentCacheLru.dedup_spec
              (List.map Js.toLowerCase (matchTags None text)) [])
    as [Hnd Hin].
  destruct (Js.isEmpty text) eqn:Ee.
  - destruct text; [|discriminate]. split; [constructor|].
    split; [intros tag []|].
    intros [|c pre] w rest H; discriminate.
  - split; [exact Hnd|]. split.
    + intros tag Ht. apply Hin in Ht as [Ht _].
      apply in_map_iff in Ht as (t & <- & Ht).
      apply matchTags_sound in Ht as [Hne [H|H]].
      * destruct H as (? & ? & ? & [=] & _).
      * split; [destruct t; [congruence | discriminate]|].
        split; [apply toLowerCase_idempotent|].
        destruct H as (pre & w & rest & -> & Hw & ->). now exists pre, w, rest.
    + intros pre w rest -> Hne Hw Hrest. apply Hin. split; [|intros []].
      apply in_map. now apply matchTags_complete.
Qed.

Lemma extractInlineTags_spec_witness :
  In (Js.toLowerCase "Work/Meeting")
     (extractInlineTags "see #Work/Meeting, then #todo").
Proof.
  apply (proj2 (proj2 (extractInlineTags_spec
                         "see #Work/Meeting, then #todo"))
               "see " "Work/Meeting" ", then #todo");
    (reflexivity || discriminate).
Defined.

End ContentCacheMetadata.

(** ** SearchResultCache: what is served, and until when *)

Module SearchResultCacheLife.
Import SearchResultCache.

Section Life.
Context {number Frontmatter SearchResult : Type}.
Variable numberToString : number -> string.
Variable jsonStringify : Frontmatter -> string.
Variable jsonByteLength : list SearchResult -> Z.
Variable deflateBase64 : list SearchResult -> option string.
Variable inflateParse : string -> Decoded SearchResult.
Variable options : SearchResultCacheOptions.

Local Abbreviation key :=
  (generateKey number numberToString Frontmatter jsonStringify).
Local Abbreviation cacheGet :=
  (get number numberToString Frontmatter jsonStringify SearchResult
       inflateParse options).
Local Abbreviation cacheSet :=
  (set number numberToString Frontmatter jsonStringify SearchResult
       jsonByteLength deflateBase64 options).

(** Inflating and parsing gives back what was deflated. *)
Definition codecInverts : Prop :=
  forall rs b, deflateBase64 rs = Some b ->
               inflateParse b = Parsed (ResultList rs).

(** The entry that [set] builds at time [now]. *)
Definition entryOf (now : Z) (rs : list SearchResult)
  : SearchCacheEntry SearchResult :=
  let '(data, compressed, size) :=
    maybeCompress SearchResult jsonByteLength deflateBase64 options rs in
  {| results := data; timestamp := now; isCompressed := compressed;
     originalSize := Some size |}.

Lemma entryOf_timestamp (now : Z) (rs : list SearchResult) :
  timestamp (entryOf now rs) = now.
Proof.
  unfold entryOf.
  now destruct (maybeCompress SearchResult jsonByteLength deflateBase64
                              options rs) as [[d c] sz].
Qed.

Lemma entryOf_decodes (now : Z) (rs : list SearchResult) :
  codecInverts ->
  maybeDecompress SearchResult inflateParse (entryOf now rs) = ResultList rs.
Proof.
  intros Hcodec. unfold entryOf, maybeCompress, maybeDecompress.
  destruct (negb (enableCompression options)
            || (jsonByteLength rs <? compressionThreshold options)%Z);
    [reflexivity|].
  destruct (deflateBase64 rs) as [b|] eqn:Eb; [|reflexivity].
  destruct (Z.of_nat (String.length b) <? jsonByteLength rs)%Z;
    [|reflexivity].
  cbn [results isCompressed negb]. now rewrite (Hcodec rs b Eb).
Qed.

Lemma set_entryOf (now : Z) (st : State SearchResult)
      (opts : SearchOptions number Frontmatter) (rs : list SearchResult) :
  (0 < maxSize options)%Z ->
  exists mem,
    cacheSet now st opts rs
    = Some {| cache := mem;
              persistentCache :=
                (fun db => PersistentCache.set now db (key opts)
                                               (entryOf now rs) None)
                  <$> persistentCache st |}
    /\ JsMap.get mem (key opts) = Some (entryOf now rs).
Proof.
  intros Hmax. unfold SearchResultCache.set, entryOf, setInMemory.
  destruct (maybeCompress SearchResult jsonByteLength deflateBase64
                          options rs) as [[d c] sz].
  match goal with
  | |- context [JsMap.evictOldest ?a ?b ?c] =>
      destruct (JsMapFacts.evictOldest_returns a Hmax b c) as [m2 ->]; [lia|]
  end.
  eexists. split; [reflexivity | apply JsMapFacts.get_set_eq].
Qed.

(** X14.  With a positive capacity and a codec that inverts, results
    stored by [set] are served by [get] for the same options as long as
    the entry is not older than the TTL, from memory and, after a
    restart, from an open partition. *)
Theorem set_then_get (now now' : Z) (st : State SearchResult)
        (opts : SearchOptions number Frontmatter) (rs : list SearchResult) :
  (0 < maxSize options)%Z -> codecInverts ->
  (now' - now <= ttl options)%Z ->
  exists s1,
    set number numberToString Frontmatter jsonStringify SearchResult
        jsonByteLength deflateBase64 options now st opts rs = Some s1
    /\ (exists s2, cacheGet now' s1 opts = Some (s2, Results rs))
    /\ (forall rows,
           persistentCache st = Some (Some rows) ->
           exists s2,
             cacheGet now' (restart SearchResult s1) opts
             = Some (s2, Results rs)).
Proof.
  intros Hmax Hcodec Hage.
  destruct (set_entryOf now st opts rs Hmax) as (mem & -> & Hmem).
  eexists. split; [reflexivity|]. split.
  - unfold SearchResultCache.get. cbn [cache]. rewrite Hmem.
    rewrite entryOf_timestamp.
    destruct (Z.gtb_spec (now' - now) (ttl options)); [lia|].
    rewrite entryOf_decodes by assumption. eauto.
  - intros rows Hrows. unfold SearchResultCache.get, restart.
    cbn [cache persistentCache JsMap.get find]. rewrite Hrows.
    cbn [fmap option_fmap option_map PersistentCache.set
         PersistentCache.getWithTtl].
    rewrite lookup_insert_eq.
    cbn [PersistentCache.timestamp PersistentCache.data].
    destruct (Z.gtb_spec (now' - now) (ttl options)); [lia|].
    destruct (SearchResultCacheFacts.setInMemory_returns
                options [] (key opts) (entryOf now rs) Hmax) as [m ->].
    rewrite entryOf_decodes by assumption. eauto.
Qed.

(** X15.  Once an entry is older than the TTL, [get] answers [null],
    from memory as after a restart, and removes the entry from the
    in-memory map and from the partition. *)
Theorem get_expired (now now' : Z) (st : State SearchResult)
        (opts : SearchOptions number Frontmatter) (rs : list SearchResult) :
  (0 < maxSize options)%Z -> (ttl options < now' - now)%Z ->
  exists s1,
    set number numberToString Frontmatter jsonStringify SearchResult
        jsonByteLength deflateBase64 options now st opts rs = Some s1
    /\ forall s, s = s1 \/ s = restart SearchResult s1 ->
         exists s2,
           cacheGet now' s opts = Some (s2, Null)
           /\ JsMap.get (cache s2) (key opts) = None
           /\ forall db, persistentCache s2 = Some db ->
                         PersistentCache.get db (key opts) = None.
Proof.
  intros Hmax Hage.
  destruct (set_entryOf now st opts rs Hmax) as (mem & -> & Hmem).
  eexists. split; [reflexivity|]. intros s [-> | ->].
  - unfold SearchResultCache.get. cbn [cache persistentCache]. rewrite Hmem.
    rewrite entryOf_timestamp.
    destruct (Z.gtb_spec (now' - now) (ttl options)); [|lia].
    eexists. split; [reflexivity|]. cbn [cache persistentCache].
    split; [apply JsMapFacts.get_delete_eq|].
    intros db Hdb. destruct (persistentCache st) as [[rows|]|];
      simplify_eq/=; [|reflexivity].
    now rewrite lookup_delete_eq.
  - unfold SearchResultCache.get, restart.
    cbn [cache persistentCache JsMap.get find].
    destruct (persistentCache st) as [[rows|]|];
      cbn [fmap option_fmap option_map PersistentCache.set
           PersistentCache.getWithTtl].
    + rewrite lookup_insert_eq. cbn [PersistentCache.timestamp].
      destruct (Z.gtb_spec (now' - now) (ttl options)); [|lia].
      eexists. split; [reflexivity|]. cbn [cache persistentCache].
      split; [reflexivity|]. intros db [= <-]. cbn.
      now rewrite lookup_delete_eq.
    + eexists. split; [reflexivity|]. split; [reflexivity|].
      now intros db [= <-].
    + eexists. split; [reflexivity|]. split; [reflexivity|]. discriminate.
Qed.

(** X16.  After [invalidate] nothing is served: for every options
    record and at every time [get] answers [null], whatever the
    in-memory map and the partition held. *)
Theorem invalidate_then_get (now : Z) (st : State SearchResult)
        (opts : SearchOptions number Frontmatter) :
  exists s2,
    get number numberToString Frontmatter jsonStringify SearchResult
        inflateParse options now (invalidate SearchResult st) opts
    = Some (s2, Null).
Proof.
  apply SearchResultCacheFacts.get_never_stored; [reflexivity|].
  intros db. unfold invalidate. cbn [persistentCache].
  destruct (persistentCache st) as [[rows|]|]; intros [= <-]; reflexivity.
Qed.

End Life.

Lemma set_then_get_witness :
  exists s1,
    set Z (fun _ => "7") unit (fun _ => "{}") string
        (fun _ => 200000%Z)
        (fun rs => if decide (rs = ["a.md"]) then Some "AAAA" else None)
        (mkCacheOptions 50 30000 true 100000) 1000
        (mkState [] (Some (Some ∅)))
        (mkOptions (Some "meeting") None None None None None None None)
        ["a.md"]
    = Some s1
    /\ (exists s2,
           get Z (fun _ => "7") unit (fun _ => "{}") string
               (fun _ => Parsed (ResultList ["a.md"]))
               (mkCacheOptions 50 30000 true 100000) 2000 s1
               (mkOptions (Some "meeting") None None None None None None None)
           = Some (s2, Results ["a.md"])).
Proof.
  destruct (set_then_get
              (fun _ : Z => "7") (fun _ : unit => "{}")
              (fun _ : list string => 200000%Z)
              (fun rs => if decide (rs = ["a.md"]) then Some "AAAA" else None)
              (fun _ => Parsed (ResultList ["a.md"]))
              (mkCacheOptions 50 30000 true 100000) 1000 2000
              (mkState [] (Some (Some ∅)))
              (mkOptions (Some "meeting") None None None None None None None)
              ["a.md"])
    as (s1 & Hset & Hget & _).
  - cbn. lia.
  - intros rs b H. destruct (decide (rs = ["a.md"])) as [->|]; [|discriminate].
    reflexivity.
  - cbn. lia.
  - exists s1. split; [|exact Hget].
    injection Hset as <-. reflexivity.
Defined.

Lemma get_expired_witness :
  exists s1,
    set Z (fun _ => "7") unit (fun _ => "{}") string
        (fun _ => 10%Z) (fun _ => None)
        (mkCacheOptions 50 30000 true 100000) 1000
        (mkState [] (Some (Some ∅)))
        (mkOptions (Some "meeting") None None None None None None None)
        ["a.md"]
    = Some s1
    /\ exists s2,
        get Z (fun _ => "7") unit (fun _ => "{}") string (fun _ => Threw)
            (mkCacheOptions 50 30000 true 100000) 40000 s1
            (mkOptions (Some "meeting") None None None None None None None)
        = Some (s2, Null).
Proof.
  destruct (get_expired
              (fun _ : Z => "7") (fun _ : unit => "{}")
              (fun _ : list string => 10%Z) (fun _ => None) (fun _ => Threw)
              (mkCacheOptions 50 30000 true 100000) 1000 40000
              (mkState [] (Some (Some ∅)))
              (mkOptions (Some "meeting") None None None None None None None)
              ["a.md"] ltac:(cbn; lia) ltac:(cbn; lia))
    as (s1 & Hset & Hget).
  exists s1. split; [exact Hset|].
  destruct (Hget s1 (or_introl eq_refl)) as (s2 & H & _). now exists s2.
Defined.

End SearchResultCacheLife.

(** ** FileListCache: what is served, and until when *)

Module FileListCacheLife.
Import FileListCache.


(** The partition is there and its database is open. *)
Definition partitionOpen (st : State) : bool :=
  match persistentCache st with
  | Some (Some _) => true
  | _ => false
  end.

Section WithTtl.
Variable ttl : Z.

(** X17.  A listing stored by [set] is served for every spelling of the
    folder that normalises to the same key while it is younger than the
    TTL, and is dropped from memory and partition once it is older.  At
    an age of exactly the TTL the in-memory entry counts as expired and
    the row of the partition as valid, so that the listing is served
    when a partition is open and not otherwise. *)
Theorem set_then_get_by_age (now now' : Z) (st : State)
        (folder folder' : string) (fs : list string) :
  normalizeFolder folder' = normalizeFolder folder ->
  let s1 := set now st folder fs in
  let answer := get ttl now' s1 folder' in
  ((now' - now < ttl)%Z -> snd answer = Some fs)
  /\ ((now' - now = ttl)%Z ->
      snd answer = if partitionOpen st then Some fs else None)
  /\ ((ttl < now' - now)%Z ->
      snd answer = None
      /\ JsMap.get (cache (fst answer)) (normalizeFolder folder) = None
      /\ forall db, persistentCache (fst answer) = Some db ->
                    PersistentCache.get db (normalizeFolder folder) = None).
Proof.
  intros Hnf. cbv zeta. unfold get, set. rewrite Hnf.
  cbn [cache persistentCache]. rewrite JsMapFacts.get_set_eq.
  unfold isEntryValid. cbn [timestamp files].
  split; [|split].
  - intros Hage. destruct (Z.ltb_spec (now' - now) ttl); [reflexivity | lia].
  - intros Hage. destruct (Z.ltb_spec (now' - now) ttl); [lia|].
    unfold partitionOpen.
    destruct (persistentCache st) as [[rows|]|];
      cbn [fmap option_fmap option_map PersistentCache.set
           PersistentCache.getWithTtl]; [|reflexivity..].
    rewrite lookup_insert_eq.
    cbn [PersistentCache.timestamp PersistentCache.data].
    destruct (Z.gtb_spec (now' - now) ttl); [lia | reflexivity].
  - intros Hage. destruct (Z.ltb_spec (now' - now) ttl); [lia|].
    destruct (persistentCache st) as [[rows|]|];
      cbn [fmap option_fmap option_map PersistentCache.set
           PersistentCache.getWithTtl].
    + rewrite lookup_insert_eq. cbn [PersistentCache.timestamp].
      destruct (Z.gtb_spec (now' - now) ttl); [|lia].
      cbn [fst snd cache persistentCache].
      split; [reflexivity|]. split; [apply JsMapFacts.get_delete_eq|].
      intros db [= <-]. cbn. now rewrite lookup_delete_eq.
    + cbn [fst snd cache persistentCache].
      split; [reflexivity|]. split; [apply JsMapFacts.get_delete_eq|].
      now intros db [= <-].
    + cbn [fst snd cache persistentCache].
      split; [reflexivity|]. split; [apply JsMapFacts.get_delete_eq|].
      discriminate.
Qed.

(** X18.  [isValid] and [get] agree in every state: [isValid(folder)]
    is true exactly when [get(folder)] returns a listing. *)
Theorem isValid_iff_get (now : Z) (st : State) (folder : string) :
  snd (isValid ttl now st folder)
  = match snd (get ttl now st folder) with
    | Some _ => true
    | None => false
    end.
Proof.
  unfold isValid, get. cbv zeta.
  destruct (JsMap.get (cache st) (normalizeFolder folder)) as [e|].
  - destruct (isEntryValid ttl now e); [reflexivity|].
    destruct (persistentCache st) as [db|]; [|reflexivity].
    destruct (PersistentCache.getWithTtl now db (normalizeFolder folder) ttl)
      as [db' [found|]]; reflexivity.
  - destruct (persistentCache st) as [db|]; [|reflexivity].
    destruct (PersistentCache.getWithTtl now db (normalizeFolder folder) ttl)
      as [db' [found|]]; reflexivity.
Qed.


End WithTtl.

Lemma set_then_get_by_age_witness :
  snd (get 60000 60000 (set 0 (mkState [] (Some (Some ∅))) "Notes\Sub/" ["x.md"])
           "notes/sub")
  = Some ["x.md"]
  /\ snd (get 60000 60000 (set 0 (mkState [] None) "Notes\Sub/" ["x.md"])
              "notes/sub")
     = None.
Proof.
  split.
  - apply (proj1 (proj2 (set_then_get_by_age
                           60000 0 60000 (mkState [] (Some (Some ∅)))
                           "Notes\Sub/" "notes/sub" ["x.md"] eq_refl))).
    reflexivity.
  - reflexivity.
Defined.


End FileListCacheLife.

(** ** InvertedIndex: what a search finds *)

Module InvertedIndexSearch.
Import InvertedIndex.

Lemma intersect_elem (setA setB : gset string) (x : string) :
  x ∈ intersect setA setB <-> x ∈ setA /\ x ∈ setB.
Proof.
  unfold intersect. destruct (Nat.leb (size setA) (size setB));
    rewrite elem_of_filter; tauto.
Qed.

Lemma size_zero_no_elem (X : gset string) (x : string) :
  size X = 0 -> x ∈ X -> False.
Proof. intros H Hx. apply size_empty_iff in H. set_solver. Qed.

Lemma searchLoop_elem (wtf : gmap string (gset string)) (ws : list string) :
  forall (acc : option (gset string)) (p : string),
    p ∈ searchLoop wtf ws acc
    <-> (forall w, In w ws -> exists fs, wtf !! w = Some fs /\ p ∈ fs)
        /\ match acc with
           | Some found => p ∈ found
           | None => ws <> []
           end.
Proof.
  induction ws as [|a ws IH]; intros acc p; cbn [searchLoop].
  - destruct acc as [found|]; cbn [default].
    + split; [intros H; split; [intros w [] | exact H] | tauto].
    + split; [intros H; now apply elem_of_empty in H|].
      intros [_ H]. congruence.
  - destruct (wtf !! a) as [fs|] eqn:Ea.
    + assert (Hhead : forall q,
                 (forall w, In w (a :: ws) ->
                            exists fs', wtf !! w = Some fs' /\ q ∈ fs') ->
                 q ∈ fs).
      { intros q H. destruct (H a (or_introl eq_refl)) as (fs' & Hfs & Hq).
        rewrite Ea in Hfs. now injection Hfs as <-. }
      destruct (decide (size fs = 0)) as [Hz|Hnz].
      * split; [intros H; now apply elem_of_empty in H|].
        intros [H _]. exfalso. apply (size_zero_no_elem fs p Hz). auto.
      * destruct acc as [found|].
        -- cbv zeta.
           destruct (decide (size (intersect found fs) = 0)) as [Hz'|Hnz'].
           ++ split; [intros H; now apply elem_of_empty in H|].
              intros [H Hf]. exfalso.
              apply (size_zero_no_elem _ p Hz'). apply intersect_elem. auto.
           ++ rewrite IH, intersect_elem. split.
              ** intros [Hrest [Hf Hp]]. split; [|exact Hf].
                 intros w [<-|Hw]; [eauto | auto].
              ** intros [H Hf].
                 split; [intros w Hw; apply H; now right | auto].
        -- rewrite IH. split.
           ++ intros [Hrest Hp]. split; [|discriminate].
              intros w [<-|Hw]; [eauto | auto].
           ++ intros [H _]. split; [intros w Hw; apply H; now right | auto].
    + split; [intros H; now apply elem_of_empty in H|].
      intros [H _]. destruct (H a (or_introl eq_refl)) as (fs' & Hfs & _).
      congruence.
Qed.

Lemma searchAnyLoop_elem (wtf : gmap string (gset string))
      (ws : list string) :
  forall (acc : gset string) (p : string),
    p ∈ fold_left (fun resultFiles word =>
                     match wtf !! word with
                     | Some filesWithWord => resultFiles ∪ filesWithWord
                     | None => resultFiles
                     end) ws acc
    <-> p ∈ acc
        \/ exists w fs, In w ws /\ wtf !! w = Some fs /\ p ∈ fs.
Proof.
  induction ws as [|a ws IH]; intros acc p; cbn [fold_left].
  - split; [tauto|]. intros [H | (w & fs & [] & _)]. exact H.
  - rewrite IH. destruct (wtf !! a) as [fs|] eqn:Ea.
    + rewrite elem_of_union. split.
      * intros [[H|H] | (w & fs' & Hw & Hfs & Hp)]; [tauto | |].
        -- right. exists a, fs. simpl. tauto.
        -- right. exists w, fs'. simpl. tauto.
      * intros [H | (w & fs' & [<-|Hw] & Hfs & Hp)]; [tauto | |].
        -- rewrite Ea in Hfs. injection Hfs as <-. tauto.
        -- right. now exists w, fs'.
    + split.
      * intros [H | (w & fs' & Hw & Hfs & Hp)]; [tauto|].
        right. exists w, fs'. simpl. tauto.
      * intros [H | (w & fs' & [<-|Hw] & Hfs & Hp)]; [tauto | congruence |].
        right. now exists w, fs'.
Qed.

Lemma elements_nonempty (X : gset string) :
  elements X <> [] <-> exists w, w ∈ X.
Proof.
  split.
  - destruct (elements X) as [|w l] eqn:E; [congruence|]. intros _.
    exists w. apply elem_of_elements. rewrite E. left.
  - intros (w & Hw) E. apply elem_of_elements in Hw. rewrite E in Hw.
    now apply elem_of_nil in Hw.
Qed.

Section WithOptions.
Variable options : InvertedIndexOptions.

Lemma search_elem (st : State) (query p : string) :
  p ∈ search options st query
  <-> enabled st = true /\ query <> EmptyString
      /\ (exists w, w ∈ extractWords options query)
      /\ forall w, w ∈ extractWords options query -> fileOfWord st w p.
Proof.
  unfold search. destruct (enabled st); cbn [negb orb].
  2: { split; [intros H; now apply elem_of_empty in H | intros [? _]; congruence]. }
  destruct query as [|c q]; cbn [Js.isEmpty].
  { split; [intros H; now apply elem_of_empty in H | intros (_ & ? & _); congruence]. }
  cbv zeta.
  destruct (decide (size (extractWords options (String c q)) = 0)) as [Hz|Hnz].
  - split; [intros H; now apply elem_of_empty in H|].
    intros (_ & _ & (w & Hw) & _). exfalso.
    now apply (size_zero_no_elem _ w Hz).
  - rewrite searchLoop_elem, elements_nonempty. unfold fileOfWord. split.
    + intros [Hall Hex]. repeat split; [discriminate | exact Hex|].
      intros w Hw. apply Hall. now apply list_elem_of_In, elem_of_elements.
    + intros (_ & _ & Hex & Hall). split; [|exact Hex].
      intros w Hw. apply Hall. now apply elem_of_elements, list_elem_of_In.
Qed.

Lemma searchAny_elem (st : State) (query p : string) :
  p ∈ searchAny options st query
  <-> enabled st = true /\ query <> EmptyString
      /\ exists w, w ∈ extractWords options query /\ fileOfWord st w p.
Proof.
  unfold searchAny. destruct (enabled st); cbn [negb orb].
  2: { split; [intros H; now apply elem_of_empty in H | intros [? _]; congruence]. }
  destruct query as [|c q]; cbn [Js.isEmpty].
  { split; [intros H; now apply elem_of_empty in H | intros (_ & ? & _); congruence]. }
  cbv zeta.
  destruct (decide (size (extractWords options (String c q)) = 0)) as [Hz|Hnz].
  - split; [intros H; now apply elem_of_empty in H|].
    intros (_ & _ & w & Hw & _). exfalso.
    now apply (size_zero_no_elem _ w Hz).
  - rewrite searchAnyLoop_elem. unfold fileOfWord. split.
    + intros [H | (w & fs & Hw & Hfs & Hp)]; [now apply elem_of_empty in H|].
      repeat split; [discriminate|]. exists w.
      split; [now apply elem_of_elements, list_elem_of_In | eauto].
    + intros (_ & _ & w & Hw & fs & Hfs & Hp). right. exists w, fs.
      split; [now apply list_elem_of_In, elem_of_elements | auto].
Qed.

(** X20.  In every state the index goes through, [search] returns
    exactly the files for which every word of the query is among the
    words indexed for the file; it returns nothing when the index is
    disabled, the query is empty or no word of the query is kept. *)
Theorem search_all_words (st : State) (query p : string) :
  reachable options st ->
  (p ∈ search options st query
   <-> enabled st = true /\ query <> EmptyString
       /\ (exists w, w ∈ extractWords options query)
       /\ forall w, w ∈ extractWords options query -> wordOfFile st w p).
Proof.
  intros Hreach.
  pose proof (InvertedIndexFacts.reachable_mirrored options st Hreach) as Hm.
  rewrite search_elem. split.
  - intros (He & Hq & Hex & Hall). repeat split; auto.
    intros w Hw. apply Hm. auto.
  - intros (He & Hq & Hex & Hall). repeat split; auto.
    intros w Hw. apply Hm. auto.
Qed.

(** X21.  In every state the index goes through, [searchAny] returns
    exactly the files for which some word of the query is among the
    words indexed for the file, and so at least what [search] returns. *)
Theorem searchAny_some_word (st : State) (query : string) :
  reachable options st ->
  (forall p,
      p ∈ searchAny options st query
      <-> enabled st = true /\ query <> EmptyString
          /\ exists w, w ∈ extractWords options query /\ wordOfFile st w p)
  /\ search options st query ⊆ searchAny options st query.
Proof.
  intros Hreach.
  pose proof (InvertedIndexFacts.reachable_mirrored options st Hreach) as Hm.
  split.
  - intros p. rewrite searchAny_elem. split.
    + intros (He & Hq & w & Hw & Hf). repeat split; auto.
      exists w. split; [exact Hw | now apply Hm].
    + intros (He & Hq & w & Hw & Hf). repeat split; auto.
      exists w. split; [exact Hw | now apply Hm].
  - intros p. rewrite search_elem, searchAny_elem.
    intros (He & Hq & (w & Hw) & Hall). repeat split; auto.
    exists w. auto.
Qed.

(** *** The words that are indexed *)

(** A character of an indexed word: a word character in lower case. *)
Definition isIndexChar (c : ascii) : bool :=
  negb (isSeparator c) && Ascii.eqb (Js.lowerChar c) c.

Lemma splitRuns_pieces (s : string) :
  forall (inRun : bool) (cur : string),
    ContentCacheMetadata.allChars isIndexChar cur = true ->
    ContentCacheMetadata.allChars
      (fun c => Ascii.eqb (Js.lowerChar c) c) s = true ->
    List.Forall
      (fun piece => ContentCacheMetadata.allChars isIndexChar piece = true)
      (Js.splitRuns isSeparator inRun cur s).
Proof.
  induction s as [|c s IH]; intros inRun cur Hcur Hs; cbn [Js.splitRuns].
  - now constructor.
  - cbn [ContentCacheMetadata.allChars] in Hs.
    apply andb_prop in Hs as [Hc Hs].
    destruct (isSeparator c) eqn:Esep.
    + destruct inRun; [now apply IH|].
      constructor; [exact Hcur | now apply IH].
    + apply IH; [|exact Hs].
      rewrite ContentCacheMetadata.allChars_app, Hcur.
      cbn [ContentCacheMetadata.allChars]. unfold isIndexChar.
      now rewrite Esep, Hc.
Qed.

Lemma toLowerCase_lower (s : string) :
  ContentCacheMetadata.allChars
    (fun c => Ascii.eqb (Js.lowerChar c) c) (Js.toLowerCase s) = true.
Proof.
  induction s as [|c s IH]; [reflexivity|].
  cbn [Js.toLowerCase ContentCacheMetadata.allChars].
  rewrite ContentCacheMetadata.lowerChar_idempotent, Ascii.eqb_refl.
  exact IH.
Qed.

Lemma collectWords_elem (raw : list string) :
  forall (count : Z) (words : gset string) (w : string),
    w ∈ collectWords options raw count words ->
    w ∈ words
    \/ (In w raw /\ (minWordLength options <= Z.of_nat (String.length w))%Z
        /\ w ∉ stopWords options).
Proof.
  induction raw as [|a raw IH]; intros count words w Hw;
    cbn [collectWords] in Hw; [now left|].
  destruct (Z.ltb_spec (Z.of_nat (String.length a)) (minWordLength options))
    as [Hshort|Hlong].
  { apply IH in Hw as [Hin|(Hin & ?)]; [now left | right; simpl; tauto]. }
  destruct (decide (a ∈ stopWords options)) as [Hstop|Hkept].
  { apply IH in Hw as [Hin|(Hin & ?)]; [now left | right; simpl; tauto]. }
  cbv zeta in Hw.
  assert (Hadd : w ∈ words ∪ {[a]} ->
                 w ∈ words
                 \/ (In w (a :: raw)
                     /\ (minWordLength options
                         <= Z.of_nat (String.length w))%Z
                     /\ w ∉ stopWords options)).
  { intros H'. apply elem_of_union in H' as [H'|H']; [now left|].
    apply elem_of_singleton in H' as ->. right. simpl. tauto. }
  destruct (count + 1 >=? maxWordsPerFile options)%Z; [now apply Hadd|].
  apply IH in Hw as [Hin|(Hin & ?)]; [now apply Hadd | right; simpl; tauto].
Qed.

Lemma collectWords_size (raw : list string) :
  forall (count : Z) (words : gset string),
    (Z.of_nat (size words) <= count)%Z ->
    (count < maxWordsPerFile options \/ count = 0)%Z ->
    (Z.of_nat (size (collectWords options raw count words))
     <= Z.max 1 (maxWordsPerFile options))%Z.
Proof.
  induction raw as [|a raw IH]; intros count words Hsize Hcount;
    cbn [collectWords]; [lia|].
  destruct (Z.of_nat (String.length a) <? minWordLength options)%Z;
    [now apply IH|].
  destruct (decide (a ∈ stopWords options)); [now apply IH|].
  cbv zeta.
  assert (Hadd : (Z.of_nat (size (words ∪ {[a]})) <= count + 1)%Z).
  { rewrite (size_union_alt words {[a]}).
    assert (Hsub : ({[a]} : gset string) ∖ words ⊆ {[a]}) by set_solver.
    apply subseteq_size in Hsub. rewrite size_singleton in Hsub. lia. }
  rewrite Z.geb_leb.
  destruct (Z.leb_spec (maxWordsPerFile options) (count + 1)); [lia|].
  apply IH; [exact Hadd | lia].
Qed.

Lemma indexChars_word (w : string) :
  ContentCacheMetadata.allChars isIndexChar w = true ->
  ContentCacheMetadata.allChars Js.isWordChar w = true
  /\ Js.toLowerCase w = w.
Proof.
  induction w as [|c w IH]; intros Hp; [split; reflexivity|].
  cbn [ContentCacheMetadata.allChars] in Hp.
  apply andb_prop in Hp as [Hc Hp]. unfold isIndexChar in Hc.
  apply andb_prop in Hc as [Hsep Hlow]. apply Ascii.eqb_eq in Hlow.
  unfold isSeparator in Hsep. apply negb_true_iff, orb_false_iff in Hsep.
  destruct Hsep as [_ Hword]. apply negb_false_iff in Hword.
  cbn [ContentCacheMetadata.allChars Js.toLowerCase]. rewrite Hword, Hlow.
  destruct (IH Hp) as [-> ->]. now split.
Qed.

Lemma extractWords_elem (text w : string) :
  w ∈ extractWords options text ->
  (minWordLength options <= Z.of_nat (String.length w))%Z
  /\ (w ∉ stopWords options)
  /\ ContentCacheMetadata.allChars isIndexChar w = true.
Proof.
  intros Hw. unfold extractWords in Hw.
  apply collectWords_elem in Hw as [Hw | (Hin & Hlen & Hstop)];
    [now apply elem_of_empty in Hw|].
  split; [exact Hlen|]. split; [exact Hstop|].
  pose proof (splitRuns_pieces (Js.toLowerCase text) false EmptyString
                               eq_refl (toLowerCase_lower text)) as Hp.
  rewrite List.Forall_forall in Hp. now apply Hp.
Qed.

(** X22.  Every word [extractWords] keeps is at least [minWordLength]
    long, is no stop word and is made of word characters in lower case;
    and at most [maxWordsPerFile] words are kept (one, when that limit
    is below 1). *)
Theorem extractWords_shape (text : string) :
  (forall w, w ∈ extractWords options text ->
       (minWordLength options <= Z.of_nat (String.length w))%Z
       /\ (w ∉ stopWords options)
       /\ ContentCacheMetadata.allChars Js.isWordChar w = true
       /\ Js.toLowerCase w = w)
  /\ (Z.of_nat (size (extractWords options text))
      <= Z.max 1 (maxWordsPerFile options))%Z.
Proof.
  split.
  - intros w Hw. apply extractWords_elem in Hw as (Hlen & Hstop & Hchars).
    split; [exact Hlen|]. split; [exact Hstop|].
    now apply indexChars_word.
  - unfold extractWords. apply collectWords_size; [|now right].
    rewrite size_empty. lia.
Qed.

(** *** Indexing, then searching *)

Lemma splitRuns_word (s : string) :
  ContentCacheMetadata.allChars isIndexChar s = true ->
  forall cur, Js.splitRuns isSeparator false cur s = [(cur ++ s)%string].
Proof.
  induction s as [|c s IH]; intros Hs cur; cbn [Js.splitRuns].
  - now rewrite ContentCacheMetadata.append_empty_r.
  - cbn [ContentCacheMetadata.allChars] in Hs.
    apply andb_prop in Hs as [Hc Hs]. unfold isIndexChar in Hc.
    apply andb_prop in Hc as [Hsep _]. apply negb_true_iff in Hsep.
    rewrite Hsep, IH by exact Hs.
    now rewrite ContentCacheMetadata.append_assoc.
Qed.

(** A word that was kept is, as a query, its own single word. *)
Lemma extractWords_word (text w : string) :
  w ∈ extractWords options text -> extractWords options w = {[w]}.
Proof.
  intros Hw. apply extractWords_elem in Hw as (Hlen & Hstop & Hchars).
  unfold extractWords, Js.splitRe.
  destruct (indexChars_word w Hchars) as [_ ->].
  rewrite (splitRuns_word w Hchars EmptyString).
  change (EmptyString ++ w)%string with w. cbn [collectWords].
  destruct (Z.ltb_spec (Z.of_nat (String.length w)) (minWordLength options));
    [lia|].
  destruct (decide (w ∈ stopWords options)); [contradiction|].
  cbv zeta. destruct (0 + 1 >=? maxWordsPerFile options)%Z; set_solver.
Qed.

(** X23.  After [indexContent(path, text)] on an enabled index with a
    non-empty text, the file is indexed, and a query finds it exactly
    when the query keeps a word and every word it keeps is a word kept
    of the text; in particular every word kept of the text, used as a
    query, finds the file when [minWordLength] is positive. *)
Theorem indexed_words_found (st : State) (path text : string) :
  reachable options st -> enabled st = true -> text <> EmptyString ->
  let st' := indexContent options st path text in
  isFileIndexed st' path = true
  /\ (forall query,
         normalizePath path ∈ search options st' query
         <-> query <> EmptyString
             /\ (exists w, w ∈ extractWords options query)
             /\ extractWords options query ⊆ extractWords options text)
  /\ ((0 < minWordLength options)%Z ->
      forall w, w ∈ extractWords options text ->
                normalizePath path ∈ search options st' w).
Proof.
  intros Hreach He Ht. cbv zeta.
  pose proof (InvertedIndexFacts.reachable_mirrored options st Hreach) as Hm.
  assert (He' : enabled (indexContent options st path text) = true).
  { unfold indexContent. rewrite He.
    apply JsFacts.isEmpty_false in Ht as ->. cbn [negb orb enabled].
    now rewrite InvertedIndexFacts.invalidate_enabled. }
  assert (Hword : forall w,
             fileOfWord (indexContent options st path text) w
                        (normalizePath path)
             <-> w ∈ extractWords options text).
  { intros w.
    rewrite (InvertedIndexFacts.indexContent_fileOfWord
               options st path text w (normalizePath path) Hm He Ht).
    tauto. }
  assert (Hquery : forall query,
             normalizePath path
               ∈ search options (indexContent options st path text) query
             <-> query <> EmptyString
                 /\ (exists w, w ∈ extractWords options query)
                 /\ extractWords options query ⊆ extractWords options text).
  { intros query. rewrite search_elem. split.
    - intros (_ & Hq & Hex & Hall). repeat split; auto.
      intros w Hw. now apply Hword, Hall.
    - intros (Hq & Hex & Hsub). repeat split; auto.
      intros w Hw. now apply Hword, Hsub. }
  split; [|split; [exact Hquery|]].
  - unfold isFileIndexed, indexContent. rewrite He.
    apply JsFacts.isEmpty_false in Ht as ->. cbn [negb orb fileToWords].
    rewrite lookup_insert_eq. now apply bool_decide_eq_true_2.
  - intros Hmin w Hw. apply Hquery.
    rewrite (extractWords_word text w Hw).
    split; [|split; [exists w; set_solver | set_solver]].
    apply extractWords_elem in Hw as (Hlen & _).
    intros ->. cbn [String.length] in Hlen. lia.
Qed.

(** X24.  After [invalidate(path)] the file is not indexed and no query
    finds it, with [search] or [searchAny]; every other file is found by
    exactly the queries that found it before. *)
Theorem invalidate_not_found (st : State) (path : string) :
  reachable options st ->
  let st' := invalidate st path in
  isFileIndexed st' path = false
  /\ (forall query,
         (normalizePath path ∉ search options st' query)
         /\ (normalizePath path ∉ searchAny options st' query))
  /\ (forall query p,
         p <> normalizePath path ->
         (p ∈ search options st' query <-> p ∈ search options st query)
         /\ (p ∈ searchAny options st' query
             <-> p ∈ searchAny options st query)).
Proof.
  intros Hreach. cbv zeta.
  pose proof (InvertedIndexFacts.reachable_mirrored options st Hreach) as Hm.
  pose proof (fun w p => InvertedIndexFacts.invalidate_fileOfWord
                           st path w p Hm) as Hinv.
  split; [|split].
  - unfold isFileIndexed, invalidate.
    destruct (fileToWords st !! normalizePath path) as [ws|] eqn:E;
      cbn [fileToWords]; apply bool_decide_eq_false.
    + rewrite lookup_delete_eq. now intros [? ?].
    + rewrite E. now intros [? ?].
  - intros query. split.
    + rewrite search_elem. intros (_ & _ & (w & Hw) & Hall).
      apply Hall, Hinv in Hw. tauto.
    + rewrite searchAny_elem. intros (_ & _ & w & _ & Hf).
      apply Hinv in Hf. tauto.
  - intros query p Hp. rewrite !search_elem, !searchAny_elem.
    rewrite InvertedIndexFacts.invalidate_enabled. split.
    + split; intros (He & Hq & Hex & Hall); repeat split; auto;
        intros w Hw; specialize (Hall w Hw); apply Hinv; tauto || apply Hinv in Hall; tauto.
    + split; intros (He & Hq & w & Hw & Hf); repeat split; auto;
        exists w; (split; [exact Hw|]); apply Hinv; tauto || apply Hinv in Hf; tauto.
Qed.

(** *** No word without a file *)

Definition inhabited (st : State) : Prop :=
  forall w fs, wordToFiles st !! w = Some fs -> exists p, p ∈ fs.

Lemma invalidate_inhabited (st : State) (path : string) :
  inhabited st -> inhabited (invalidate st path).
Proof.
  intros Hinh. unfold invalidate.
  destruct (fileToWords st !! normalizePath path) as [ws|]; [|exact Hinh].
  intros w fs. cbn [wordToFiles].
  rewrite InvertedIndexFacts.fold_removeFile_lookup.
  destruct (decide (w ∈ elements ws)); [|apply Hinh].
  destruct (wordToFiles st !! w) as [fs0|]; cbn [InvertedIndexFacts.strip];
    [|discriminate].
  destruct (decide (size (fs0 ∖ {[normalizePath path]}) = 0)) as [|Hnz];
    [discriminate|].
  intros [= <-]. apply size_pos_elem_of. lia.
Qed.

Lemma indexContent_inhabited (st : State) (path text : string) :
  inhabited st -> inhabited (indexContent options st path text).
Proof.
  intros Hinh. unfold indexContent.
  destruct (negb (enabled st) || Js.isEmpty text); [exact Hinh|].
  intros w fs. cbn [wordToFiles].
  rewrite InvertedIndexFacts.fold_addFile_lookup.
  destruct (decide (w ∈ elements (extractWords options text))).
  - intros [= <-]. exists (normalizePath path). set_solver.
  - now apply invalidate_inhabited.
Qed.

Lemma reachable_inhabited (st : State) :
  reachable options st -> inhabited st.
Proof.
  assert (Hclear : forall s, inhabited (clear s)).
  { intros s w fs. cbn. now rewrite lookup_empty. }
  induction 1 as [|st path text _ IH|st path _ IH|st b _ IH|st _ IH].
  - apply (Hclear empty).
  - now apply indexContent_inhabited.
  - now apply invalidate_inhabited.
  - destruct b; [exact IH | apply Hclear].
  - apply Hclear.
Qed.

(** X25.  The index keeps no word without a file: in every state it
    goes through, [hasWord(word)] is true exactly when
    [getFilesWithWord(word)] is not empty, and exactly when the
    normalised word is among the words indexed for some file of an
    enabled index. *)
Theorem no_word_without_file (st : State) (word : string) :
  reachable options st ->
  (hasWord st word = true <-> exists p, p ∈ getFilesWithWord st word)
  /\ (hasWord st word = true
      <-> enabled st = true
          /\ exists p, wordOfFile st (trim (Js.toLowerCase word)) p).
Proof.
  intros Hreach.
  pose proof (InvertedIndexFacts.reachable_mirrored options st Hreach) as Hm.
  pose proof (reachable_inhabited st Hreach) as Hinh.
  unfold hasWord, getFilesWithWord.
  destruct (enabled st); cbn [negb].
  2: { split; (split; [discriminate|]).
       - intros (p & Hp). now apply elem_of_empty in Hp.
       - intros [? _]. discriminate. }
  cbv zeta. rewrite bool_decide_eq_true.
  set (n := trim (Js.toLowerCase word)).
  assert (Hfiles : is_Some (wordToFiles st !! n)
                   <-> exists p, fileOfWord st n p).
  { split.
    - intros [fs Hfs]. destruct (Hinh n fs Hfs) as (p & Hp).
      exists p, fs. now split.
    - intros (p & fs & Hfs & _). now exists fs. }
  split.
  - rewrite Hfiles. unfold fileOfWord. split.
    + intros (p & fs & Hfs & Hp). exists p. now rewrite Hfs.
    + intros (p & Hp). destruct (wordToFiles st !! n) as [fs|] eqn:E;
        cbn [default] in Hp; [|now apply elem_of_empty in Hp].
      now exists p, fs.
  - rewrite Hfiles. split.
    + intros (p & Hp). split; [reflexivity|]. exists p. now apply Hm.
    + intros (_ & p & Hp). exists p. now apply Hm.
Qed.

End WithOptions.

Lemma search_all_words_witness :
  let st := indexContent DEFAULT_OPTIONS
              (indexContent DEFAULT_OPTIONS empty "a.md" "Hello world")
              "b.md" "hello there" in
  "b.md" ∈ search DEFAULT_OPTIONS st "hello world"
  <-> enabled st = true /\ "hello world" <> EmptyString
      /\ (exists w, w ∈ extractWords DEFAULT_OPTIONS "hello world")
      /\ forall w, w ∈ extractWords DEFAULT_OPTIONS "hello world" ->
                   wordOfFile st w "b.md".
Proof.
  apply (search_all_words DEFAULT_OPTIONS).
  apply reachable_indexContent, reachable_indexContent, reachable_empty.
Defined.

Lemma searchAny_some_word_witness :
  let st := indexContent DEFAULT_OPTIONS
              (indexContent DEFAULT_OPTIONS empty "a.md" "Hello world")
              "b.md" "hello there" in
  search DEFAULT_OPTIONS st "hello world"
  ⊆ searchAny DEFAULT_OPTIONS st "hello world".
Proof.
  apply (proj2 (searchAny_some_word
                  DEFAULT_OPTIONS
                  (indexContent DEFAULT_OPTIONS
                     (indexContent DEFAULT_OPTIONS empty "a.md" "Hello world")
                     "b.md" "hello there")
                  "hello world"
                  ltac:(apply reachable_indexContent, reachable_indexContent,
                          reachable_empty))).
Defined.

Lemma extractWords_shape_witness :
  (Z.of_nat (size (extractWords DEFAULT_OPTIONS "The quick brown fox"))
   <= Z.max 1 (maxWordsPerFile DEFAULT_OPTIONS))%Z.
Proof.
  apply (proj2 (extractWords_shape DEFAULT_OPTIONS "The quick brown fox")).
Defined.

Lemma indexed_words_found_witness :
  isFileIndexed (indexContent DEFAULT_OPTIONS empty "notes\a.md" "Hello world")
                "notes/a.md"
  = true.
Proof.
  apply (proj1 (indexed_words_found
                  DEFAULT_OPTIONS empty "notes\a.md" "Hello world"
                  (reachable_empty DEFAULT_OPTIONS) eq_refl
                  ltac:(discriminate))).
Defined.

Lemma invalidate_not_found_witness :
  let st := indexContent DEFAULT_OPTIONS empty "a.md" "Hello world" in
  "a.md" ∉ search DEFAULT_OPTIONS (invalidate st "a.md") "hello".
Proof.
  apply (proj1 (proj1 (proj2 (invalidate_not_found
                                DEFAULT_OPTIONS
                                (indexContent DEFAULT_OPTIONS empty "a.md"
                                              "Hello world")
                                "a.md"
                                ltac:(apply reachable_indexContent,
                                        reachable_empty)))
                      "hello")).
Defined.

Lemma no_word_without_file_witness :
  let st := invalidate
              (indexContent DEFAULT_OPTIONS empty "a.md" "Hello world")
              "a.md" in
  hasWord st " Hello " = true
  <-> exists p, p ∈ getFilesWithWord st " Hello ".
Proof.
  apply (proj1 (no_word_without_file
                  DEFAULT_OPTIONS
                  (invalidate
                     (indexContent DEFAULT_OPTIONS empty "a.md" "Hello world")
                     "a.md")
                  " Hello "
                  ltac:(apply reachable_invalidate, reachable_indexContent,
                          reachable_empty))).
Defined.

End InvertedIndexSearch.

(** ** FileWatcher: what [stop] delivers *)

Module FileWatcherFlush.
Import FileWatcher.

Section WithVault.
Variable vaultPath : string.
Variable pathRelative : string -> string -> string.

Local Abbreviation run := (run vaultPath pathRelative).

Lemma processPendingChanges_count (st : State) :
  changesProcessed (fst (processPendingChanges st))
  = changesProcessed st + length (snd (processPendingChanges st)).
Proof.
  unfold processPendingChanges. cbv zeta.
  destruct (_ || _); cbn [fst snd changesProcessed List.length];
    [lia | reflexivity].
Qed.

Lemma step_count (st : State) (i : Input) :
  changesProcessed (fst (step vaultPath pathRelative st i))
  = changesProcessed st
    + length (snd (step vaultPath pathRelative st i)).
Proof.
  destruct i as [now type path| |]; cbn [step fst snd List.length].
  - unfold handleChange. destruct (_ && _ && _); cbn [changesProcessed]; lia.
  - unfold timerFires. destruct (debounceTimer st);
      [|cbn [fst snd List.length]; lia].
    now rewrite processPendingChanges_count.
  - unfold stop. destruct (Nat.ltb 0 _);
      [|cbn [fst snd List.length changesProcessed]; lia].
    now rewrite processPendingChanges_count.
Qed.

Lemma run_count (inputs : list Input) :
  forall st,
    changesProcessed (fst (run st inputs))
    = changesProcessed st + length (snd (run st inputs)).
Proof.
  induction inputs as [|i rest IH]; intros st;
    [cbn [FileWatcher.run fst snd List.length]; lia|].
  cbn [FileWatcher.run].
  pose proof (step_count st i) as Hs.
  destruct (step vaultPath pathRelative st i) as [st1 calls1].
  specialize (IH st1).
  destruct (run st1 rest) as [st2 calls2]. cbn [fst snd] in *.
  rewrite length_app. lia.
Qed.

Lemma raw_no_calls (inputs : list Input) :
  List.Forall (fun i => match i with Raw _ _ _ => True | _ => False end)
              inputs ->
  forall st, snd (run st inputs) = [].
Proof.
  induction 1 as [|i rest Hi _ IH]; intros st; [reflexivity|].
  cbn [FileWatcher.run]. destruct i as [now type path| |]; try contradiction.
  cbn [step]. specialize (IH (handleChange vaultPath pathRelative
                                           now st type path)).
  destruct (run _ rest) as [st2 calls2]. cbn [snd] in *. now subst.
Qed.

(** X26.  Whatever happened to a started watcher, [stop] delivers every
    pending change, one call for each relative path with the coalesced
    kind, and leaves no pending change and no time-out behind, so that a
    later time-out or [stop] makes no call.  No call is made while only
    file events arrive, and [changesProcessed] is at every moment the
    number of calls made so far. *)
Theorem stop_flushes (inputs : list Input) :
  let st := fst (run (start created) inputs) in
  pendingChanges (fst (stop st)) = []
  /\ debounceTimer (fst (stop st)) = false
  /\ (forall rp,
         callsFor rp (snd (stop st))
         = match JsMap.get (pendingChanges st) rp with
           | Some c => [(eventType c, rp)]
           | None => []
           end)
  /\ snd (timerFires (fst (stop st))) = []
  /\ snd (stop (fst (stop st))) = []
  /\ changesProcessed st = length (snd (run (start created) inputs))
  /\ (List.Forall (fun i => match i with Raw _ _ _ => True | _ => False end)
                  inputs ->
      snd (run (start created) inputs) = []).
Proof.
  cbv zeta.
  destruct (FileWatcherFacts.run_invariant vaultPath pathRelative inputs
              (start created) FileWatcherFacts.wellKeyed_nil) as [Hwf Hcb].
  cbn [start onChangeCallback] in Hcb.
  set (st := fst (run (start created) inputs)) in *.
  assert (Hstop :
            stop st
            = ({| onChangeCallback := true; debounceTimer := false;
                  pendingChanges := [];
                  changesProcessed :=
                    changesProcessed st
                    + length (JsMap.values (pendingChanges st)) |},
               List.map (fun c => (eventType c, filePath c))
                        (JsMap.values (pendingChanges st)))).
  { unfold stop, processPendingChanges. cbn [pendingChanges onChangeCallback].
    rewrite Hcb. destruct (pendingChanges st) as [|kv m] eqn:Em.
    - cbn. now rewrite Nat.add_0_r.
    - cbn [JsMap.size List.length Nat.ltb Nat.leb negb orb Nat.eqb
           debounceTimer changesProcessed].
      now rewrite length_map. }
  rewrite Hstop. cbn [fst snd pendingChanges debounceTimer].
  split; [reflexivity|]. split; [reflexivity|]. split.
  { intros rp. now apply FileWatcherFacts.callsFor_values. }
  split; [reflexivity|]. split; [reflexivity|]. split.
  - pose proof (run_count inputs (start created)) as Hc.
    cbn [start changesProcessed created] in Hc. exact Hc.
  - intros Hraw. now apply raw_no_calls.
Qed.

End WithVault.

Lemma stop_flushes_witness :
  snd (run "/vault" relativeBelow (start created)
           [Raw 1 add "/vault/a.md"; Raw 2 change "/vault/a.md"])
  = [].
Proof.
  apply (proj2 (proj2 (proj2 (proj2 (proj2 (proj2
           (stop_flushes "/vault" relativeBelow
              [Raw 1 add "/vault/a.md"; Raw 2 change "/vault/a.md"]))))))).
  repeat constructor.
Defined.

End FileWatcherFlush.

(** ** PathTrie: the file set and the count *)

Module PathTrieBookkeeping.
Import PathTrie.

Lemma inSet_In (x : string) (l : list string) :
  inSet x l = true <-> In x l.
Proof.
  unfold inSet. rewrite existsb_exists. split.
  - intros (y & Hy & Heq). apply String.eqb_eq in Heq. now subst.
  - intros H. exists x. split; [exact H | apply String.eqb_refl].
Qed.

Lemma setDelete_In (l : list string) (x y : string) :
  In y (setDelete l x) <-> In y l /\ y <> x.
Proof.
  unfold setDelete. rewrite filter_In.
  destruct (String.eqb_spec y x); cbn [negb]; intuition congruence.
Qed.

Lemma setDelete_length (l : list string) (x : string) :
  List.NoDup l -> In x l -> S (length (setDelete l x)) = length l.
Proof.
  unfold setDelete. induction l as [|a l IH]; intros Hnd Hin; [destruct Hin|].
  inversion_clear Hnd as [|? ? Hna Hnd']. cbn [List.filter].
  destruct (String.eqb_spec a x) as [->|Hne]; cbn [negb length].
  - f_equal. clear IH Hin. induction l as [|b l IHl]; [reflexivity|].
    cbn [List.filter]. inversion_clear Hnd' as [|? ? Hnb Hnd''].
    destruct (String.eqb_spec b x) as [->|Hbx]; cbn [negb length].
    + exfalso. apply Hna. now left.
    + f_equal. apply IHl; [|exact Hnd'']. intros H. apply Hna. now right.
  - f_equal. apply IH; [exact Hnd'|]. destruct Hin; [congruence | auto].
Qed.

(** The set of files and its count stay in step. *)
Definition consistent (st : State) : Prop :=
  fileCount st = Z.of_nat (length (allFiles st))
  /\ List.NoDup (allFiles st).

Lemma remove_files (st : State) (filePath : string) :
  allFiles (afterRemove st filePath)
  = (if inSet (normalizePath filePath) (allFiles st)
     then setDelete (allFiles st) (normalizePath filePath)
     else allFiles st)
  /\ fileCount (afterRemove st filePath)
     = (if inSet (normalizePath filePath) (allFiles st)
        then fileCount st - 1 else fileCount st)%Z.
Proof.
  unfold afterRemove, remove.
  destruct (inSet (normalizePath filePath) (allFiles st)); cbn [negb];
    [|now split].
  cbv zeta. destruct (getNode _ (root st)); [|now split].
  destruct (pruneFrom _ _ _); now split.
Qed.

Lemma perform_consistent (st : State) (op : Operation) :
  consistent st -> consistent (perform st op).
Proof.
  intros [Hcount Hnd]. destruct op as [p|p|]; cbn [perform].
  - unfold insert. destruct (Js.isEmpty p); [now split|].
    destruct (inSet (normalizePath p) (allFiles st)) eqn:E; [now split|].
    split; cbn [fileCount allFiles].
    + rewrite length_app. cbn [length]. lia.
    + apply List.NoDup_app; [exact Hnd | |].
      * constructor; [intros [] | constructor].
      * intros a Ha [<-|[]]. apply inSet_In in Ha. congruence.
  - destruct (remove_files st p) as [Hf Hc]. unfold consistent.
    rewrite Hf, Hc.
    destruct (inSet (normalizePath p) (allFiles st)) eqn:E; [|now split].
    apply inSet_In in E. split.
    + pose proof (setDelete_length (allFiles st) (normalizePath p) Hnd E).
      lia.
    + now apply List.NoDup_filter.
  - split; [reflexivity | constructor].
Qed.

(** X27.  In every state a trie goes through by [insert], [remove]
    (returning or throwing) and [clear], [size()] is the number of paths
    of [getAllFiles()], which holds no path twice; [has] is true after
    [insert] of a non-empty path and false after [remove], and neither
    changes [has] for a path with another normal form. *)
Theorem size_counts_files (ops : list Operation) :
  let st := fold_left perform ops empty in
  size st = Z.of_nat (length (getAllFiles st))
  /\ List.NoDup (getAllFiles st)
  /\ (forall p, p <> EmptyString -> has (insert st p) p = true)
  /\ (forall p, has (afterRemove st p) p = false)
  /\ (forall p q,
         normalizePath q <> normalizePath p ->
         has (insert st p) q = has st q
         /\ has (afterRemove st p) q = has st q).
Proof.
  cbv zeta.
  assert (Hcons : consistent (fold_left perform ops empty)).
  { assert (H : forall st, consistent st ->
                           consistent (fold_left perform ops st)).
    { induction ops as [|op ops IH]; intros st Hst; [exact Hst|].
      cbn [fold_left]. now apply IH, perform_consistent. }
    apply H. split; [reflexivity | constructor]. }
  set (st := fold_left perform ops empty) in *.
  destruct Hcons as [Hcount Hnd].
  split; [exact Hcount|]. split; [exact Hnd|].
  assert (Hbool : forall a b : bool, (a = true <-> b = true) -> a = b).
  { intros [] [] [H1 H2]; auto. symmetry. now apply H1. }
  split; [|split].
  - intros p Hp. unfold has, insert.
    apply JsFacts.isEmpty_false in Hp as ->.
    destruct (inSet (normalizePath p) (allFiles st)) eqn:E; [exact E|].
    cbn [allFiles]. apply inSet_In, in_or_app. right. now left.
  - intros p. unfold has. destruct (remove_files st p) as [-> _].
    destruct (inSet (normalizePath p) (allFiles st)) eqn:E; [|exact E].
    apply not_true_is_false. rewrite inSet_In, setDelete_In. tauto.
  - intros p q Hne. split.
    + unfold has, insert. destruct (Js.isEmpty p); [reflexivity|].
      destruct (inSet (normalizePath p) (allFiles st)); [reflexivity|].
      cbn [allFiles]. apply Hbool. rewrite !inSet_In, in_app_iff. simpl.
      intuition congruence.
    + unfold has. destruct (remove_files st p) as [-> _].
      destruct (inSet (normalizePath p) (allFiles st)); [|reflexivity].
      apply Hbool. rewrite !inSet_In, setDelete_In. tauto.
Qed.

Lemma size_counts_files_witness :
  has (insert (fold_left perform [Insert "a.md"; Remove "a.md"] empty)
              "notes\b.md")
      "notes/b.md"
  = true.
Proof.
  apply (proj1 (proj2 (proj2 (size_counts_files
                                [Insert "a.md"; Remove "a.md"])))
               "notes\b.md").
  discriminate.
Defined.

End PathTrieBookkeeping.

(** ** PathTrie: the trie holds the inserted paths, each at its place *)

Module PathTrieSound.
Import PathTrie.

(** *** Children maps *)

Lemma get_In {V} (m : JsMap.t V) (k : string) (v : V) :
  JsMap.get m k = Some v -> In (k, v) m.
Proof.
  unfold JsMap.get. induction m as [|[a w] m IH]; simpl; [discriminate|].
  destruct (String.eqb_spec a k) as [->|Hne].
  - intros [= ->]. now left.
  - intros H. right. now apply IH.
Qed.

Lemma In_get {V} (m : JsMap.t V) (k : string) (v : V) :
  List.NoDup (JsMap.keys m) -> In (k, v) m -> JsMap.get m k = Some v.
Proof.
  unfold JsMap.get, JsMap.keys.
  induction m as [|[a w] m IH]; simpl; intros Hnd Hin; [destruct Hin|].
  inversion_clear Hnd as [|? ? Hna Hnd'].
  destruct Hin as [[= -> ->]|Hin].
  - now rewrite String.eqb_refl.
  - destruct (String.eqb_spec a k) as [->|Hne]; [|now apply IH].
    exfalso. apply Hna. apply in_map_iff. now exists (k, v).
Qed.

Lemma In_replace {V} (m : JsMap.t V) (k : string) (v : V) (kv : string * V) :
  In kv (JsMap.replace m k v) -> In kv m \/ kv = (k, v).
Proof.
  induction m as [|[a w] m IH]; simpl; [tauto|].
  destruct (String.eqb_spec a k) as [->|Hne]; simpl.
  - intros [<-|H]; tauto.
  - intros [<-|H]; [tauto|]. apply IH in H. tauto.
Qed.

Lemma In_set {V} (m : JsMap.t V) (k : string) (v : V) (kv : string * V) :
  In kv (JsMap.set m k v) -> In kv m \/ kv = (k, v).
Proof.
  unfold JsMap.set. destruct (JsMap.has m k); [apply In_replace|].
  intros H. apply in_app_or in H as [H|[<-|[]]]; tauto.
Qed.

Lemma In_delete {V} (m : JsMap.t V) (k : string) (kv : string * V) :
  In kv (JsMap.delete m k) -> In kv m.
Proof. unfold JsMap.delete. intros H. now apply filter_In in H. Qed.

Lemma NoDup_keys_set {V} (m : JsMap.t V) (k : string) (v : V) :
  List.NoDup (JsMap.keys m) -> List.NoDup (JsMap.keys (JsMap.set m k v)).
Proof.
  intros Hnd. unfold JsMap.set, JsMap.has.
  destruct (JsMap.get m k) eqn:E.
  - now rewrite FileWatcherFacts.keys_replace.
  - apply LruFacts.NoDup_keys_snoc; [exact Hnd|].
    now apply FileWatcherFacts.get_None_keys.
Qed.

Lemma In_replace_same {V} (m : JsMap.t V) (k : string) (v w : V) :
  List.NoDup (JsMap.keys m) -> In (k, w) (JsMap.replace m k v) -> w = v.
Proof.
  unfold JsMap.keys.
  induction m as [|[a u] m IH]; simpl; intros Hnd Hin; [destruct Hin|].
  inversion_clear Hnd as [|? ? Hna Hnd'].
  destruct (String.eqb_spec a k) as [->|Hne]; simpl in Hin.
  - destruct Hin as [[= <-]|Hin]; [reflexivity|].
    exfalso. apply Hna. apply in_map_iff. now exists (k, w).
  - destruct Hin as [[= -> _]|Hin]; [congruence | now apply IH].
Qed.

(** *** Nodes and the files below them *)

(** [reaches n ks m]: [m] is met from [n] along the child keys [ks]. *)
Inductive reaches : TrieNode -> list string -> TrieNode -> Prop :=
| reaches_here n : reaches n [] n
| reaches_child n k child ks m :
    In (k, child) (children n) -> reaches child ks m ->
    reaches n (k :: ks) m.

(** The path [x] is among the files of the node met along [ks]. *)
Definition fileAt (n : TrieNode) (ks : list string) (x : string) : Prop :=
  exists m, reaches n ks m /\ In x (files m).

Definition keysDistinct (n : TrieNode) : Prop :=
  forall ks m, reaches n ks m -> List.NoDup (JsMap.keys (children m)).

Lemma reaches_app (n m o : TrieNode) (ks ks' : list string) :
  reaches n ks m -> reaches m ks' o -> reaches n (ks ++ ks') o.
Proof.
  induction 1 as [|n k child ks m Hin _ IH]; intros H; [exact H|].
  cbn [app]. econstructor; [exact Hin | now apply IH].
Qed.

Lemma getNode_reaches (ks : list string) :
  forall n m, getNode ks n = Some m -> reaches n ks m.
Proof.
  induction ks as [|k ks IH]; intros n m; cbn [getNode].
  - intros [= ->]. constructor.
  - destruct (JsMap.get (children n) k) as [child|] eqn:E; [|discriminate].
    intros H.
    apply (reaches_child n k child); [now apply get_In | now apply IH].
Qed.

Lemma reaches_getNode (n : TrieNode) (ks : list string) (m : TrieNode) :
  keysDistinct n -> reaches n ks m -> getNode ks n = Some m.
Proof.
  intros Hkd H. induction H as [|n k child ks m Hin Hr IH]; [reflexivity|].
  cbn [getNode]. rewrite (In_get (children n) k child); [|now apply (Hkd [] n); constructor | exact Hin].
  apply IH. intros ks' m' Hr'. apply (Hkd (k :: ks') m').
  econstructor; eassumption.
Qed.

Lemma keysDistinct_child (n : TrieNode) (k : string) (child : TrieNode) :
  keysDistinct n -> In (k, child) (children n) -> keysDistinct child.
Proof.
  intros Hkd Hin ks m Hr. apply (Hkd (k :: ks) m). econstructor; eassumption.
Qed.

Lemma fileAt_child (n : TrieNode) (k : string) (child : TrieNode)
      (ks : list string) (x : string) :
  In (k, child) (children n) -> fileAt child ks x -> fileAt n (k :: ks) x.
Proof.
  intros Hin (m & Hr & Hx). exists m. split; [|exact Hx].
  econstructor; eassumption.
Qed.

Lemma fileAt_createNode (ks : list string) (x : string) :
  ~ fileAt createNode ks x.
Proof.
  intros (m & Hr & Hx). inversion Hr as [|? ? ? ? ? Hin]; subst.
  - destruct Hx.
  - destruct Hin.
Qed.

Lemma keysDistinct_createNode : keysDistinct createNode.
Proof.
  intros ks m Hr. inversion Hr as [|? ? ? ? ? Hin]; subst.
  - constructor.
  - destruct Hin.
Qed.

(** What the queue loop of [collectFiles] gathers lies below the nodes
    of the queue. *)
Lemma collectLoop_sound (fuel : nat) :
  forall (queue : list TrieNode) (found : list string) (x : string),
    In x (collectLoop fuel queue found) ->
    In x found \/ exists n ks, In n queue /\ fileAt n ks x.
Proof.
  induction fuel as [|fuel IH]; intros queue found x Hx;
    cbn [collectLoop] in Hx; [now left|].
  destruct queue as [|current rest]; [now left|].
  apply IH in Hx as [Hx | (n & ks & Hn & Hf)].
  - apply in_app_or in Hx as [Hx|Hx]; [now left|]. right.
    exists current, []. split; [now left|].
    exists current. split; [constructor | exact Hx].
  - right. apply in_app_or in Hn as [Hn|Hn].
    + exists n, ks. split; [now right | exact Hf].
    + unfold JsMap.values in Hn. apply in_map_iff in Hn as ([k c] & <- & Hin).
      exists current, (k :: ks). split; [now left|].
      now apply (fileAt_child current k c).
Qed.

Lemma collectFiles_sound (n : TrieNode) (x : string) :
  In x (collectFiles n) -> exists ks, fileAt n ks x.
Proof.
  intros Hx. apply collectLoop_sound in Hx as [[] | (m & ks & [<-|[]] & Hf)].
  now exists ks.
Qed.

(** *** [insert] *)

Lemma updateChild_fileAt (segment : string) (f : TrieNode -> TrieNode)
      (n : TrieNode) (ks : list string) (x : string) :
  fileAt (updateChild segment f n) ks x ->
  fileAt n ks x
  \/ exists ks',
      ks = segment :: ks'
      /\ fileAt (f (default createNode
                            (JsMap.get (children n) segment))) ks' x.
Proof.
  destruct n as [c fs d]. cbn [updateChild children].
  intros (m & Hr & Hx).
  assert (Hnew : children
                   (match JsMap.get c segment with
                    | Some child => Node (JsMap.set c segment (f child)) fs d
                    | None => Node (JsMap.set c segment (f createNode)) fs d
                    end)
                 = JsMap.set c segment
                             (f (default createNode (JsMap.get c segment)))
                 /\ files
                      (match JsMap.get c segment with
                       | Some child =>
                           Node (JsMap.set c segment (f child)) fs d
                       | None =>
                           Node (JsMap.set c segment (f createNode)) fs d
                       end) = fs).
  { destruct (JsMap.get c segment); now split. }
  destruct Hnew as [Hc Hf].
  inversion Hr as [|? k child ks' ? Hin Hr']; subst.
  - left. exists (Node c fs d). split; [constructor|].
    now rewrite Hf in Hx.
  - rewrite Hc in Hin. apply In_set in Hin as [Hin|[= -> ->]].
    + left. exists m. split; [|exact Hx]. econstructor; eassumption.
    + right. exists ks'. split; [reflexivity|]. now exists m.
Qed.

Lemma updateChild_keysDistinct (segment : string)
      (f : TrieNode -> TrieNode) (n : TrieNode) :
  keysDistinct n ->
  keysDistinct (f (default createNode (JsMap.get (children n) segment))) ->
  keysDistinct (updateChild segment f n).
Proof.
  destruct n as [c fs d]. cbn [updateChild children]. intros Hkd Hf ks m Hr.
  assert (Hnew : (match JsMap.get c segment with
                  | Some child => Node (JsMap.set c segment (f child)) fs d
                  | None => Node (JsMap.set c segment (f createNode)) fs d
                  end)
                 = Node (JsMap.set c segment
                           (f (default createNode (JsMap.get c segment))))
                        fs d).
  { now destruct (JsMap.get c segment). }
  rewrite Hnew in Hr.
  inversion Hr as [|? k child ks' ? Hin Hr']; subst.
  - cbn [children]. apply NoDup_keys_set. apply (Hkd [] (Node c fs d)).
    constructor.
  - cbn [children] in Hin. apply In_set in Hin as [Hin|[= -> ->]].
    + apply (Hkd (k :: ks') m). econstructor; eassumption.
    + now apply (Hf ks' m).
Qed.

Lemma fileAt_same (n n' : TrieNode) (ks : list string) (x : string) :
  children n' = children n -> files n' = files n ->
  fileAt n' ks x -> fileAt n ks x.
Proof.
  intros Hc Hf (m & Hr & Hx).
  inversion Hr as [|? k child ks' ? Hin Hr']; subst.
  - exists n. split; [constructor | now rewrite <- Hf].
  - exists m. split; [|exact Hx]. rewrite Hc in Hin.
    econstructor; eassumption.
Qed.

Lemma keysDistinct_same (n n' : TrieNode) :
  children n' = children n -> keysDistinct n -> keysDistinct n'.
Proof.
  intros Hc Hkd ks m Hr.
  inversion Hr as [|? k child ks' ? Hin Hr']; subst.
  - rewrite Hc. apply (Hkd [] n). constructor.
  - rewrite Hc in Hin. apply (Hkd (k :: ks') m). econstructor; eassumption.
Qed.

Lemma child_or_new_fileAt (n : TrieNode) (segment : string)
      (ks : list string) (x : string) :
  fileAt (default createNode (JsMap.get (children n) segment)) ks x ->
  fileAt n (segment :: ks) x.
Proof.
  destruct (JsMap.get (children n) segment) as [child|] eqn:E; cbn [default].
  - apply fileAt_child. now apply get_In.
  - intros H. now apply fileAt_createNode in H.
Qed.

Lemma child_or_new_keysDistinct (n : TrieNode) (segment : string) :
  keysDistinct n ->
  keysDistinct (default createNode (JsMap.get (children n) segment)).
Proof.
  intros Hkd.
  destruct (JsMap.get (children n) segment) as [child|] eqn:E; cbn [default].
  - apply (keysDistinct_child n segment child Hkd). now apply get_In.
  - apply keysDistinct_createNode.
Qed.

Lemma nonEmpty_skip (segment : string) (rest : list string) :
  Js.isEmpty segment = true -> nonEmpty (segment :: rest) = nonEmpty rest.
Proof. intros E. unfold nonEmpty. cbn [List.filter]. now rewrite E. Qed.

Lemma nonEmpty_keep (segment : string) (rest : list string) :
  Js.isEmpty segment = false ->
  nonEmpty (segment :: rest) = segment :: nonEmpty rest.
Proof. intros E. unfold nonEmpty. cbn [List.filter]. now rewrite E. Qed.

Lemma insertAt_fileAt (path : string) (segments : list string) :
  forall (n : TrieNode) (ks : list string) (x : string),
    fileAt (insertAt segments path n) ks x ->
    fileAt n ks x
    \/ (x = path /\ ks = nonEmpty segments
        /\ Js.isEmpty (List.last segments EmptyString) = false).
Proof.
  induction segments as [|segment rest IH]; intros n ks x H;
    [now left|].
  destruct rest as [|next rest].
  - cbn [insertAt] in H. destruct (Js.isEmpty segment) eqn:E; [now left|].
    apply updateChild_fileAt in H as [H | (ks' & -> & H)]; [now left|].
    destruct (default createNode (JsMap.get (children n) segment))
      as [c fs d] eqn:Ec.
    cbn [addFile] in H. destruct H as (m & Hr & Hx).
    inversion Hr as [|? k child ks'' ? Hin Hr']; subst.
    + cbn [files] in Hx. unfold setAdd in Hx.
      destruct (inSet path fs).
      * left. apply child_or_new_fileAt. rewrite Ec.
        exists (Node c fs d). split; [constructor | exact Hx].
      * apply in_app_or in Hx as [Hx|[<-|[]]].
        -- left. apply child_or_new_fileAt. rewrite Ec.
           exists (Node c fs d). split; [constructor | exact Hx].
        -- right. split; [reflexivity|].
           split; [now rewrite (nonEmpty_keep segment [] E) | exact E].
    + left. apply child_or_new_fileAt. rewrite Ec. exists m.
      split; [|exact Hx]. econstructor; eassumption.
  - change (insertAt (segment :: next :: rest) path n)
      with (if Js.isEmpty segment then insertAt (next :: rest) path n
            else updateChild segment
                   (fun child =>
                      insertAt (next :: rest) path (markDirectory child)) n)
      in H.
    destruct (Js.isEmpty segment) eqn:E.
    + apply IH in H as [H|(-> & -> & Hl)]; [now left|]. right.
      split; [reflexivity|].
      split; [now rewrite (nonEmpty_skip segment _ E) | exact Hl].
    + apply updateChild_fileAt in H as [H | (ks' & -> & H)]; [now left|].
      apply IH in H as [H|(-> & -> & Hl)].
      * left. apply child_or_new_fileAt.
        refine (fileAt_same _ _ _ _ _ _ H);
          now destruct (default createNode _).
      * right. split; [reflexivity|].
        split; [now rewrite (nonEmpty_keep segment _ E) | exact Hl].
Qed.

Lemma insertAt_keysDistinct (path : string) (segments : list string) :
  forall n, keysDistinct n -> keysDistinct (insertAt segments path n).
Proof.
  induction segments as [|segment rest IH]; intros n Hkd; [exact Hkd|].
  destruct rest as [|next rest].
  - cbn [insertAt]. destruct (Js.isEmpty segment); [exact Hkd|].
    apply updateChild_keysDistinct; [exact Hkd|].
    apply (keysDistinct_same
             (default createNode (JsMap.get (children n) segment)));
      [now destruct (default createNode _)
      | now apply child_or_new_keysDistinct].
  - change (insertAt (segment :: next :: rest) path n)
      with (if Js.isEmpty segment then insertAt (next :: rest) path n
            else updateChild segment
                   (fun child =>
                      insertAt (next :: rest) path (markDirectory child)) n).
    destruct (Js.isEmpty segment); [now apply IH|].
    apply updateChild_keysDistinct; [exact Hkd|]. apply IH.
    apply (keysDistinct_same
             (default createNode (JsMap.get (children n) segment)));
      [now destruct (default createNode _)
      | now apply child_or_new_keysDistinct].
Qed.

(** *** [remove] *)

(** A change of a node that adds neither a file nor a child. *)
Definition shrinks (f : TrieNode -> TrieNode) : Prop :=
  forall m,
    (forall x, In x (files (f m)) -> In x (files m))
    /\ (forall kv, In kv (children (f m)) -> In kv (children m))
    /\ (List.NoDup (JsMap.keys (children m)) ->
        List.NoDup (JsMap.keys (children (f m)))).

Lemma shrinks_fileAt (f : TrieNode -> TrieNode) (m : TrieNode)
      (ks : list string) (x : string) :
  shrinks f -> fileAt (f m) ks x -> fileAt m ks x.
Proof.
  intros Hs (o & Hr & Hx). destruct (Hs m) as (Hf & Hc & _).
  inversion Hr as [|? k child ks' ? Hin Hr']; subst.
  - exists m. split; [constructor | auto].
  - exists o. split; [|exact Hx].
    apply (reaches_child m k child); [now apply Hc | exact Hr'].
Qed.

Lemma shrinks_keysDistinct (f : TrieNode -> TrieNode) (m : TrieNode) :
  shrinks f -> keysDistinct m -> keysDistinct (f m).
Proof.
  intros Hs Hkd ks o Hr. destruct (Hs m) as (_ & Hc & Hn).
  inversion Hr as [|? k child ks' ? Hin Hr']; subst.
  - apply Hn. apply (Hkd [] m). constructor.
  - apply (Hkd (k :: ks') o).
    apply (reaches_child m k child); [now apply Hc | exact Hr'].
Qed.

Lemma updateAt_fileAt (f : TrieNode -> TrieNode) :
  shrinks f ->
  forall (ks : list string) (n : TrieNode) (ks' : list string) (x : string),
    fileAt (updateAt ks f n) ks' x -> fileAt n ks' x.
Proof.
  intros Hs. induction ks as [|k ks IH]; intros n ks' x H;
    cbn [updateAt] in H; [now apply (shrinks_fileAt f)|].
  destruct n as [c fs d].
  destruct (JsMap.get c k) as [child|] eqn:E; [|exact H].
  destruct H as (m & Hr & Hx).
  inversion Hr as [|? k' ch ks'' ? Hin Hr']; subst.
  - exists (Node c fs d). split; [constructor | exact Hx].
  - cbn [children] in Hin. apply In_replace in Hin as [Hin | [= -> ->]].
    + exists m. split; [|exact Hx].
      now apply (reaches_child (Node c fs d) k' ch).
    + apply (fileAt_child (Node c fs d) k child); [now apply get_In|].
      apply IH. now exists m.
Qed.

Lemma updateAt_keysDistinct (f : TrieNode -> TrieNode) :
  shrinks f ->
  forall (ks : list string) (n : TrieNode),
    keysDistinct n -> keysDistinct (updateAt ks f n).
Proof.
  intros Hs. induction ks as [|k ks IH]; intros n Hkd; cbn [updateAt];
    [now apply shrinks_keysDistinct|].
  destruct n as [c fs d].
  destruct (JsMap.get c k) as [child|] eqn:E; [|exact Hkd].
  intros ks' m Hr.
  inversion Hr as [|? k' ch ks'' ? Hin Hr']; subst.
  - cbn [children]. rewrite FileWatcherFacts.keys_replace.
    apply (Hkd [] (Node c fs d)). constructor.
  - cbn [children] in Hin. apply In_replace in Hin as [Hin | [= -> ->]].
    + apply (Hkd (k' :: ks'') m).
      now apply (reaches_child (Node c fs d) k' ch).
    + refine (IH child _ ks'' m Hr').
      apply (keysDistinct_child (Node c fs d) k child Hkd).
      now apply get_In.
Qed.

(** With distinct keys, the node met along [ks] after [updateAt ks f] is
    the changed one. *)
Lemma reaches_updateAt (f : TrieNode -> TrieNode) :
  forall (ks : list string) (n m' : TrieNode),
    keysDistinct n -> reaches (updateAt ks f n) ks m' ->
    exists m, getNode ks n = Some m /\ m' = f m.
Proof.
  induction ks as [|k ks IH]; intros n m' Hkd Hr; cbn [updateAt] in Hr.
  - inversion Hr; subst. now exists n.
  - destruct n as [c fs d]. cbn [getNode children].
    destruct (JsMap.get c k) as [child|] eqn:E.
    + inversion Hr as [|? k' ch ks' ? Hin Hr']; subst.
      cbn [children] in Hin.
      apply In_replace_same in Hin;
        [|apply (Hkd [] (Node c fs d)); constructor].
      subst ch. apply IH; [|exact Hr'].
      apply (keysDistinct_child (Node c fs d) k child Hkd).
      now apply get_In.
    + inversion Hr as [|? k' ch ks' ? Hin Hr']; subst.
      cbn [children] in Hin. exfalso.
      apply FileWatcherFacts.get_None_keys in E. apply E.
      unfold JsMap.keys. apply in_map_iff. now exists (k, ch).
Qed.

Lemma prune_shrinks (segment : string) :
  shrinks (fun parent =>
             match JsMap.get (children parent) segment with
             | Some (Node [] [] _) =>
                 Node (JsMap.delete (children parent) segment)
                      (files parent) (isDirectory parent)
             | _ => parent
             end).
Proof.
  intros m.
  destruct (JsMap.get (children m) segment) as [[[|kv c] [|y fs] d]|];
    try (repeat split; auto; fail).
  cbn [files children]. repeat split; [auto | apply In_delete|].
  apply LruFacts.NoDup_keys_delete.
Qed.

Lemma pruneAt_sound (segments : list string) (i : nat) (r r' : TrieNode) :
  pruneAt segments i r = Some r' ->
  (forall ks x, fileAt r' ks x -> fileAt r ks x)
  /\ (keysDistinct r -> keysDistinct r').
Proof.
  unfold pruneAt. destruct (nth_error segments i) as [segment|];
    [|intros [= <-]; now split].
  destruct (Js.isEmpty segment); [intros [= <-]; now split|].
  destruct (Nat.ltb _ _); [discriminate|]. intros [= <-]. split.
  - intros ks x. apply updateAt_fileAt, prune_shrinks.
  - apply updateAt_keysDistinct, prune_shrinks.
Qed.

Lemma pruneFrom_sound (segments : list string) (count : nat) :
  forall r r',
    pruneFrom segments count r = Some r' ->
    (forall ks x, fileAt r' ks x -> fileAt r ks x)
    /\ (keysDistinct r -> keysDistinct r').
Proof.
  induction count as [|i IH]; intros r r'; cbn [pruneFrom].
  - intros [= <-]. now split.
  - destruct (pruneAt segments i r) as [r1|] eqn:E; [|discriminate].
    intros H. apply IH in H as [Hf Hk].
    apply pruneAt_sound in E as [Hf1 Hk1]. split; auto.
Qed.

Lemma deleteFile_shrinks (path : string) :
  shrinks (fun n => Node (children n) (setDelete (files n) path)
                         (isDirectory n)).
Proof.
  intros m. cbn [files children]. repeat split; auto.
  intros x Hx. now apply PathTrieBookkeeping.setDelete_In in Hx.
Qed.

(** *** What stays in the trie *)

Lemma In_set_new {V} (m : JsMap.t V) (k : string) (v : V) :
  In (k, v) (JsMap.set m k v).
Proof. apply get_In, JsMapFacts.get_set_eq. Qed.

Lemma In_replace_other {V} (m : JsMap.t V) (k k' : string) (v w : V) :
  k' <> k -> In (k', w) m -> In (k', w) (JsMap.replace m k v).
Proof.
  intros Hne. induction m as [|[a u] m IH]; simpl; [tauto|].
  destruct (String.eqb_spec a k) as [->|Ha]; simpl.
  - intros [[= -> _]|H]; [congruence | now right].
  - intros [H|H]; [now left | right; now apply IH].
Qed.

Lemma In_replace_new {V} (m : JsMap.t V) (k : string) (v w : V) :
  JsMap.get m k = Some w -> In (k, v) (JsMap.replace m k v).
Proof.
  unfold JsMap.get. induction m as [|[a u] m IH]; simpl; [discriminate|].
  destruct (String.eqb_spec a k) as [->|Ha]; simpl.
  - intros _. now left.
  - intros H. right. now apply IH.
Qed.

Lemma In_set_other {V} (m : JsMap.t V) (k k' : string) (v w : V) :
  k' <> k -> In (k', w) m -> In (k', w) (JsMap.set m k v).
Proof.
  intros Hne Hin. unfold JsMap.set. destruct (JsMap.has m k).
  - now apply In_replace_other.
  - apply in_or_app. now left.
Qed.

Lemma In_delete_other {V} (m : JsMap.t V) (k k' : string) (w : V) :
  k' <> k -> In (k', w) m -> In (k', w) (JsMap.delete m k).
Proof.
  intros Hne Hin. unfold JsMap.delete. apply filter_In. split; [exact Hin|].
  cbn [fst]. now destruct (String.eqb_spec k' k).
Qed.

Lemma reaches_app_inv (ks ks' : list string) :
  forall n o,
    reaches n (ks ++ ks') o ->
    exists m, reaches n ks m /\ reaches m ks' o.
Proof.
  induction ks as [|k ks IH]; intros n o H.
  - exists n. split; [constructor | exact H].
  - cbn [app] in H. inversion H as [|? ? child ? ? Hin Hr]; subst.
    apply IH in Hr as (m & Hr1 & Hr2). exists m. split; [|exact Hr2].
    now apply (reaches_child n k child).
Qed.

Lemma updateChild_new (segment : string) (f : TrieNode -> TrieNode)
      (n : TrieNode) (ks : list string) (x : string) :
  fileAt (f (default createNode (JsMap.get (children n) segment))) ks x ->
  fileAt (updateChild segment f n) (segment :: ks) x.
Proof.
  destruct n as [c fs d]. cbn [updateChild children]. intros H.
  destruct (JsMap.get c segment) as [child|]; cbn [default] in H;
    (eapply fileAt_child; [|exact H]); cbn [children]; apply In_set_new.
Qed.

Lemma updateChild_keeps (segment : string) (f : TrieNode -> TrieNode)
      (n : TrieNode) (ks : list string) (x : string) :
  keysDistinct n ->
  (forall ks', fileAt (default createNode (JsMap.get (children n) segment))
                      ks' x ->
               fileAt (f (default createNode
                                  (JsMap.get (children n) segment))) ks' x) ->
  fileAt n ks x -> fileAt (updateChild segment f n) ks x.
Proof.
  intros Hkd Hf (m & Hr & Hx).
  inversion Hr as [|? k child ks' ? Hin Hr']; subst.
  - destruct m as [c fs d]. cbn [updateChild].
    destruct (JsMap.get c segment);
      (eexists; split; [constructor | exact Hx]).
  - destruct (string_dec k segment) as [->|Hne].
    + apply updateChild_new. apply Hf.
      rewrite (In_get (children n) segment child);
        [|apply (Hkd [] n); constructor | exact Hin].
      now exists m.
    + destruct n as [c fs d]. cbn [updateChild children] in *.
      destruct (JsMap.get c segment);
        (exists m; split; [|exact Hx]);
        (eapply reaches_child; [|exact Hr']); cbn [children];
        now apply In_set_other.
Qed.

Lemma insertAt_adds (path : string) (segments : list string) :
  forall n,
    Js.isEmpty (List.last segments EmptyString) = false ->
    fileAt (insertAt segments path n) (nonEmpty segments) path.
Proof.
  induction segments as [|segment rest IH]; intros n Hlast;
    [discriminate|].
  destruct rest as [|next rest].
  - cbn [List.last] in Hlast. cbn [insertAt]. rewrite Hlast.
    rewrite (nonEmpty_keep segment [] Hlast). apply updateChild_new.
    destruct (default createNode (JsMap.get (children n) segment))
      as [c fs d].
    eexists. split; [constructor|]. cbn [addFile files]. unfold setAdd.
    destruct (inSet path fs) eqn:E.
    + now apply PathTrieBookkeeping.inSet_In.
    + apply in_or_app. right. now left.
  - change (insertAt (segment :: next :: rest) path n)
      with (if Js.isEmpty segment then insertAt (next :: rest) path n
            else updateChild segment
                   (fun child =>
                      insertAt (next :: rest) path (markDirectory child)) n).
    destruct (Js.isEmpty segment) eqn:E.
    + rewrite (nonEmpty_skip segment _ E). now apply IH.
    + rewrite (nonEmpty_keep segment _ E). apply updateChild_new.
      now apply IH.
Qed.

Lemma insertAt_keeps (path : string) (segments : list string) :
  forall n ks x,
    keysDistinct n -> fileAt n ks x ->
    fileAt (insertAt segments path n) ks x.
Proof.
  induction segments as [|segment rest IH]; intros n ks x Hkd H;
    [exact H|].
  destruct rest as [|next rest].
  - cbn [insertAt]. destruct (Js.isEmpty segment); [exact H|].
    apply updateChild_keeps; [exact Hkd | | exact H].
    intros ks' (m & Hr & Hx).
    destruct (default createNode (JsMap.get (children n) segment))
      as [c fs d].
    inversion Hr as [|? k child ks'' ? Hin Hr']; subst.
    + eexists. split; [constructor|]. cbn [addFile files] in *.
      unfold setAdd. destruct (inSet path fs); [exact Hx|].
      apply in_or_app. now left.
    + exists m. split; [|exact Hx].
      now apply (reaches_child (addFile path (Node c fs d)) k child).
  - change (insertAt (segment :: next :: rest) path n)
      with (if Js.isEmpty segment then insertAt (next :: rest) path n
            else updateChild segment
                   (fun child =>
                      insertAt (next :: rest) path (markDirectory child)) n).
    destruct (Js.isEmpty segment); [now apply IH|].
    apply updateChild_keeps; [exact Hkd | | exact H].
    intros ks' H'. apply IH.
    + apply (keysDistinct_same
               (default createNode (JsMap.get (children n) segment)));
        [now destruct (default createNode _)
        | now apply child_or_new_keysDistinct].
    + refine (fileAt_same _ _ _ _ _ _ H');
        now destruct (default createNode _).
Qed.

(** A change of a node that loses no path for which [P] holds. *)
Definition keeps (P : string -> Prop) (f : TrieNode -> TrieNode) : Prop :=
  forall m ks x,
    keysDistinct m -> P x -> fileAt m ks x -> fileAt (f m) ks x.

Lemma updateAt_keeps (P : string -> Prop) (f : TrieNode -> TrieNode) :
  keeps P f ->
  forall (ks : list string) (n : TrieNode) (ks' : list string) (x : string),
    keysDistinct n -> P x -> fileAt n ks' x ->
    fileAt (updateAt ks f n) ks' x.
Proof.
  intros Hf. induction ks as [|k ks IH]; intros n ks' x Hkd HP H;
    cbn [updateAt]; [now apply Hf|].
  destruct n as [c fs d].
  destruct (JsMap.get c k) as [child|] eqn:E; [|exact H].
  destruct H as (m & Hr & Hx).
  inversion Hr as [|? k' ch ks'' ? Hin Hr']; subst.
  - eexists. split; [constructor | exact Hx].
  - cbn [children] in Hin. destruct (string_dec k' k) as [->|Hne].
    + assert (ch = child) as ->.
      { pose proof (In_get c k ch (Hkd [] (Node c fs d) (reaches_here _))
                           Hin) as Hg.
        congruence. }
      apply (fileAt_child _ k (updateAt ks f child));
        [cbn [children]; now apply (In_replace_new c k _ child)|].
      apply IH; [|exact HP | now exists m].
      now apply (keysDistinct_child (Node c fs d) k child Hkd).
    + exists m. split; [|exact Hx].
      apply (reaches_child _ k' ch); [|exact Hr'].
      cbn [children]. now apply In_replace_other.
Qed.

Lemma deleteFile_keeps (path : string) :
  keeps (fun x => x <> path)
        (fun n => Node (children n) (setDelete (files n) path)
                       (isDirectory n)).
Proof.
  intros m ks x _ Hne (o & Hr & Hx).
  inversion Hr as [|? k child ks' ? Hin Hr']; subst.
  - eexists. split; [constructor|]. cbn [files].
    now apply PathTrieBookkeeping.setDelete_In.
  - exists o. split; [|exact Hx]. now apply (reaches_child _ k child).
Qed.

Lemma prune_keeps (segment : string) :
  keeps (fun _ => True)
        (fun parent =>
           match JsMap.get (children parent) segment with
           | Some (Node [] [] _) =>
               Node (JsMap.delete (children parent) segment)
                    (files parent) (isDirectory parent)
           | _ => parent
           end).
Proof.
  intros m ks x Hkd _ H.
  destruct (JsMap.get (children m) segment) as [[[|kv c] [|y fs] d]|] eqn:E;
    try exact H.
  destruct H as (o & Hr & Hx).
  inversion Hr as [|? k child ks' ? Hin Hr']; subst.
  - eexists. split; [constructor | exact Hx].
  - exists o. split; [|exact Hx].
    apply (reaches_child _ k child); [|exact Hr'].
    cbn [children]. apply In_delete_other; [|exact Hin].
    intros ->.
    pose proof (In_get (children m) segment child
                       (Hkd [] m (reaches_here _)) Hin) as Hg.
    rewrite E in Hg. injection Hg as <-.
    inversion Hr' as [|? ? ? ? ? Hin' _]; subst; [destruct Hx | destruct Hin'].
Qed.

Lemma pruneAt_keeps (segments : list string) (i : nat) (r r' : TrieNode) :
  pruneAt segments i r = Some r' -> keysDistinct r ->
  forall ks x, fileAt r ks x -> fileAt r' ks x.
Proof.
  unfold pruneAt. destruct (nth_error segments i) as [segment|];
    [|now intros [= <-]].
  destruct (Js.isEmpty segment); [now intros [= <-]|].
  destruct (Nat.ltb _ _); [discriminate|]. intros [= <-] Hkd ks x H.
  now apply (updateAt_keeps (fun _ => True) _ (prune_keeps segment)).
Qed.

Lemma pruneFrom_keeps (segments : list string) (count : nat) :
  forall r r',
    pruneFrom segments count r = Some r' -> keysDistinct r ->
    forall ks x, fileAt r ks x -> fileAt r' ks x.
Proof.
  induction count as [|i IH]; intros r r'; cbn [pruneFrom].
  - now intros [= <-].
  - destruct (pruneAt segments i r) as [r1|] eqn:E; [|discriminate].
    intros H Hkd ks x Hx. apply (IH r1 r' H).
    + now apply (pruneAt_sound segments i r r1 E).
    + now apply (pruneAt_keeps segments i r r1 E).
Qed.

(** *** The queue loop finds every file below a node *)

Definition queueCount (queue : list TrieNode) : nat :=
  fold_right (fun n acc => nodeCount n + acc) 0 queue.

Lemma queueCount_app (a b : list TrieNode) :
  queueCount (a ++ b) = queueCount a + queueCount b.
Proof.
  unfold queueCount. induction a as [|n a IH]; cbn [app fold_right];
    [reflexivity|]. rewrite IH. lia.
Qed.

Lemma nodeCount_children (n : TrieNode) :
  nodeCount n = S (queueCount (JsMap.values (children n))).
Proof.
  destruct n as [c fs d]. cbn [nodeCount children]. f_equal.
  unfold queueCount, JsMap.values.
  induction c as [|kv c IH]; cbn [fold_right List.map]; [reflexivity|].
  now rewrite IH.
Qed.

Lemma collectLoop_found (fuel : nat) :
  forall queue found x,
    In x found -> In x (collectLoop fuel queue found).
Proof.
  induction fuel as [|fuel IH]; intros queue found x Hx;
    cbn [collectLoop]; [exact Hx|].
  destruct queue as [|current rest]; [exact Hx|].
  apply IH. apply in_or_app. now left.
Qed.

Lemma collectLoop_complete (fuel : nat) :
  forall queue found n ks x,
    queueCount queue <= fuel -> In n queue -> fileAt n ks x ->
    In x (collectLoop fuel queue found).
Proof.
  induction fuel as [|fuel IH]; intros queue found n ks x Hfuel Hn Hf.
  - destruct queue as [|current rest]; [destruct Hn|].
    cbn [queueCount fold_right] in Hfuel.
    rewrite nodeCount_children in Hfuel. lia.
  - destruct queue as [|current rest]; [destruct Hn|].
    cbn [collectLoop]. cbn [queueCount fold_right] in Hfuel.
    fold (queueCount rest) in Hfuel.
    rewrite nodeCount_children in Hfuel.
    assert (Hfuel' : queueCount (rest ++ JsMap.values (children current))
                     <= fuel) by (rewrite queueCount_app; lia).
    destruct Hn as [<-|Hn].
    + destruct Hf as (m & Hr & Hx).
      inversion Hr as [|? k child ks' ? Hin Hr']; subst.
      * apply collectLoop_found. apply in_or_app. now right.
      * apply (IH _ _ child ks' x Hfuel'); [|now exists m].
        apply in_or_app. right. unfold JsMap.values.
        apply in_map_iff. now exists (k, child).
    + apply (IH _ _ n ks x Hfuel'); [|exact Hf].
      apply in_or_app. now left.
Qed.

Lemma collectFiles_complete (n : TrieNode) (ks : list string) (x : string) :
  fileAt n ks x -> In x (collectFiles n).
Proof.
  intros H. unfold collectFiles.
  apply (collectLoop_complete _ _ _ n ks x); [|now left | exact H].
  cbn [queueCount fold_right]. lia.
Qed.

(** *** The invariant *)

(** The path has a file name: its last segment is not empty. *)
Definition named (x : string) : Prop :=
  Js.isEmpty (List.last (Js.splitChar "/"%char x) EmptyString) = false.

(** Child keys are distinct; every path of the trie is an inserted path
    with a file name and sits at the node named by its non-empty
    segments; and every inserted path with a file name is there. *)
Definition placed (st : State) : Prop :=
  keysDistinct (root st)
  /\ (forall ks x,
         fileAt (root st) ks x ->
         In x (allFiles st) /\ nonEmpty (Js.splitChar "/"%char x) = ks
         /\ named x)
  /\ (forall x,
         In x (allFiles st) -> named x ->
         fileAt (root st) (nonEmpty (Js.splitChar "/"%char x)) x).

Lemma empty_placed : placed empty.
Proof.
  split; [apply keysDistinct_createNode|]. split.
  - intros ks x H. now apply fileAt_createNode in H.
  - intros x [].
Qed.

Lemma insert_placed (st : State) (filePath : string) :
  placed st -> placed (insert st filePath).
Proof.
  intros (Hkd & Hfiles & Hall). unfold insert.
  destruct (Js.isEmpty filePath); [exact (conj Hkd (conj Hfiles Hall))|].
  destruct (inSet (normalizePath filePath) (allFiles st));
    [exact (conj Hkd (conj Hfiles Hall))|].
  split; [|split]; cbn [root allFiles].
  - now apply insertAt_keysDistinct.
  - intros ks x H. apply insertAt_fileAt in H as [H|(-> & -> & Hl)].
    + destruct (Hfiles ks x H) as (Hin & Hks & Hn).
      split; [apply in_or_app; now left | now split].
    + split; [apply in_or_app; right; now left | now split].
  - intros x Hin Hn. apply in_app_or in Hin as [Hin|[<-|[]]].
    + apply insertAt_keeps; [exact Hkd | now apply Hall].
    + now apply insertAt_adds.
Qed.

Lemma afterRemove_placed (st : State) (filePath : string) :
  placed st -> placed (afterRemove st filePath).
Proof.
  intros (Hkd & Hfiles & Hall). unfold afterRemove, remove.
  destruct (inSet (normalizePath filePath) (allFiles st)); cbn [negb];
    [|exact (conj Hkd (conj Hfiles Hall))].
  cbv zeta. set (np := normalizePath filePath).
  set (segments := Js.splitChar "/"%char np).
  destruct (getNode (nonEmpty segments) (root st)) as [node|] eqn:Eg.
  - set (r1 := updateAt (nonEmpty segments)
                 (fun n => Node (children n) (setDelete (files n) np)
                                (isDirectory n))
                 (root st)).
    assert (Hk1 : keysDistinct r1)
      by (apply updateAt_keysDistinct;
          [apply deleteFile_shrinks | exact Hkd]).
    assert (Hf1 : forall ks x,
               fileAt r1 ks x ->
               In x (setDelete (allFiles st) np)
               /\ nonEmpty (Js.splitChar "/"%char x) = ks /\ named x).
    { intros ks x H.
      pose proof (updateAt_fileAt _ (deleteFile_shrinks np) _ _ _ _ H) as H0.
      destruct (Hfiles ks x H0) as (Hin & Hks & Hn).
      split; [|now split].
      apply PathTrieBookkeeping.setDelete_In. split; [exact Hin|].
      intros ->. fold segments in Hks. subst ks.
      destruct H as (m' & Hr & Hx).
      apply reaches_updateAt in Hr as (m & _ & ->); [|exact Hkd].
      cbn [files] in Hx.
      apply PathTrieBookkeeping.setDelete_In in Hx. tauto. }
    assert (Ha1 : forall x,
               In x (setDelete (allFiles st) np) -> named x ->
               fileAt r1 (nonEmpty (Js.splitChar "/"%char x)) x).
    { intros x Hin Hn.
      apply PathTrieBookkeeping.setDelete_In in Hin as [Hin Hne].
      apply (updateAt_keeps (fun y => y <> np) _ (deleteFile_keeps np));
        [exact Hkd | exact Hne | now apply Hall]. }
    destruct (pruneFrom segments (length segments) r1) as [r2|] eqn:Ep.
    + pose proof (pruneFrom_sound _ _ _ _ Ep) as [Hf2 Hk2].
      split; [|split]; cbn [root allFiles]; auto.
      intros x Hin Hn.
      apply (pruneFrom_keeps _ _ _ _ Ep Hk1). now apply Ha1.
    + split; [|split]; cbn [root allFiles]; auto.
  - split; [|split]; cbn [root allFiles]; [exact Hkd | |].
    + intros ks x H. destruct (Hfiles ks x H) as (Hin & Hks & Hn).
      split; [|now split].
      apply PathTrieBookkeeping.setDelete_In. split; [exact Hin|].
      intros ->. fold segments in Hks. subst ks.
      destruct H as (m & Hr & _).
      apply (reaches_getNode _ _ _ Hkd) in Hr. congruence.
    + intros x Hin Hn.
      apply PathTrieBookkeeping.setDelete_In in Hin as [Hin _].
      now apply Hall.
Qed.

Lemma perform_placed (ops : list Operation) :
  forall st, placed st -> placed (fold_left perform ops st).
Proof.
  induction ops as [|op ops IH]; intros st Hst; [exact Hst|].
  cbn [fold_left]. apply IH.
  destruct op as [p|p|]; cbn [perform];
    [now apply insert_placed | now apply afterRemove_placed
    | exact empty_placed].
Qed.

(** The path lies under the directory [prefix], segment by segment. *)
Definition under (prefix x : string) : Prop :=
  exists ks,
    nonEmpty (Js.splitChar "/"%char x)
    = (nonEmpty (Js.splitChar "/"%char (normalizePath prefix)) ++ ks)%list.

Lemma matchPrefix_elem (st : State) (prefix x : string) :
  placed st -> prefix <> EmptyString ->
  (In x (matchPrefix st prefix)
   <-> In x (getAllFiles st) /\ named x /\ under prefix x).
Proof.
  intros (Hkd & Hfiles & Hall) Hne. unfold matchPrefix, under.
  apply JsFacts.isEmpty_false in Hne as ->. cbv zeta.
  set (segs := nonEmpty (Js.splitChar "/"%char (normalizePath prefix))).
  split.
  - destruct (getNode segs (root st)) as [n|] eqn:Eg; [|intros []].
    intros H. apply collectFiles_sound in H as (ks & m & Hr & Hx).
    apply getNode_reaches in Eg.
    destruct (Hfiles _ x (ex_intro _ m (conj (reaches_app _ _ _ _ _ Eg Hr)
                                             Hx)))
      as (Hin & Hks & Hn).
    split; [exact Hin|]. split; [exact Hn | now exists ks].
  - intros (Hin & Hn & ks & Hks).
    destruct (Hall x Hin Hn) as (m & Hr & Hx). rewrite Hks in Hr.
    apply reaches_app_inv in Hr as (o & Hr1 & Hr2).
    rewrite (reaches_getNode _ _ _ Hkd Hr1).
    apply (collectFiles_complete o ks x). now exists m.
Qed.

Section WithMinimatch.
Variable minimatch : string -> string -> bool.

(** X28.  In every state a trie goes through by [insert], [remove]
    (returning or throwing) and [clear], [matchPrefix] with a non-empty
    prefix returns exactly the paths of [getAllFiles()] that have a file
    name and whose non-empty segments begin with those of the prefix;
    and [matchGlob] with a non-empty pattern returns exactly the paths
    that the glob matching over the whole file set returns and that,
    when the pattern has a fixed prefix, lie under it in that sense.  So
    neither returns a removed path. *)
Theorem matchPrefix_exact (ops : list Operation) :
  let st := fold_left perform ops empty in
  (forall prefix x,
      prefix <> EmptyString ->
      (In x (matchPrefix st prefix)
       <-> In x (getAllFiles st) /\ named x /\ under prefix x))
  /\ (forall pattern x,
         pattern <> EmptyString ->
         (In x (matchGlob minimatch st pattern)
          <-> In x (globAll minimatch st pattern)
              /\ (extractSimplePrefix pattern = EmptyString
                  \/ (named x /\ under (extractSimplePrefix pattern) x)))).
Proof.
  cbv zeta.
  pose proof (perform_placed ops empty empty_placed) as Hplaced.
  set (st := fold_left perform ops empty) in *.
  split; [intros prefix x; now apply matchPrefix_elem|].
  intros pattern x Hne. unfold matchGlob, globAll.
  apply JsFacts.isEmpty_false in Hne as ->. cbv zeta.
  rewrite !filter_In.
  destruct (extractSimplePrefix pattern) as [|c p] eqn:Ep; cbn [Js.isEmpty].
  - tauto.
  - rewrite (matchPrefix_elem st (String c p) x Hplaced) by discriminate.
    split.
    + intros [(Hin & Hn & Hu) Hm]. split; [now split|]. right. now split.
    + intros [[Hin Hm] [Hc|[Hn Hu]]]; [discriminate|]. now repeat split.
Qed.

End WithMinimatch.

Lemma matchPrefix_exact_witness :
  let st := fold_left perform
              [Insert "notes/a.md"; Insert "journal/j.md";
               Insert "notes/sub/b.md"; Remove "notes/a.md"] empty in
  In "notes/sub/b.md" (matchPrefix st "notes")
  <-> In "notes/sub/b.md" (getAllFiles st) /\ named "notes/sub/b.md"
      /\ under "notes" "notes/sub/b.md".
Proof.
  apply (proj1 (matchPrefix_exact
                  (fun _ _ => true)
                  [Insert "notes/a.md"; Insert "journal/j.md";
                   Insert "notes/sub/b.md"; Remove "notes/a.md"])
               "notes" "notes/sub/b.md").
  discriminate.
Defined.

End PathTrieSound.

(** ** FileSystemService: one file of a search, and one event of the
    watcher *)

Module FileSystemServiceFacts.
Import FileSystemService.

Lemma scored (found : list SearchScorer.Match) (content query : string) :
  found <> [] -> content <> EmptyString -> query <> EmptyString ->
  exists s,
    SearchScorer.calculateScore SearchScorer.DEFAULT_WEIGHTS found
                                content query = Some s
    /\ (0 < s <= 1)%R.
Proof.
  intros Hm Hc Hq.
  rewrite SearchScorerFacts.calculateScore_nondegenerate by assumption.
  eexists; split; [reflexivity|].
  unfold SearchScorer.scoreFormula, SearchScorer.clamp01.
  set (tf := SearchScorer.TF _).
  assert (Htf : (0 <= tf <= 1)%R).
  { unfold tf. destruct (Nat.eqb (SearchScorer.totalWords content) 0).
    - rewrite SearchScorerFacts.TF_zero. lra.
    - apply SearchScorerBounds.TF_unit. }
  pose proof (SearchScorerBounds.Position_pos
                (SearchScorer.firstMatchLine found)
                (SearchScorer.totalLinesOf content)).
  pose proof (SearchScorerBounds.Density_unit
                (length found) (SearchScorer.totalLinesOf content)).
  split; [|apply Rmin_l].
  apply Rmin_glb_lt; [lra|].
  apply Rlt_le_trans with (2 := Rmax_r _ _). nra.
Qed.

(** No line of the content holds the query. *)
Definition absent (query content : string) : Prop :=
  forall text p,
    In text (Js.splitChar "010"%char content) ->
    ~ MatchExtractorFacts.occursAt query text p.

Lemma extractMatches_nil (config : MatchExtractor.MatchExtractorConfig)
      (content query : string) :
  query <> EmptyString ->
  (MatchExtractor.extractMatches config content query None = []
   <-> absent query content).
Proof.
  intros Hq. unfold MatchExtractor.extractMatches, absent.
  apply JsFacts.isEmpty_false in Hq as Hq'. rewrite Hq', orb_false_r.
  destruct (Js.isEmpty content) eqn:Hc.
  - destruct content; [|discriminate]. cbn [Js.splitChar].
    split; [|reflexivity]. intros _ text p [<-|[]] Hocc.
    unfold MatchExtractorFacts.occursAt in Hocc.
    cbn [Js.toLowerCase] in Hocc. rewrite JsFacts.drop_empty in Hocc.
    destruct query; [congruence | discriminate].
  - cbv zeta. split.
    + intros Hnil text p Hin Hocc.
      apply In_nth_error in Hin as (k & Hk).
      destruct (MatchExtractorFacts.scanLines_complete
                  config (Js.splitChar "010"%char content) query
                  (MatchExtractor.contextLines config)
                  _ 0 k text p Hk Hocc) as (m & Hm & _).
      cbn [default] in Hnil. rewrite Hnil in Hm. destruct Hm.
    + intros Habs. cbn [default].
      destruct (MatchExtractor.scanLines _ _ _ _ _ _) as [|m ms] eqn:E;
        [reflexivity|]. exfalso.
      assert (Hm : In m (MatchExtractor.scanLines
                           config (Js.splitChar "010"%char content) query
                           (MatchExtractor.contextLines config) 0
                           (Js.splitChar "010"%char content)))
        by (rewrite E; now left).
      apply MatchExtractorFacts.scanLines_sound
        in Hm as (k & text & Hk & _ & _ & _ & p & _ & Hocc & _).
      apply (Habs text p); [|exact Hocc].
      now apply nth_error_In in Hk.
Qed.

Section OneFile.
Context {Unknown : Type}.
Variable config : MatchExtractor.MatchExtractorConfig.

(** The tag filter is given and the tags of the file fail it. *)
Definition tagsFail (tags : option (list string))
           (metadata : option (ContentCache.ContentMetadata Unknown)) : Prop :=
  exists t ts,
    tags = Some (t :: ts)
    /\ hasAllTags match metadata with
                  | Some md => ContentCache.allTags md
                  | None => []
                  end (t :: ts) = false.

(** X29.  The step that a search runs on one file, with the default
    weights, always answers.  A result carries the file's path and a
    score above 0 and at most 1: with a non-empty query, the matches of
    [extractMatches], at least one, and the score of [calculateScore];
    without one, score 1 and no matches.  The file is skipped exactly
    when its tags fail a given tag filter, or its front matter fails a
    given front-matter filter, or the query is non-empty and no line of
    the content holds it. *)
Theorem searchFile_outcome (query : option string)
        (tags : option (list string))
        (frontmatterFilter frontmatterMatches : bool)
        (file content : string)
        (metadata : option (ContentCache.ContentMetadata Unknown)) :
  let outcome :=
    searchFile Unknown config SearchScorer.DEFAULT_WEIGHTS query tags
               frontmatterFilter frontmatterMatches file content metadata in
  outcome <> NoAnswer
  /\ (forall r,
         outcome = Found r ->
         path r = file /\ (0 < score r <= 1)%R
         /\ match query with
            | Some (String c q) =>
                matches r
                = MatchExtractor.extractMatches config content (String c q)
                                                None
                /\ matches r <> []
                /\ SearchScorer.calculateScore
                     SearchScorer.DEFAULT_WEIGHTS
                     (List.map MatchExtractor.forScorer (matches r))
                     content (String c q) = Some (score r)
            | _ => score r = 1%R /\ matches r = []
            end)
  /\ (outcome = Skipped
      <-> tagsFail tags metadata
          \/ (frontmatterFilter = true /\ frontmatterMatches = false)
          \/ exists c q, query = Some (String c q)
                         /\ absent (String c q) content).
Proof.
  cbv zeta. unfold searchFile, tagsFail.
  set (tagsPass := match tags with
                   | Some (t :: ts) => hasAllTags _ (t :: ts)
                   | _ => true
                   end).
  assert (Htags : tagsPass = false
                  <-> exists t ts,
                      tags = Some (t :: ts)
                      /\ hasAllTags match metadata with
                                    | Some md => ContentCache.allTags md
                                    | None => []
                                    end (t :: ts) = false).
  { unfold tagsPass. destruct tags as [[|t ts]|].
    - split; [discriminate | intros (? & ? & [=] & _)].
    - split; [intros H; now exists t, ts|].
      now intros (? & ? & [= <- <-] & H).
    - split; [discriminate | intros (? & ? & [=] & _)]. }
  destruct tagsPass; cbn [negb].
  2: { split; [discriminate|]. split; [discriminate|].
       split; [intros _; left; now apply Htags | reflexivity]. }
  assert (Hnotags : ~ exists t ts,
                      tags = Some (t :: ts)
                      /\ hasAllTags match metadata with
                                    | Some md => ContentCache.allTags md
                                    | None => []
                                    end (t :: ts) = false).
  { intros H. apply Htags in H. discriminate. }
  destruct (frontmatterFilter && negb frontmatterMatches) eqn:Efm.
  { apply andb_prop in Efm as [-> Hn]. apply negb_true_iff in Hn as ->.
    split; [discriminate|]. split; [discriminate|].
    split; [intros _; right; left; now split | reflexivity]. }
  assert (Hnofm : ~ (frontmatterFilter = true /\ frontmatterMatches = false)).
  { intros [-> ->]. discriminate. }
  assert (Hplain : forall (P : Prop),
             P ->
             Found {| path := file; score := 1; matches := [] |} <> NoAnswer
             /\ (forall r,
                    Found {| path := file; score := 1; matches := [] |}
                    = Found r ->
                    path r = file /\ (0 < score r <= 1)%R
                    /\ score r = 1%R /\ matches r = [])
             /\ P).
  { intros P HP. split; [discriminate|]. split; [|exact HP].
    intros r [= <-]. cbn [path score matches]. repeat split; lra. }
  destruct query as [[|c q]|].
  - apply Hplain. split; [discriminate|].
    intros [H|[H|(c & q & [=] & _)]]; contradiction.
  - cbv zeta.
    pose proof (extractMatches_nil config content (String c q)
                                   ltac:(discriminate)) as Hnil.
    destruct (MatchExtractor.extractMatches config content (String c q) None)
      as [|m ms] eqn:Em.
    + cbn [length Nat.ltb Nat.leb].
      split; [discriminate|]. split; [discriminate|].
      split; [|reflexivity]. intros _. right. right. exists c, q.
      split; [reflexivity | now apply Hnil].
    + cbn [length Nat.ltb Nat.leb].
      assert (Hc : content <> EmptyString).
      { intros ->. discriminate. }
      destruct (scored (List.map MatchExtractor.forScorer (m :: ms))
                       content (String c q))
        as (s & Hs & Hbound); [discriminate | exact Hc | discriminate|].
      rewrite Hs. split; [discriminate|]. split.
      * intros r [= <-]. cbn [path score matches].
        repeat split; try tauto; discriminate.
      * split; [discriminate|].
        intros [H|[H|(c' & q' & [= <- <-] & Habs)]]; try contradiction.
        apply Hnil in Habs. discriminate.
  - apply Hplain. split; [discriminate|].
    intros [H|[H|(c & q & [=] & _)]]; contradiction.
Qed.

End OneFile.

Lemma searchFile_outcome_witness :
  searchFile unit MatchExtractor.DEFAULT_CONFIG SearchScorer.DEFAULT_WEIGHTS
             (Some "hello") (Some ["project"]) false false
             "a.md" "say Hello" None
  = Skipped.
Proof.
  apply (proj2 (proj2 (searchFile_outcome
                         MatchExtractor.DEFAULT_CONFIG
                         (Some "hello") (Some ["project"]) false false
                         "a.md" "say Hello" (None (A := ContentCache.ContentMetadata unit))))).
  left. exists "project", []. split; reflexivity.
Defined.

(** *** The watcher callback *)

Lemma content_dropped {Unknown : Type} (maxSize : Z)
      (st : ContentCache.State Unknown) (filePath : string) (m : Z) :
  exists s,
    ContentCache.get Unknown maxSize
                     (ContentCache.invalidate Unknown st filePath) filePath m
    = Some (s, None).
Proof.
  unfold ContentCache.get, ContentCache.invalidate.
  cbn [ContentCache.cache ContentCache.persistentCache].
  rewrite JsMapFacts.get_delete_eq.
  destruct (ContentCache.persistentCache st) as [[rows|]|];
    cbn [fmap option_fmap option_map PersistentCache.delete
         PersistentCache.getWithMtime]; eauto.
  rewrite lookup_delete_eq. eauto.
Qed.

Lemma listings_dropped (ttl now : Z) (st : FileListCache.State)
      (folder : string) :
  snd (FileListCache.get ttl now (FileListCache.invalidate st None) folder)
  = None.
Proof.
  unfold FileListCache.get, FileListCache.invalidate.
  cbn [FileListCache.cache FileListCache.persistentCache JsMap.get find].
  destruct (FileListCache.persistentCache st) as [[rows|]|]; reflexivity.
Qed.

Lemma results_dropped {number Frontmatter SearchResult : Type}
      (numberToString : number -> string)
      (jsonStringify : Frontmatter -> string)
      (inflateParse : string -> SearchResultCache.Decoded SearchResult)
      (options : SearchResultCache.SearchResultCacheOptions) (now : Z)
      (st : SearchResultCache.State SearchResult)
      (opts : SearchResultCache.SearchOptions number Frontmatter) :
  exists s,
    SearchResultCache.get number numberToString Frontmatter jsonStringify
                          SearchResult inflateParse options now
                          (SearchResultCache.invalidate SearchResult st) opts
    = Some (s, SearchResultCache.Null).
Proof.
  apply SearchResultCacheFacts.get_never_stored; [reflexivity|].
  intros db. unfold SearchResultCache.invalidate.
  cbn [SearchResultCache.persistentCache].
  destruct (SearchResultCache.persistentCache st) as [[rows|]|];
    intros [= <-]; reflexivity.
Qed.

Lemma index_dropped (options : InvertedIndex.InvertedIndexOptions)
      (index : InvertedIndex.State) (filePath : string) :
  InvertedIndex.reachable options index ->
  InvertedIndex.isFileIndexed (InvertedIndex.invalidate index filePath)
                              filePath = false
  /\ forall query,
      (InvertedIndex.normalizePath filePath
         ∉ InvertedIndex.search options
             (InvertedIndex.invalidate index filePath) query)
      /\ (InvertedIndex.normalizePath filePath
            ∉ InvertedIndex.searchAny options
                (InvertedIndex.invalidate index filePath) query).
Proof.
  intros Hreach.
  pose proof (InvertedIndexFacts.reachable_mirrored options index Hreach)
    as Hm.
  pose proof (fun w p => InvertedIndexFacts.invalidate_fileOfWord
                           index filePath w p Hm) as Hinv.
  split.
  - unfold InvertedIndex.isFileIndexed, InvertedIndex.invalidate.
    destruct (InvertedIndex.fileToWords index
                !! InvertedIndex.normalizePath filePath) as [ws|] eqn:E;
      cbn [InvertedIndex.fileToWords]; apply bool_decide_eq_false.
    + rewrite lookup_delete_eq. now intros [? ?].
    + rewrite E. now intros [? ?].
  - intros query. split.
    + rewrite InvertedIndexSearch.search_elem.
      intros (_ & _ & (w & Hw) & Hall). apply Hall, Hinv in Hw. tauto.
    + rewrite InvertedIndexSearch.searchAny_elem.
      intros (_ & _ & w & _ & Hf). apply Hinv in Hf. tauto.
Qed.

Section Callback.
Context {Unknown : Type}.

Local Abbreviation after sv eventType filePath :=
  (servicesOf Unknown (onFileChange Unknown sv eventType filePath)).

(** X30.  What the watcher callback leaves behind, whether it returns
    or [pathTrie.remove] throws out of it.  After every event no cached
    search result is served.  After every event but [change] no cached
    file listing is served.  After [unlink] and [change] of a path the
    content cache answers [null] for it at every modification time and
    the index no longer finds it.  After [unlink] the trie no longer has
    the path; after [add] of a non-empty path it has it. *)
Theorem watcher_event_invalidates (sv : Services Unknown)
        (eventType : FileWatcher.FileChangeEventType) (filePath : string) :
  (forall (number Frontmatter : Type) (numberToString : number -> string)
          (jsonStringify : Frontmatter -> string) inflateParse options
          now opts,
      exists s,
        SearchResultCache.get
          number numberToString Frontmatter jsonStringify SearchResult
          inflateParse options now
          (searchResultCache Unknown (after sv eventType filePath)) opts
        = Some (s, SearchResultCache.Null))
  /\ (eventType <> FileWatcher.change ->
      forall ttl now folder,
        snd (FileListCache.get
               ttl now (fileListCache Unknown (after sv eventType filePath))
               folder) = None)
  /\ (eventType = FileWatcher.unlink \/ eventType = FileWatcher.change ->
      (forall maxSize m,
          exists s,
            ContentCache.get
              Unknown maxSize
              (contentCache Unknown (after sv eventType filePath)) filePath m
            = Some (s, None))
      /\ (forall options index,
             invertedIndex Unknown sv = Some index ->
             InvertedIndex.reachable options index ->
             exists index',
               invertedIndex Unknown (after sv eventType filePath)
               = Some index'
               /\ InvertedIndex.isFileIndexed index' filePath = false
               /\ forall query,
                   (InvertedIndex.normalizePath filePath
                      ∉ InvertedIndex.search options index' query)
                   /\ (InvertedIndex.normalizePath filePath
                         ∉ InvertedIndex.searchAny options index' query)))
  /\ (forall trie,
         pathTrie Unknown sv = Some trie ->
         (eventType = FileWatcher.unlink ->
          exists trie',
            pathTrie Unknown (after sv eventType filePath) = Some trie'
            /\ PathTrie.has trie' filePath = false)
         /\ (eventType = FileWatcher.add -> filePath <> EmptyString ->
             exists trie',
               pathTrie Unknown (after sv eventType filePath) = Some trie'
               /\ PathTrie.has trie' filePath = true)).
Proof.
  assert (Hsv :
             after sv FileWatcher.unlink filePath
             = {| fileListCache :=
                    FileListCache.invalidate (fileListCache Unknown sv) None;
                  searchResultCache :=
                    SearchResultCache.invalidate
                      _ (searchResultCache Unknown sv);
                  contentCache :=
                    ContentCache.invalidate _ (contentCache Unknown sv)
                                            filePath;
                  invertedIndex :=
                    (fun index => InvertedIndex.invalidate index filePath)
                      <$> invertedIndex Unknown sv;
                  pathTrie :=
                    (fun t => PathTrie.afterRemove t filePath)
                      <$> pathTrie Unknown sv |}).
  { unfold onFileChange, PathTrie.afterRemove.
    destruct (pathTrie Unknown sv) as [trie|]; [|reflexivity].
    cbn [fmap option_fmap option_map].
    now destruct (PathTrie.remove trie filePath). }
  split; [|split; [|split]].
  - intros number Frontmatter numberToString jsonStringify inflateParse
           options now opts.
    destruct eventType; rewrite ?Hsv; cbn [onFileChange servicesOf
                                           searchResultCache];
      apply results_dropped.
  - intros Hne ttl now folder.
    destruct eventType; rewrite ?Hsv; try congruence;
      cbn [onFileChange servicesOf fileListCache]; apply listings_dropped.
  - intros Hev. split.
    + intros maxSize m.
      destruct Hev as [-> | ->]; rewrite ?Hsv;
        cbn [onFileChange servicesOf contentCache]; apply content_dropped.
    + intros options index Hidx Hreach.
      exists (InvertedIndex.invalidate index filePath).
      split; [|now apply index_dropped].
      destruct Hev as [-> | ->]; rewrite ?Hsv;
        cbn [onFileChange servicesOf invertedIndex]; now rewrite Hidx.
  - intros trie Htrie. split.
    + intros ->. rewrite Hsv. cbn [pathTrie]. rewrite Htrie.
      eexists. split; [reflexivity|].
      unfold PathTrie.has.
      destruct (PathTrieBookkeeping.remove_files trie filePath) as [-> _].
      destruct (PathTrie.inSet (PathTrie.normalizePath filePath)
                               (PathTrie.allFiles trie)) eqn:E; [|exact E].
      apply not_true_is_false.
      rewrite PathTrieBookkeeping.inSet_In,
        PathTrieBookkeeping.setDelete_In.
      tauto.
    + intros -> Hne. cbn [onFileChange servicesOf pathTrie]. rewrite Htrie.
      eexists. split; [reflexivity|].
      unfold PathTrie.has, PathTrie.insert.
      apply JsFacts.isEmpty_false in Hne as ->.
      destruct (PathTrie.inSet (PathTrie.normalizePath filePath)
                               (PathTrie.allFiles trie)) eqn:E; [exact E|].
      cbn [PathTrie.allFiles].
      apply PathTrieBookkeeping.inSet_In, in_or_app. right. now left.
Qed.

End Callback.

Lemma watcher_event_invalidates_witness :
  exists trie',
    pathTrie unit
      (servicesOf unit
         (onFileChange unit
            (mkServices unit (FileListCache.mkState [] None)
                        (SearchResultCache.mkState [] None)
                        (ContentCache.mkState [] None) None
                        (Some (PathTrie.insert PathTrie.empty "notes/a.md")))
            FileWatcher.unlink "notes\a.md"))
    = Some trie'
    /\ PathTrie.has trie' "notes\a.md" = false.
Proof.
  apply (proj1 (proj2 (proj2 (proj2
           (watcher_event_invalidates
              (mkServices unit (FileListCache.mkState [] None)
                          (SearchResultCache.mkState [] None)
                          (ContentCache.mkState [] None) None
                          (Some (PathTrie.insert PathTrie.empty "notes/a.md")))
              FileWatcher.unlink "notes\a.md")))
           (PathTrie.insert PathTrie.empty "notes/a.md") eq_refl)
           eq_refl).
Defined.

End FileSystemServiceFacts.
